(** * modlib: Impulse Tracker sample codec and pattern unpacking

    A shallow embedding of the decoding core of package [itmod]:
    the little-endian [bitstream] reader, the compressed sample decoder
    [ItSampleCodec] and the packed pattern decoder [ItPattern.ToCommon]
    (with its older sibling [loadPattern]).

    Conventions.  Go's [int] and the fixed-width integer types are modelled
    as [Z]; every place where the source narrows a value ([uint8] arithmetic,
    [uint32(..)], [int16(..)], the 64-bit [buffer]) has its wrap-around
    written out.  Source bytes are [Byte.byte].  The fixed [[64]byte] arrays
    of the pattern decoder are lists of length 64 read and updated by index.
    An [io.Reader] is the list of bytes it still has to deliver.

    Loops whose end is not structural (the block loop of the codec, the
    loop of Decode, the row loop of the pattern decoder) take a fuel argument
    and return [None] only when it runs out; the callers give them a fuel
    computed from the input, and the lemmas [decodeLoop_fuel],
    [DecodeLoop_Decode] and [unpackRow_fuel] show that it never runs out. *)

From Stdlib Require Import ZArith List Lia Bool.
From Stdlib.Strings Require Import Byte.
From stdpp Require Import base list.
Import ListNotations.
Local Open Scope Z_scope.

(** ** Errors and results *)

Inductive error : Set :=
| ErrEndOfStream      (* bitstream: "end of stream" *)
| ErrBadParam         (* bitstream: "bad param" *)
| ErrDecodingError    (* sample codec: "decoding error" *)
| ErrInvalidSource    (* "invalid/corrupted source" *)
| EOF                 (* io.EOF *)
| ErrUnexpectedEOF.   (* io.ErrUnexpectedEOF *)

Inductive result (A : Type) : Type :=
| Ok (a : A)
| Err (e : error).
Arguments Ok {A} a.
Arguments Err {A} e.

(** ** Fixed-width integers *)

Definition byteZ (b : byte) : Z := Z.of_N (Byte.to_N b).

Definition uint8 (x : Z) : Z := x mod 2 ^ 8.
Definition uint32 (x : Z) : Z := x mod 2 ^ 32.
Definition uint64 (x : Z) : Z := x mod 2 ^ 64.
Definition int8 (x : Z) : Z := (x + 2 ^ 7) mod 2 ^ 8 - 2 ^ 7.
Definition int16 (x : Z) : Z := (x + 2 ^ 15) mod 2 ^ 16 - 2 ^ 15.
(* Go's [int] on the 64-bit targets the library is built for. *)
Definition int (x : Z) : Z := (x + 2 ^ 63) mod 2 ^ 64 - 2 ^ 63.

(** ** bitstream (bitstream.go) *)

Record bitstream : Type := mkBitstream {
  source : list byte;
  readPos : nat;
  buffer : Z;       (* uint64 *)
  buffered : Z      (* int: number of bits in the buffer *)
}.

Definition createBitstream (src : list byte) : bitstream :=
  {| source := src; readPos := 0; buffer := 0; buffered := 0 |}.

(* One pass through the body of the refill loop:
     bs.buffer |= uint64(bs.source[bs.readPos]) << bs.buffered
     bs.readPos++
     bs.buffered += 8 *)
Definition load (bs : bitstream) : bitstream :=
  {| source := source bs;
     readPos := S (readPos bs);
     buffer := Z.lor (buffer bs)
                 (uint64 (Z.shiftl (byteZ (nth (readPos bs) (source bs) x00))
                                   (buffered bs)));
     buffered := buffered bs + 8 |}.

(* for bs.buffered < width { if bs.readPos >= len(bs.source) { return EOS }; load }
   [remaining] is len(bs.source) - bs.readPos, so [remaining = 0] is the
   test [bs.readPos >= len(bs.source)]; [load] advances readPos by one.
   The boolean tells whether the loop ran to completion. *)
Fixpoint fill (remaining : nat) (bs : bitstream) (width : Z) : bitstream * bool :=
  if buffered bs <? width then
    match remaining with
    | O => (bs, false)
    | S k => fill k (load bs) width
    end
  else (bs, true).

(* func (bs *bitstream) read(width int) (uint32, error)
   The receiver is a pointer: the stream after the call is returned next to
   the result, also when the call fails. *)
Definition read (bs : bitstream) (width : Z) : bitstream * result Z :=
  if (width <? 0) || (width >=? 32) then (bs, Err ErrBadParam)
  else
    let (bs1, filled) := fill (length (source bs) - readPos bs) bs width in
    if filled then
      ({| source := source bs1;
          readPos := readPos bs1;
          buffer := Z.shiftr (buffer bs1) width;
          buffered := buffered bs1 - width |},
       Ok (uint32 (Z.land (buffer bs1) (Z.shiftl 1 width - 1))))
    else (bs1, Err ErrEndOfStream).

(* A sequence of read calls on one stream object; failed calls do not stop
   the sequence (the caller may go on using the stream). *)
Fixpoint reads (bs : bitstream) (widths : list Z) : bitstream * list (result Z) :=
  match widths with
  | [] => (bs, [])
  | w :: ws =>
      let (bs1, r) := read bs w in
      let (bs2, rs) := reads bs1 ws in
      (bs2, r :: rs)
  end.

(** ** Sample codec (itsamplecodec.go) *)

Record ItSampleCodec : Type := mkCodec {
  It215 : bool;   (* sources created with IT 2.15 or later *)
  Is16 : bool     (* 16-bit samples *)
}.

Record ItSampleCodecParams : Type := mkParams {
  lowerTab : list Z;
  upperTab : list Z;
  fetchA : Z;
  lowerB : Z;
  upperB : Z;
  defWidth : Z;
  mask : Z
}.

Definition ItSampleCodecParams16 : ItSampleCodecParams :=
  {| lowerTab := [0; -1; -3; -7; -15; -31; -56; -120; -248; -504; -1016;
                  -2040; -4088; -8184; -16376; -32760; -32768];
     upperTab := [0; 1; 3; 7; 15; 31; 55; 119; 247; 503; 1015; 2039; 4087;
                  8183; 16375; 32759; 32767];
     fetchA := 4;
     lowerB := -8;
     upperB := 7;
     defWidth := 17;
     mask := 0xFFFF |}.

Definition ItSampleCodecParams8 : ItSampleCodecParams :=
  {| lowerTab := [0; -1; -3; -7; -15; -31; -60; -124; -128];
     upperTab := [0; 1; 3; 7; 15; 31; 59; 123; 127];
     fetchA := 3;
     lowerB := -4;
     upperB := 3;
     defWidth := 9;
     mask := 0xFF |}.

(* binary.Read(r, binary.LittleEndian, &byteLength) with byteLength uint16:
   io.ReadFull of two bytes. *)
Definition readUint16 (r : list byte) : result (Z * list byte) :=
  match r with
  | [] => Err EOF
  | [_] => Err ErrUnexpectedEOF
  | b0 :: b1 :: r' => Ok (Z.lor (byteZ b0) (Z.shiftl (byteZ b1) 8), r')
  end.

(* binary.Read(r, binary.LittleEndian, &bytes) with len(bytes) = n:
   io.ReadFull of n bytes (n = 0 reads nothing and succeeds). *)
Definition readBytes (n : nat) (r : list byte) : result (list byte * list byte) :=
  if (n =? 0)%nat then Ok ([], r)
  else if (length r =? 0)%nat then Err EOF
  else if (length r <? n)%nat then Err ErrUnexpectedEOF
  else Ok (take n r, drop n r).

(* getChunk(r io.Reader) (bitstream, error): reads one length-prefixed chunk. *)
Definition getChunk (r : list byte) : result (bitstream * list byte) :=
  match readUint16 r with
  | Err e => Err e
  | Ok (byteLength, r1) =>
      match readBytes (Z.to_nat byteLength) r1 with
      | Err e => Err e
      | Ok (bytes, r2) => Ok (createBitstream bytes, r2)
      end
  end.

(* The local variables of decodeChunk that its loop and closures mutate. *)
Record chunkState : Type := mkChunkState {
  dataSource : bitstream;
  width : Z;
  mem1 : Z;
  mem2 : Z;
  decoded : list Z;     (* []int16 *)
  curLength : Z
}.

Definition withSource (ds : bitstream) (st : chunkState) : chunkState :=
  {| dataSource := ds; width := width st; mem1 := mem1 st; mem2 := mem2 st;
     decoded := decoded st; curLength := curLength st |}.

Definition withWidth (w : Z) (st : chunkState) : chunkState :=
  {| dataSource := dataSource st; width := w; mem1 := mem1 st; mem2 := mem2 st;
     decoded := decoded st; curLength := curLength st |}.

(* changeWidth := func(toWidth int) *)
Definition changeWidth (toWidth : Z) (st : chunkState) : chunkState :=
  let toWidth := toWidth + 1 in
  let toWidth := if toWidth >=? width st then toWidth + 1 else toWidth in
  withWidth toWidth st.

(* write := func(v int, topBit int) *)
Definition write (c : ItSampleCodec) (v topBit : Z) (st : chunkState) : chunkState :=
  let v := if negb (Z.land v topBit =? 0) then v - Z.shiftl topBit 1 else v in
  let mem1' := int (mem1 st + v) in
  let mem2' := int (mem2 st + mem1') in
  {| dataSource := dataSource st;
     width := width st;
     mem1 := mem1';
     mem2 := mem2';
     decoded := if It215 c then decoded st ++ [int16 mem2']
                else decoded st ++ [int16 mem1'];
     curLength := curLength st - 1 |}.

(* for curLength > 0 { ... } ; return decoded, nil
   [None] only when [fuel] iterations were not enough. *)
Fixpoint decodeLoop (fuel : nat) (c : ItSampleCodec) (props : ItSampleCodecParams)
    (st : chunkState) : option (result (list Z)) :=
  if curLength st >? 0 then
    match fuel with
    | O => None
    | S fuel' =>
        if width st >? defWidth props then Some (Err ErrDecodingError)
        else
          match read (dataSource st) (width st) with
          | (_, Err e) => Some (Err e)
          | (ds, Ok vu) =>
              let st := withSource ds st in
              let v := vu in
              let topBit := Z.shiftl 1 (width st - 1) in
              if width st <=? 6 then
                (* Mode A: 1 to 6 bits *)
                if v =? topBit then
                  match read (dataSource st) (fetchA props) with
                  | (_, Err e) => Some (Err e)
                  | (ds', Ok toWidth) =>
                      decodeLoop fuel' c props (changeWidth toWidth (withSource ds' st))
                  end
                else decodeLoop fuel' c props (write c v topBit st)
              else if width st <? defWidth props then
                (* Mode B: 7 to 8 / 16 bits *)
                if (v >=? topBit + lowerB props) && (v <=? topBit + upperB props) then
                  decodeLoop fuel' c props (changeWidth (v - (topBit + lowerB props)) st)
                else decodeLoop fuel' c props (write c v topBit st)
              else
                (* Mode C: 9 / 17 bits *)
                if negb (Z.land v topBit =? 0) then
                  decodeLoop fuel' c props (withWidth (Z.land v (Z.lnot topBit) + 1) st)
                else decodeLoop fuel' c props (write c (Z.land v (Z.lnot topBit)) 0 st)
          end
    end
  else Some (Ok (decoded st)).

(* func (c *ItSampleCodec) decodeChunk(r io.Reader, remainingLength int)
   Returns the decoded block together with the reader after the chunk.
   Every iteration of the loop that goes on has read at least one bit, so
   one more iteration than the chunk has bits is enough fuel
   (see [decodeLoop_fuel]). *)
Definition decodeChunk (c : ItSampleCodec) (r : list byte) (remainingLength : Z)
    : option (result (list Z * list byte)) :=
  match getChunk r with
  | Err e => Some (Err e)
  | Ok (dataSource, r') =>
      (* 32kb block *)
      let maxBlockLength := 32 * 1024 in
      let maxBlockLength := if Is16 c then maxBlockLength / 2 else maxBlockLength in
      let curLength := Z.min remainingLength maxBlockLength in
      let props := if Is16 c then ItSampleCodecParams16 else ItSampleCodecParams8 in
      let width := defWidth props in
      match decodeLoop (S (8 * length (source dataSource))) c props
              {| dataSource := dataSource; width := width; mem1 := 0; mem2 := 0;
                 decoded := []; curLength := curLength |} with
      | None => None
      | Some (Err e) => Some (Err e)
      | Some (Ok d) => Some (Ok (d, r'))
      end
  end.

(* The loop of Decode: for remainingLength > 0 { ... } *)
Fixpoint DecodeLoop (fuel : nat) (c : ItSampleCodec) (r : list byte)
    (totalData : list Z) (remainingLength : Z) : option (result (list Z)) :=
  if remainingLength >? 0 then
    match fuel with
    | O => None
    | S fuel' =>
        match decodeChunk c r remainingLength with
        | None => None
        | Some (Err e) => Some (Err e)
        | Some (Ok (chunk, r')) =>
            DecodeLoop fuel' c r' (totalData ++ chunk)
                       (remainingLength - Z.of_nat (length chunk))
        end
    end
  else Some (Ok totalData).

(* func (self *ItSampleCodec) Decode(r io.Reader, sampleLength int) ([]int16, error)
   Every chunk takes at least its two length bytes from the reader, so one
   more iteration than the reader has bytes is enough fuel. *)
Definition Decode (c : ItSampleCodec) (r : list byte) (sampleLength : Z)
    : option (result (list Z)) :=
  DecodeLoop (S (length r)) c r [] sampleLength.

(** ** The common pattern model (common/common.go) *)

Module common.

Record PatternEntry : Type := mkPatternEntry {
  Channel : Z;         (* uint8 *)
  Note : Z;            (* uint8 *)
  Instrument : Z;      (* int16 *)
  VolumeCommand : Z;   (* uint8 *)
  VolumeParam : Z;     (* uint8 *)
  Effect : Z;          (* uint8 *)
  EffectParam : Z      (* uint8 *)
}.

Record PatternRow : Type := mkPatternRow {
  Entries : list PatternEntry
}.

Record Pattern : Type := mkPattern {
  Channels : Z;        (* int16 *)
  Rows : list PatternRow
}.

End common.

(** ** Packed patterns (itmod.go, itmod-mapping.go) *)

Record ItPatternHeader : Type := mkItPatternHeader {
  DataLength : Z;   (* uint16: length of packed data *)
  Rows : Z          (* uint16: number of rows in the pattern *)
}.

Record ItPattern : Type := mkItPattern {
  Header : ItPatternHeader;
  Data : list byte  (* packed data *)
}.

(* Mask constants for the packed pattern data. *)
Definition PmaskNote : Z := 1.
Definition PmaskIns : Z := 2.
Definition PmaskVol : Z := 4.
Definition PmaskEffect : Z := 8.
Definition PmaskLastNote : Z := 16.
Definition PmaskLastIns : Z := 32.
Definition PmaskLastVol : Z := 64.
Definition PmaskLastEffect : Z := 128.

(* func translateNote(note uint8) uint8 *)
Definition translateNote (note : Z) : Z :=
  if note <=? 120 then uint8 (note + 1)
  else if (note =? 254) || (note =? 255) then note
  else if note >=? 120 then 253
  else 0.

(* func translatePatternVolume(vol uint8) (uint8, uint8) *)
Definition translatePatternVolume (vol : Z) : Z * Z :=
  if vol <=? 64 then (1, vol)
  else if vol <=? 74 then (2, uint8 (vol - 65))
  else if vol <=? 84 then (3, uint8 (vol - 75))
  else if vol <=? 94 then (4, uint8 (vol - 85))
  else if vol <=? 104 then (5, uint8 (vol - 95))
  else if vol <=? 114 then (6, uint8 (vol - 105))
  else if vol <=? 124 then (7, uint8 (vol - 125))
  else if vol <=? 127 then (0, 0)
  else if vol <=? 128 then (8, uint8 (vol - 128))
  else if vol <=? 202 then (9, uint8 (vol - 129))
  else if vol <=? 212 then (10, uint8 (vol - 203))
  else (0, 0).

#[global] Instance byte_inhabited : Inhabited byte := populate x00.

(* The local variables of ItPattern.ToCommon that the unpacking loop mutates:
   the read cursor captured by nextByte, the six per-channel arrays and the
   channel count. *)
Record unpacker : Type := mkUnpacker {
  dataRead : nat;
  lastMask : list byte;          (* [64]byte *)
  lastNote : list byte;
  lastIns : list byte;
  lastVol : list byte;
  lastEffect : list byte;
  lastEffectParam : list byte;
  channels : Z
}.

Definition newUnpacker : unpacker :=
  {| dataRead := 0;
     lastMask := replicate 64 x00; lastNote := replicate 64 x00;
     lastIns := replicate 64 x00; lastVol := replicate 64 x00;
     lastEffect := replicate 64 x00; lastEffectParam := replicate 64 x00;
     channels := 0 |}.

Definition setDataRead (n : nat) (u : unpacker) : unpacker :=
  mkUnpacker n (lastMask u) (lastNote u) (lastIns u) (lastVol u)
             (lastEffect u) (lastEffectParam u) (channels u).
Definition setLastMask (a : list byte) (u : unpacker) : unpacker :=
  mkUnpacker (dataRead u) a (lastNote u) (lastIns u) (lastVol u)
             (lastEffect u) (lastEffectParam u) (channels u).
Definition setLastNote (a : list byte) (u : unpacker) : unpacker :=
  mkUnpacker (dataRead u) (lastMask u) a (lastIns u) (lastVol u)
             (lastEffect u) (lastEffectParam u) (channels u).
Definition setLastIns (a : list byte) (u : unpacker) : unpacker :=
  mkUnpacker (dataRead u) (lastMask u) (lastNote u) a (lastVol u)
             (lastEffect u) (lastEffectParam u) (channels u).
Definition setLastVol (a : list byte) (u : unpacker) : unpacker :=
  mkUnpacker (dataRead u) (lastMask u) (lastNote u) (lastIns u) a
             (lastEffect u) (lastEffectParam u) (channels u).
Definition setLastEffect (a : list byte) (u : unpacker) : unpacker :=
  mkUnpacker (dataRead u) (lastMask u) (lastNote u) (lastIns u) (lastVol u)
             a (lastEffectParam u) (channels u).
Definition setLastEffectParam (a : list byte) (u : unpacker) : unpacker :=
  mkUnpacker (dataRead u) (lastMask u) (lastNote u) (lastIns u) (lastVol u)
             (lastEffect u) a (channels u).
Definition setChannels (n : Z) (u : unpacker) : unpacker :=
  mkUnpacker (dataRead u) (lastMask u) (lastNote u) (lastIns u) (lastVol u)
             (lastEffect u) (lastEffectParam u) n.

(* nextByte := func() byte   (ItPattern.ToCommon)
   Past the end of the data it returns 0 and leaves the cursor alone. *)
Definition nextByte (data : list byte) (u : unpacker) : byte * unpacker :=
  match data !! dataRead u with
  | None => (x00, u)
  | Some byt => (byt, setDataRead (S (dataRead u)) u)
  end.

(* channel := int((channelSelect - 1) & 63), in uint8 arithmetic *)
Definition channelOf (channelSelect : byte) : Z :=
  Z.land (uint8 (byteZ channelSelect - 1)) 63.

(* if channel >= channels { channels = channel + 1 } *)
Definition trackChannel (channel : Z) (u : unpacker) : unpacker :=
  if channel >=? channels u then setChannels (channel + 1) u else u.

(* if channelSelect&0x80 != 0 { lastMask[channel] = nextByte() } *)
Definition readMask (data : list byte) (channelSelect : byte) (channel : Z)
    (u : unpacker) : unpacker :=
  if negb (Z.land (byteZ channelSelect) 0x80 =? 0) then
    let (b, u) := nextByte data u in
    setLastMask (<[Z.to_nat channel := b]> (lastMask u)) u
  else u.

(* if mask&PmaskNote != 0 { lastNote[channel] = nextByte() } *)
Definition readNote (data : list byte) (mask channel : Z) (u : unpacker) : unpacker :=
  if negb (Z.land mask PmaskNote =? 0) then
    let (b, u) := nextByte data u in
    setLastNote (<[Z.to_nat channel := b]> (lastNote u)) u
  else u.

(* if mask&PmaskIns != 0 { lastIns[channel] = nextByte() } *)
Definition readIns (data : list byte) (mask channel : Z) (u : unpacker) : unpacker :=
  if negb (Z.land mask PmaskIns =? 0) then
    let (b, u) := nextByte data u in
    setLastIns (<[Z.to_nat channel := b]> (lastIns u)) u
  else u.

(* if mask&PmaskVol != 0 { lastVol[channel] = nextByte() } *)
Definition readVol (data : list byte) (mask channel : Z) (u : unpacker) : unpacker :=
  if negb (Z.land mask PmaskVol =? 0) then
    let (b, u) := nextByte data u in
    setLastVol (<[Z.to_nat channel := b]> (lastVol u)) u
  else u.

(* if mask&PmaskEffect != 0 {
     lastEffect[channel] = nextByte(); lastEffectParam[channel] = nextByte() } *)
Definition readEffect (data : list byte) (mask channel : Z) (u : unpacker) : unpacker :=
  if negb (Z.land mask PmaskEffect =? 0) then
    let (b, u) := nextByte data u in
    let u := setLastEffect (<[Z.to_nat channel := b]> (lastEffect u)) u in
    let (b, u) := nextByte data u in
    setLastEffectParam (<[Z.to_nat channel := b]> (lastEffectParam u)) u
  else u.

(* The mask in force for a channel once the optional mask byte is read:
   mask := lastMask[channel] *)
Definition maskOf (channel : Z) (u : unpacker) : Z :=
  byteZ (lastMask u !!! Z.to_nat channel).

(* The body of the inner loop of ItPattern.ToCommon after the test for the
   row terminator, up to (not including) the append of the entry. *)
Definition unpackEntry (data : list byte) (channelSelect : byte) (u : unpacker)
    : unpacker * common.PatternEntry :=
  let channel := channelOf channelSelect in
  let u := trackChannel channel u in
  let u := readMask data channelSelect channel u in
  let mask := maskOf channel u in
  let u := readNote data mask channel u in
  let note :=
    if negb (Z.land mask (Z.lor PmaskNote PmaskLastNote) =? 0)
    then translateNote (byteZ (lastNote u !!! Z.to_nat channel)) else 0 in
  let u := readIns data mask channel u in
  let instrument :=
    if negb (Z.land mask (Z.lor PmaskIns PmaskLastIns) =? 0)
    then int16 (byteZ (lastIns u !!! Z.to_nat channel)) else 0 in
  let u := readVol data mask channel u in
  let volume :=
    if negb (Z.land mask (Z.lor PmaskVol PmaskLastVol) =? 0)
    then translatePatternVolume (byteZ (lastVol u !!! Z.to_nat channel)) else (0, 0) in
  let u := readEffect data mask channel u in
  let effect :=
    if negb (Z.land mask (Z.lor PmaskEffect PmaskLastEffect) =? 0)
    then (byteZ (lastEffect u !!! Z.to_nat channel),
          byteZ (lastEffectParam u !!! Z.to_nat channel)) else (0, 0) in
  (u, {| common.Channel := uint8 channel;
         common.Note := note;
         common.Instrument := instrument;
         common.VolumeCommand := fst volume;
         common.VolumeParam := snd volume;
         common.Effect := fst effect;
         common.EffectParam := snd effect |}).

(* for { channelSelect := nextByte(); if channelSelect == 0 { break }; ...;
         patternRow.Entries = append(patternRow.Entries, entry) }
   [None] only when [fuel] iterations were not enough. *)
Fixpoint unpackRow (fuel : nat) (data : list byte) (u : unpacker)
    (entries : list common.PatternEntry)
    : option (unpacker * list common.PatternEntry) :=
  match fuel with
  | O => None
  | S fuel' =>
      let (channelSelect, u) := nextByte data u in
      if byteZ channelSelect =? 0 then Some (u, entries)
      else
        let (u, entry) := unpackEntry data channelSelect u in
        unpackRow fuel' data u (entries ++ [entry])
  end.

(* for row := 0; row < int(itp.Header.Rows); row++ { ...;
     p.Rows = append(p.Rows, patternRow) }
   An iteration of the inner loop that goes on has taken its channel-select
   byte from the data, so one more iteration than the data has bytes is
   enough fuel for a row (see [unpackRow_fuel]). *)
Fixpoint unpackRows (rows : nat) (data : list byte) (u : unpacker)
    (acc : list common.PatternRow) : option (unpacker * list common.PatternRow) :=
  match rows with
  | O => Some (u, acc)
  | S rows' =>
      match unpackRow (S (length data)) data u [] with
      | None => None
      | Some (u, entries) =>
          unpackRows rows' data u (acc ++ [{| common.Entries := entries |}])
      end
  end.

(* func (itp *ItPattern) ToCommon() common.Pattern *)
Definition ToCommon (itp : ItPattern) : option common.Pattern :=
  match unpackRows (Z.to_nat (Rows (Header itp))) (Data itp) newUnpacker [] with
  | None => None
  | Some (u, rows) =>
      Some {| common.Channels := int16 (channels u); common.Rows := rows |}
  end.

(** ** loadPattern (the earlier pattern loader of itmod.go)

    The loader reads the pattern header and [DataLength] bytes of packed data
    from its reader and then walks the data with the same row protocol as
    [ItPattern.ToCommon].  Modelled from "// Unpack data" on, as a function
    of the row count and the data.  Its [nextByte] raises the local flag
    [failure] when it is called past the end of the data; the entry it fills
    in is a local that is dropped, and [p] is returned as declared. *)

(* nextByte := func() byte   (loadPattern); the state is the cursor and
   arrays paired with the flag [failure]. *)
Definition nextByteF (data : list byte) (s : unpacker * bool) : byte * (unpacker * bool) :=
  match data !! dataRead (fst s) with
  | None => (x00, (fst s, true))
  | Some byt => (byt, (setDataRead (S (dataRead (fst s))) (fst s), snd s))
  end.

(* if cond { last[channel] = nextByte() } for one of the six arrays *)
Definition storeNext (data : list byte) (cond : bool)
    (get : unpacker -> list byte) (set : list byte -> unpacker -> unpacker)
    (channel : Z) (s : unpacker * bool) : unpacker * bool :=
  if cond then
    let (b, s) := nextByteF data s in
    (set (<[Z.to_nat channel := b]> (get (fst s))) (fst s), snd s)
  else s.

(* The body of the inner loop of loadPattern after the terminator test. *)
Definition loadEntry (data : list byte) (channelSelect : byte) (s : unpacker * bool)
    : unpacker * bool :=
  let channel := channelOf channelSelect in
  let s := storeNext data (negb (Z.land (byteZ channelSelect) 0x80 =? 0))
                     lastMask setLastMask channel s in
  let mask := maskOf channel (fst s) in
  let s := storeNext data (negb (Z.land mask PmaskNote =? 0))
                     lastNote setLastNote channel s in
  let s := storeNext data (negb (Z.land mask PmaskIns =? 0))
                     lastIns setLastIns channel s in
  let s := storeNext data (negb (Z.land mask PmaskVol =? 0))
                     lastVol setLastVol channel s in
  let s := storeNext data (negb (Z.land mask PmaskEffect =? 0))
                     lastEffect setLastEffect channel s in
  storeNext data (negb (Z.land mask PmaskEffect =? 0))
            lastEffectParam setLastEffectParam channel s.

(* for { channelSelect := nextByte(); if channelSelect == 0 { break }; ... } *)
Fixpoint loadRow (fuel : nat) (data : list byte) (s : unpacker * bool)
    : option (unpacker * bool) :=
  match fuel with
  | O => None
  | S fuel' =>
      let (channelSelect, s) := nextByteF data s in
      if byteZ channelSelect =? 0 then Some s
      else loadRow fuel' data (loadEntry data channelSelect s)
  end.

(* for row := 0; row < int(itp.Rows); row++ { ...; if failure { return p, err } } *)
Fixpoint loadRows (rows : nat) (data : list byte) (s : unpacker * bool)
    : option (result common.Pattern) :=
  match rows with
  | O => Some (Ok {| common.Channels := 0; common.Rows := [] |})
  | S rows' =>
      match loadRow (S (length data)) data s with
      | None => None
      | Some s =>
          if snd s then Some (Err ErrInvalidSource)
          else loadRows rows' data s
      end
  end.

Definition loadPattern (rows : Z) (data : list byte) : option (result common.Pattern) :=
  loadRows (Z.to_nat rows) data (newUnpacker, false).

(** ** Strings (Go strings are byte sequences) *)

Fixpoint dropLeading (c : byte) (s : list byte) : list byte :=
  match s with
  | b :: t => if Byte.eqb b c then dropLeading c t else s
  | [] => []
  end.

(* strings.TrimRight(s, cutset) with a cutset of the single character [c]:
   s without its trailing [c]s. *)
Definition TrimRight (s : list byte) (c : byte) : list byte :=
  rev (dropLeading c (rev s)).

(* func iif[T any](cond bool, a, b T) T *)
Definition iif {T : Type} (cond : bool) (a b : T) : T :=
  if cond then a else b.

(** ** The common model, continued (common/common.go) *)

Definition ItSource : Z := 4.

Definition EnvelopeTypeVolume : Z := 0.
Definition EnvelopeTypePanning : Z := 1.
Definition EnvelopeTypePitch : Z := 2.
Definition EnvelopeTypeFilter : Z := 3.

Module common_Envelope.

Record EnvelopeNode : Type := mkEnvelopeNode {
  X : Z;   (* int16 *)
  Y : Z    (* int16 *)
}.

Record t : Type := mk {
  Enabled : bool;
  Loop : bool;
  Sustain : bool;
  Type_ : Z;            (* EnvelopeType *)
  LoopStart : Z;        (* int16 *)
  LoopEnd : Z;
  SustainStart : Z;
  SustainEnd : Z;
  Nodes : list EnvelopeNode
}.

End common_Envelope.

Module common_Instrument.

Record NotemapEntry : Type := mkNotemapEntry {
  Note : Z;     (* int16 *)
  Sample : Z    (* int16 *)
}.

Record t : Type := mk {
  Name : list byte;
  DosFilename : list byte;
  NewNoteAction : Z;
  DuplicateCheckType : Z;
  DuplicateCheckAction : Z;
  Fadeout : Z;
  PitchPanSeparation : Z;
  PitchPanCenter : Z;
  GlobalVolume : Z;
  DefaultPan : Z;
  DefaultPanEnabled : bool;
  RandomVolumeVariation : Z;
  RandomPanVariation : Z;
  FilterCutoff : Z;
  FilterResonance : Z;
  MidiChannel : Z;
  MidiProgram : Z;
  MidiBank : Z;                      (* uint16 *)
  Notemap : list NotemapEntry;       (* [120]NotemapEntry *)
  Envelopes : list common_Envelope.t
}.

End common_Instrument.

Module common_Sample.

Record SampleData : Type := mkSampleData {
  Channels : Z;          (* int8 *)
  Bits : Z;              (* int8 *)
  Data : list (list Z)   (* []any holding []int8 or []int16, one per channel *)
}.

Record t : Type := mk {
  Name : list byte;
  DosFilename : list byte;
  GlobalVolume : Z;
  DefaultVolume : Z;
  DefaultPanning : Z;
  S16 : bool;
  Stereo : bool;
  Loop : bool;
  Sustain : bool;
  PingPong : bool;
  PingPongSustain : bool;
  LoopStart : Z;         (* int *)
  LoopEnd : Z;
  SustainLoopStart : Z;
  SustainLoopEnd : Z;
  C5 : Z;
  VibratoSpeed : Z;
  VibratoDepth : Z;
  VibratoSweep : Z;
  VibratoWaveform : Z;
  SData : SampleData     (* the field Data *)
}.

End common_Sample.

Module common_Module.

Record ChannelSetting : Type := mkChannelSetting {
  Name : list byte;
  InitialVolume : Z;   (* int16, 0-64 *)
  InitialPan : Z;      (* int16, 0-64 *)
  Mute : bool;
  Surround : bool
}.

Record t : Type := mk {
  Source : Z;
  Title : list byte;
  GlobalVolume : Z;
  MixingVolume : Z;
  InitialSpeed : Z;
  InitialTempo : Z;
  PanSeparation : Z;
  PitchWheelDepth : Z;
  StereoMixing : bool;
  UseInstruments : bool;
  LinearSlides : bool;
  OldEffects : bool;
  LinkEFG : bool;
  Channels : Z;          (* int16 *)
  Message : list byte;
  PatternHighlight_Beat : Z;
  PatternHighlight_Measure : Z;
  ChannelSettings : list ChannelSetting;
  Order : list Z;        (* []int16 *)
  Instruments : list common_Instrument.t;
  Samples : list common_Sample.t;
  Patterns : list common.Pattern
}.

End common_Module.

(** ** The structures of an IT file (itmod.go) *)

Definition ItFlagStereo : Z := 1.
Definition ItFlagMixing : Z := 2.
Definition ItFlagInstruments : Z := 4.
Definition ItFlagLinearSlides : Z := 8.
Definition ItFlagOldEffects : Z := 16.
Definition ItFlagLinkEFG : Z := 32.

Definition EnvFlagEnabled : Z := 1.
Definition EnvFlagLoop : Z := 2.
Definition EnvFlagSustain : Z := 4.
Definition EnvFlagFilter : Z := 128.

Definition SampFlagHeader : Z := 1.
Definition SampFlag16bit : Z := 2.
Definition SampFlagStereo : Z := 4.
Definition SampFlagCompressed : Z := 8.
Definition SampFlagLoop : Z := 16.
Definition SampFlagSustain : Z := 32.
Definition SampFlagPingPong : Z := 64.
Definition SampFlagPingPongSustain : Z := 128.

Definition SampConvSigned : Z := 1.
Definition SampConvBigEndian : Z := 2.
Definition SampConvDelta : Z := 4.

Module ItEnvelope.

Record EnvelopeNode : Type := mkEnvelopeNode {
  Y : Z;   (* int8 *)
  X : Z    (* uint16 *)
}.

Record t : Type := mk {
  Flags : Z;           (* uint8 *)
  NodeCount : Z;       (* uint8 *)
  LoopStart : Z;       (* uint8 *)
  LoopEnd : Z;
  SustainStart : Z;
  SustainEnd : Z;
  Nodes : list EnvelopeNode   (* [25]EnvelopeNode *)
}.

End ItEnvelope.

Module ItInstrument.

Record NotemapEntry : Type := mkNotemapEntry {
  Note : Z;     (* uint8 *)
  Sample : Z    (* uint8 *)
}.

Record t : Type := mk {
  FileCode : list byte;        (* [4]byte *)
  DosFilename : list byte;     (* [12]byte *)
  NewNoteAction : Z;           (* uint8 *)
  DuplicateCheckType : Z;
  DuplicateCheckAction : Z;
  Fadeout : Z;                 (* uint16 *)
  PPS : Z;                     (* uint8 *)
  PPC : Z;
  GlobalVolume : Z;
  DefaultPan : Z;
  RandomVolume : Z;
  RandomPanning : Z;
  TrackerVersion : Z;          (* uint16 *)
  NumberOfSamples : Z;
  Name : list byte;            (* [26]byte *)
  InitialFilterCutoff : Z;
  InitialFilterResonance : Z;
  MidiChannel : Z;
  MidiProgram : Z;
  MidiBank : Z;                (* uint16 *)
  Notemap : list NotemapEntry; (* [120]NotemapEntry *)
  Envelopes : list ItEnvelope.t (* [3]ItEnvelope *)
}.

End ItInstrument.

Module ItSampleHeader.

Record t : Type := mk {
  FileCode : list byte;      (* [4]byte *)
  DosFilename : list byte;   (* [12]byte *)
  GlobalVolume : Z;          (* uint8 *)
  Flags : Z;
  DefaultVolume : Z;
  Name : list byte;          (* [26]byte *)
  Convert : Z;
  DefaultPanning : Z;
  Length : Z;                (* uint32 *)
  LoopStart : Z;
  LoopEnd : Z;
  C5 : Z;
  SustainLoopStart : Z;
  SustainLoopEnd : Z;
  SamplePointer : Z;
  VibratoSpeed : Z;          (* uint8 *)
  VibratoDepth : Z;
  VibratoSweep : Z;
  VibratoWaveform : Z
}.

End ItSampleHeader.

Module ItSample.

Record t : Type := mk {
  Header : ItSampleHeader.t;
  Channels : Z;            (* uint8 *)
  Bits : Z;                (* uint8 *)
  Data : list (list Z)     (* []any: Data[channel][sample], []int8 or []int16 *)
}.

End ItSample.

Module ItModuleHeader.

Record t : Type := mk {
  FileCode : list byte;    (* [4]byte *)
  Title : list byte;       (* [26]byte *)
  PatternHighlightBeat : Z;
  PatternHighlightMeasure : Z;
  OrderCount : Z;          (* uint16 *)
  InstrumentCount : Z;
  SampleCount : Z;
  PatternCount : Z;
  Cwtv : Z;
  Cmwt : Z;
  Flags : Z;
  Special : Z;
  GlobalVolume : Z;        (* uint8 *)
  MixingVolume : Z;
  InitialSpeed : Z;
  InitialTempo : Z;
  Sep : Z;
  PWD : Z;
  MessageLength : Z;       (* uint16 *)
  MessageOffset : Z;       (* uint32 *)
  Reserved_MPT : Z;
  ChannelPan : list Z;     (* [64]uint8 *)
  ChannelVolume : list Z   (* [64]uint8 *)
}.

End ItModuleHeader.

Module ItModule.

Record t : Type := mk {
  Header : ItModuleHeader.t;
  Orders : list Z;                    (* []uint8 *)
  Instruments : list ItInstrument.t;
  Samples : list ItSample.t;
  Patterns : list ItPattern;
  Message : list byte
}.

End ItModule.

(** ** Mapping to the common model (itmod-mapping.go) *)

(* func translateEnvelope(itenv *ItEnvelope, index int) common.Envelope *)
Definition translateEnvelope (itenv : ItEnvelope.t) (index : Z) : common_Envelope.t :=
  let flags := ItEnvelope.Flags itenv in
  let type :=
    if index =? 0 then EnvelopeTypeVolume
    else if index =? 1 then EnvelopeTypePanning
    else if index =? 2 then
      if negb (Z.land flags EnvFlagFilter =? 0) then EnvelopeTypeFilter
      else EnvelopeTypePitch
    else 0 in
  (* for i := 0; i < 25; i++ { if i >= int(itenv.NodeCount) { break }; append } *)
  let count := Nat.min 25 (Z.to_nat (ItEnvelope.NodeCount itenv)) in
  let nodes :=
    map (fun i =>
           let node := nth i (ItEnvelope.Nodes itenv) (ItEnvelope.mkEnvelopeNode 0 0) in
           {| common_Envelope.Y := int16 (ItEnvelope.Y node);
              common_Envelope.X := int16 (ItEnvelope.X node) |})
        (seq 0 count) in
  {| common_Envelope.Enabled := negb (Z.land flags EnvFlagEnabled =? 0);
     common_Envelope.Loop := negb (Z.land flags EnvFlagLoop =? 0);
     common_Envelope.Sustain := negb (Z.land flags EnvFlagSustain =? 0);
     common_Envelope.Type_ := type;
     common_Envelope.LoopStart := int16 (ItEnvelope.LoopStart itenv);
     common_Envelope.LoopEnd := int16 (ItEnvelope.LoopEnd itenv);
     common_Envelope.SustainStart := int16 (ItEnvelope.SustainStart itenv);
     common_Envelope.SustainEnd := int16 (ItEnvelope.SustainEnd itenv);
     common_Envelope.Nodes := nodes |}.

(* func (iti *ItInstrument) ToCommon() common.Instrument *)
Definition ItInstrument_ToCommon (iti : ItInstrument.t) : common_Instrument.t :=
  {| common_Instrument.Name := TrimRight (ItInstrument.Name iti) x00;
     common_Instrument.DosFilename := TrimRight (ItInstrument.DosFilename iti) x00;
     common_Instrument.NewNoteAction := int16 (ItInstrument.NewNoteAction iti);
     common_Instrument.DuplicateCheckType := int16 (ItInstrument.DuplicateCheckType iti);
     common_Instrument.DuplicateCheckAction :=
       int16 (ItInstrument.DuplicateCheckAction iti);
     common_Instrument.Fadeout := int16 (ItInstrument.Fadeout iti);
     common_Instrument.PitchPanSeparation := int16 (ItInstrument.PPS iti);
     common_Instrument.PitchPanCenter := int16 (ItInstrument.PPC iti);
     common_Instrument.GlobalVolume := int16 (ItInstrument.GlobalVolume iti);
     common_Instrument.DefaultPan := int16 (Z.land (ItInstrument.DefaultPan iti) 0x7F);
     common_Instrument.DefaultPanEnabled :=
       Z.land (ItInstrument.DefaultPan iti) 128 =? 0;
     common_Instrument.RandomVolumeVariation := int16 (ItInstrument.RandomVolume iti);
     common_Instrument.RandomPanVariation := int16 (ItInstrument.RandomPanning iti);
     common_Instrument.FilterCutoff := int16 (ItInstrument.InitialFilterCutoff iti);
     common_Instrument.FilterResonance :=
       int16 (ItInstrument.InitialFilterResonance iti);
     common_Instrument.MidiChannel := int16 (ItInstrument.MidiChannel iti);
     common_Instrument.MidiProgram := int16 (ItInstrument.MidiProgram iti);
     common_Instrument.MidiBank := ItInstrument.MidiBank iti;
     (* for i := 0; i < 120; i++ *)
     common_Instrument.Notemap :=
       map (fun i =>
              let entry := nth i (ItInstrument.Notemap iti)
                               (ItInstrument.mkNotemapEntry 0 0) in
              {| common_Instrument.Note := int16 (ItInstrument.Note entry);
                 common_Instrument.Sample := int16 (ItInstrument.Sample entry) |})
           (seq 0 120);
     (* for i := 0; i < 3; i++ *)
     common_Instrument.Envelopes :=
       map (fun i =>
              translateEnvelope
                (nth i (ItInstrument.Envelopes iti) (ItEnvelope.mk 0 0 0 0 0 0 []))
                (Z.of_nat i))
           (seq 0 3) |}.

(* func (its *ItSample) ToCommon() common.Sample *)
Definition ItSample_ToCommon (its : ItSample.t) : common_Sample.t :=
  let h := ItSample.Header its in
  let flags := ItSampleHeader.Flags h in
  let stereo := negb (Z.land flags SampFlagStereo =? 0) in
  let s16 := negb (Z.land flags SampFlag16bit =? 0) in
  {| common_Sample.Name := TrimRight (ItSampleHeader.Name h) x00;
     common_Sample.DosFilename := TrimRight (ItSampleHeader.DosFilename h) x00;
     common_Sample.GlobalVolume := int16 (ItSampleHeader.GlobalVolume h);
     common_Sample.DefaultVolume := int16 (ItSampleHeader.DefaultVolume h);
     common_Sample.DefaultPanning := int16 (ItSampleHeader.DefaultPanning h);
     common_Sample.S16 := s16;
     common_Sample.Stereo := stereo;
     common_Sample.Loop := negb (Z.land flags SampFlagLoop =? 0);
     common_Sample.Sustain := negb (Z.land flags SampFlagSustain =? 0);
     common_Sample.PingPong := negb (Z.land flags SampFlagPingPong =? 0);
     common_Sample.PingPongSustain :=
       negb (Z.land flags SampFlagPingPongSustain =? 0);
     common_Sample.LoopStart := int (ItSampleHeader.LoopStart h);
     common_Sample.LoopEnd := int (ItSampleHeader.LoopEnd h);
     common_Sample.SustainLoopStart := int (ItSampleHeader.SustainLoopStart h);
     common_Sample.SustainLoopEnd := int (ItSampleHeader.SustainLoopEnd h);
     common_Sample.C5 := int (ItSampleHeader.C5 h);
     common_Sample.VibratoSpeed := int16 (ItSampleHeader.VibratoSpeed h);
     common_Sample.VibratoDepth := int16 (ItSampleHeader.VibratoDepth h);
     common_Sample.VibratoSweep := int16 (ItSampleHeader.VibratoSweep h);
     common_Sample.VibratoWaveform := int16 (ItSampleHeader.VibratoWaveform h);
     common_Sample.SData :=
       {| common_Sample.Channels := int8 (iif stereo 2 1);
          common_Sample.Bits := int8 (iif s16 16 8);
          common_Sample.Data := ItSample.Data its |} |}.

(* for _, pattern := range itm.Patterns {
     p := pattern.ToCommon()
     m.Patterns = append(m.Patterns, p)
     channels = max(channels, int16(p.Channels)) } *)
Fixpoint patternsToCommon (patterns : list ItPattern) (acc : list common.Pattern)
    (channels : Z) : option (list common.Pattern * Z) :=
  match patterns with
  | [] => Some (acc, channels)
  | pattern :: rest =>
      match ToCommon pattern with
      | None => None
      | Some p =>
          patternsToCommon rest (acc ++ [p])
                           (Z.max channels (int16 (common.Channels p)))
      end
  end.

(* func (itm *ItModule) ToCommon() *common.Module
   [None] only when unpacking a pattern runs out of fuel.  The slice
   expression m.ChannelSettings[:channels] is [take]; it is in range (and
   does not panic) when 0 <= channels <= 64, see [ItModule_ToCommon_channels]. *)
Definition ItModule_ToCommon (itm : ItModule.t) : option common_Module.t :=
  let h := ItModule.Header itm in
  let flags := ItModuleHeader.Flags h in
  (* m.ChannelSettings = make([]common.ChannelSetting, 64), then the two
     loops over i < 64 *)
  let settings :=
    map (fun i =>
           {| common_Module.Name := [];
              common_Module.InitialVolume :=
                int16 (nth i (ItModuleHeader.ChannelVolume h) 0);
              common_Module.InitialPan :=
                int16 (nth i (ItModuleHeader.ChannelPan h) 0);
              common_Module.Mute := false;
              common_Module.Surround := false |})
        (seq 0 64) in
  match patternsToCommon (ItModule.Patterns itm) [] (int16 0) with
  | None => None
  | Some (patterns, channels) =>
      Some
        {| common_Module.Source := ItSource;
           common_Module.Title := TrimRight (ItModuleHeader.Title h) x00;
           common_Module.GlobalVolume := int16 (ItModuleHeader.GlobalVolume h);
           common_Module.MixingVolume := int16 (ItModuleHeader.MixingVolume h);
           common_Module.InitialSpeed := int16 (ItModuleHeader.InitialSpeed h);
           common_Module.InitialTempo := int16 (ItModuleHeader.InitialTempo h);
           common_Module.PanSeparation := int16 (ItModuleHeader.Sep h);
           common_Module.PitchWheelDepth := int16 (ItModuleHeader.PWD h);
           common_Module.StereoMixing := negb (Z.land flags ItFlagStereo =? 0);
           common_Module.UseInstruments := negb (Z.land flags ItFlagInstruments =? 0);
           common_Module.LinearSlides := negb (Z.land flags ItFlagLinearSlides =? 0);
           common_Module.OldEffects := negb (Z.land flags ItFlagOldEffects =? 0);
           common_Module.LinkEFG := negb (Z.land flags ItFlagLinkEFG =? 0);
           common_Module.Channels := channels;
           common_Module.Message := TrimRight (ItModule.Message itm) x00;
           common_Module.PatternHighlight_Beat :=
             int16 (ItModuleHeader.PatternHighlightBeat h);
           common_Module.PatternHighlight_Measure :=
             int16 (ItModuleHeader.PatternHighlightMeasure h);
           common_Module.ChannelSettings := take (Z.to_nat channels) settings;
           common_Module.Order := map int16 (ItModule.Orders itm);
           common_Module.Instruments :=
             map ItInstrument_ToCommon (ItModule.Instruments itm);
           common_Module.Samples := map ItSample_ToCommon (ItModule.Samples itm);
           common_Module.Patterns := patterns |}
  end.

(** ** Reading samples and patterns (itmod.go) *)

(* Errors of the loaders: the errors above, and ErrUnsupportedSource. *)
Inductive itError : Set :=
| ErrUnsupportedSource
| Plain (e : error).

(* Two bytes as a little-endian uint16. *)
Definition le16 (b0 b1 : byte) : Z :=
  Z.lor (byteZ b0) (Z.shiftl (byteZ b1) 8).

(* binary.Read into a []int16: the bytes taken two by two. *)
Fixpoint int16s (bytes : list byte) : list Z :=
  match bytes with
  | b0 :: b1 :: t => int16 (le16 b0 b1) :: int16s t
  | _ => []
  end.

(* func readPcm[T int8 | int16](r io.ReadSeeker, length int, offset int) ([]T, error)
   [bits16] tells which of the two instances it is; the reader after the
   call is returned with the data. *)
Definition readPcm (bits16 : bool) (r : list byte) (length : Z) (offset : Z)
    : result (list Z * list byte) :=
  let T := if bits16 then int16 else int8 in
  let size := if bits16 then 2%nat else 1%nat in
  match readBytes (Z.to_nat length * size) r with
  | Err e => Err e
  | Ok (bytes, r') =>
      let data := if bits16 then int16s bytes
                  else map (fun b => int8 (byteZ b)) bytes in
      let data := if negb (offset =? 0)
                  then map (fun x => T (x + T offset)) data
                  else data in
      Ok (data, r')
  end.

(* The loop of Decode, keeping the reader: what [DecodeLoop] computes,
   together with the reader as the last chunk leaves it. *)
Fixpoint DecodeLoopReader (fuel : nat) (c : ItSampleCodec) (r : list byte)
    (totalData : list Z) (remainingLength : Z)
    : option (result (list Z * list byte)) :=
  if remainingLength >? 0 then
    match fuel with
    | O => None
    | S fuel' =>
        match decodeChunk c r remainingLength with
        | None => None
        | Some (Err e) => Some (Err e)
        | Some (Ok (chunk, r')) =>
            DecodeLoopReader fuel' c r' (totalData ++ chunk)
                             (remainingLength - Z.of_nat (length chunk))
        end
    end
  else Some (Ok (totalData, r)).

(* Decode as its caller sees it: the data, and the reader moved on. *)
Definition DecodeReader (c : ItSampleCodec) (r : list byte) (sampleLength : Z)
    : option (result (list Z * list byte)) :=
  DecodeLoopReader (S (length r)) c r [] sampleLength.

(* for ch := 0; ch < int(its.Channels); ch++ { ... its.Data = append(its.Data, ..) } *)
Fixpoint readChannels (count : nat) (compressed bits16 it215 : bool)
    (length offset : Z) (r : list byte) (data : list (list Z))
    : option (result (list (list Z))) :=
  match count with
  | O => Some (Ok data)
  | S count' =>
      if negb compressed then
        match readPcm bits16 r length offset with
        | Err e => Some (Err e)
        | Ok (d, r') =>
            readChannels count' compressed bits16 it215 length offset r' (data ++ [d])
        end
      else
        match DecodeReader {| It215 := it215; Is16 := bits16 |} r length with
        | None => None
        | Some (Err e) => Some (Err e)
        | Some (Ok (decoded, r')) =>
            let d := if bits16 then decoded
                     else map int8 decoded (* data8[i] = int8(decoded[i]) *) in
            readChannels count' compressed bits16 it215 length offset r' (data ++ [d])
        end
  end.

Fixpoint bytesEqb (a b : list byte) : bool :=
  match a, b with
  | [], [] => true
  | x :: a', y :: b' => Byte.eqb x y && bytesEqb a' b'
  | _, _ => false
  end.

(* func (reader *ItReader) ReadItSample(r io.ReadSeeker, it215 bool) (ItSample, error)
   Modelled from the point where the header has been read: a function of
   the header, of reader.Strict and of the bytes of the file, in which
   r.Seek(SamplePointer, io.SeekStart) moves to.  [None] only when Decode
   runs out of fuel. *)
Definition ReadItSample (strict : bool) (file : list byte)
    (header : ItSampleHeader.t) (it215 : bool)
    : option (ItSample.t + itError) :=
  if negb (bytesEqb (ItSampleHeader.FileCode header) [x49; x4d; x50; x53]) && strict
  then Some (inr (Plain ErrInvalidSource))
  else
    let r := drop (Z.to_nat (ItSampleHeader.SamplePointer header)) file in
    if negb (Z.land (ItSampleHeader.Convert header) SampConvDelta =? 0)
    then Some (inr ErrUnsupportedSource)
    else
      let flags := ItSampleHeader.Flags header in
      let compressed := negb (Z.land flags SampFlagCompressed =? 0) in
      let signed := negb (Z.land (ItSampleHeader.Convert header) SampConvSigned =? 0) in
      let bits16 := negb (Z.land flags SampFlag16bit =? 0) in
      let stereo := negb (Z.land flags SampFlagStereo =? 0) in
      let length := int (ItSampleHeader.Length header) in
      let channels := if stereo then 2 else 1 in
      let bits := if bits16 then 16 else 8 in
      (* For unsigned samples, use an offset. *)
      let offset := if negb signed then (if bits16 then -32768 else -128) else 0 in
      match readChannels (Z.to_nat channels) compressed bits16 it215 length offset r []
      with
      | None => None
      | Some (Err e) => Some (inr (Plain e))
      | Some (Ok data) =>
          Some (inl {| ItSample.Header := header;
                       ItSample.Channels := channels;
                       ItSample.Bits := bits;
                       ItSample.Data := data |})
      end.

(* func (reader *ItReader) readItPattern(r io.ReadSeeker) (ItPattern, error)
   binary.Read of the header is io.ReadFull of its 8 bytes: DataLength,
   Rows, and four reserved bytes that are skipped. *)
Definition readItPattern (r : list byte) : result ItPattern :=
  match r with
  | [] => Err EOF
  | d0 :: d1 :: r0 :: r1 :: _ :: _ :: _ :: _ :: rest =>
      let header := {| DataLength := le16 d0 d1; Rows := le16 r0 r1 |} in
      match readBytes (Z.to_nat (DataLength header)) rest with
      | Err e => Err e
      | Ok (data, _) => Ok {| Header := header; Data := data |}
      end
  | _ => Err ErrUnexpectedEOF
  end.

(** ** Notions used to state the properties *)

(** *** Bit reader *)

(* The bits a stream can still deliver: those in the buffer and those of the
   source bytes not yet loaded. *)
Definition bitsAvailable (bs : bitstream) : Z :=
  buffered bs + 8 * Z.of_nat (length (source bs) - readPos bs).

(* The number whose bit i is bit (i mod 8) of byte (i / 8): the bytes
   concatenated in order, each contributing its bits from bit 0 up. *)
Fixpoint le_value (l : list byte) : Z :=
  match l with
  | [] => 0
  | b :: t => byteZ b + 2 ^ 8 * le_value t
  end.

(* The bits not yet returned, as a number: the buffer, then the unread bytes. *)
Definition streamValue (bs : bitstream) : Z :=
  buffer bs + 2 ^ buffered bs * le_value (drop (readPos bs) (source bs)).

(* What two streams must share to be indistinguishable by read. *)
Definition view (bs : bitstream) : Z * Z := (streamValue bs, bitsAvailable bs).

(* The state between two calls of read. *)
Definition wf (bs : bitstream) : Prop :=
  0 <= buffered bs <= 30 /\
  0 <= buffer bs < 2 ^ buffered bs /\
  (readPos bs <= length (source bs))%nat.

(* Results of consecutive reads put back together, first read lowest. *)
Fixpoint recombine (widths values : list Z) : Z :=
  match widths, values with
  | w :: ws, v :: vs => Z.lor v (Z.shiftl (recombine ws vs) w)
  | _, _ => 0
  end.

Definition sumZ (l : list Z) : Z := fold_right Z.add 0 l.

Definition validWidth (w : Z) : Prop := 0 <= w < 32.

(* The invariant of a stream created over [src] and used through read. *)
Definition tracks (src : list byte) (bs : bitstream) : Prop :=
  wf bs /\ source bs = src /\
  0 <= bitsAvailable bs <= 8 * Z.of_nat (length src) /\
  streamValue bs
  = le_value src / 2 ^ (8 * Z.of_nat (length src) - bitsAvailable bs).

(** *** Sample codec *)

(* The byte with value [z mod 256]. *)
Definition byteOf (z : Z) : byte :=
  match Byte.of_N (Z.to_N (z mod 2 ^ 8)) with
  | Some b => b
  | None => x00
  end.

(* A chunk as it lies in the file: a 2-byte little-endian length, then that
   many bytes of bit-packed payload. *)
Definition frame (payload : list byte) : list byte :=
  byteOf (Z.of_nat (length payload))
  :: byteOf (Z.of_nat (length payload) / 2 ^ 8)
  :: payload.

(* 32768 samples per block for 8-bit data, 16384 for 16-bit data. *)
Definition maxBlockLength (c : ItSampleCodec) : Z :=
  if Is16 c then 32 * 1024 / 2 else 32 * 1024.

(* Truncation to the sample's native width, as the specification words it:
   16 bits for 16-bit samples, 8 bits for 8-bit samples. *)
Definition nativeTruncate (c : ItSampleCodec) (x : Z) : Z :=
  if Is16 c then int16 x else int8 x.

(* The accumulator that write emits. *)
Definition emittedAccumulator (c : ItSampleCodec) (st : chunkState) : Z :=
  if It215 c then mem2 st else mem1 st.

(* Parameters the decoding loop can work with: the widths it asks of the bit
   reader are widths the reader accepts. *)
Definition usableParams (props : ItSampleCodecParams) : Prop :=
  0 <= fetchA props < 32 /\ defWidth props < 32.

(* The values an int16 can hold. *)
Definition isInt16 (x : Z) : Prop := - 2 ^ 15 <= x < 2 ^ 15.

(* What the block loop started in state [st] may end with: an error, or the
   samples decoded so far followed by as many as were still asked for. *)
Definition blockResult (st : chunkState) (res : result (list Z)) : Prop :=
  match res with
  | Err _ => True
  | Ok d =>
      Z.of_nat (length d) = Z.of_nat (length (decoded st)) + Z.max 0 (curLength st) /\
      Forall isInt16 d
  end.

(* Prefixing a successful result. *)
Definition prepend (chunk : list Z) (rest : option (result (list Z)))
    : option (result (list Z)) :=
  match rest with
  | Some (Ok more) => Some (Ok (chunk ++ more))
  | other => other
  end.

(** *** Pattern unpacking *)

Definition inRange (lo hi v : Z) : bool := (lo <=? v) && (v <=? hi).

(* The volume column table as the specification gives it, range by range;
   the offset of the seventh range is taken in uint8 arithmetic. *)
Definition volumeTable (v : Z) : Z * Z :=
  if inRange 0 64 v then (1, v)
  else if inRange 65 74 v then (2, v - 65)
  else if inRange 75 84 v then (3, v - 75)
  else if inRange 85 94 v then (4, v - 85)
  else if inRange 95 104 v then (5, v - 95)
  else if inRange 105 114 v then (6, v - 105)
  else if inRange 115 124 v then (7, (v - 125) mod 256)
  else if inRange 125 127 v then (0, 0)
  else if inRange 128 128 v then (8, 0)
  else if inRange 129 202 v then (9, v - 129)
  else if inRange 203 212 v then (10, v - 203)
  else if inRange 213 255 v then (0, 0)
  else (0, 0).

(* All entries of a pattern, row after row. *)
Definition allEntries (p : common.Pattern) : list common.PatternEntry :=
  concat (map common.Entries (common.Rows p)).

(* One more than the largest channel of the entries, 0 when there is none. *)
Definition channelCount (es : list common.PatternEntry) : Z :=
  fold_right (fun e m => Z.max (common.Channel e + 1) m) 0 es.

(* Entries carry a channel index of the 64 channels. *)
Definition channelOk (e : common.PatternEntry) : Prop :=
  0 <= common.Channel e <= 63.

(* The mask in force for the entry that [channelSelect] opens, [u] being the
   state once the channel-select byte is taken. *)
Definition entryMask (data : list byte) (channelSelect : byte) (u : unpacker) : Z :=
  let channel := channelOf channelSelect in
  maskOf channel (readMask data channelSelect channel (trackChannel channel u)).

(* The state of an entry when its volume field is reached: the mask, note
   and instrument steps are done. *)
Definition beforeVolume (data : list byte) (channelSelect : byte) (u : unpacker)
    : unpacker :=
  let channel := channelOf channelSelect in
  let u := readMask data channelSelect channel (trackChannel channel u) in
  let mask := maskOf channel u in
  readIns data mask channel (readNote data mask channel u).

(* One trip through the inner loop of ToCommon: the state after it (for the
   row terminator, the state after that byte). *)
Definition tripState (data : list byte) (u : unpacker) : unpacker :=
  let (channelSelect, u) := nextByte data u in
  if byteZ channelSelect =? 0 then u
  else fst (unpackEntry data channelSelect u).

(* Whether the trip starting at [u] takes a volume byte for channel [ch]. *)
Definition takesVolume (data : list byte) (ch : Z) (u : unpacker) : bool :=
  let (channelSelect, u) := nextByte data u in
  negb (byteZ channelSelect =? 0)
  && (channelOf channelSelect =? ch)
  && negb (Z.land (entryMask data channelSelect u) PmaskVol =? 0).

(* [n] trips, none of which takes a volume byte for channel [ch]. *)
Fixpoint quietTrips (n : nat) (data : list byte) (ch : Z) (u : unpacker)
    : option unpacker :=
  match n with
  | O => Some u
  | S k =>
      if takesVolume data ch u then None
      else quietTrips k data ch (tripState data u)
  end.

(* Where the cursor stands after [k] calls of nextByte from position [p]. *)
Definition advance (len k p : nat) : nat := Nat.min (p + k) (Nat.max p len).

(* The bytes an entry asks of the stream apart from a volume byte. *)
Definition bytesBesidesVolume (channelSelect : byte) (mask : Z) : nat :=
  ((if Z.eqb (Z.land (byteZ channelSelect) 0x80%Z) 0%Z then 0 else 1)
   + (if Z.eqb (Z.land mask PmaskNote) 0%Z then 0 else 1)
   + (if Z.eqb (Z.land mask PmaskIns) 0%Z then 0 else 1)
   + (if Z.eqb (Z.land mask PmaskEffect) 0%Z then 0 else 2))%nat.

(* Two unpacker states that hold the same arrays and channel count and whose
   cursors are the same position of the first [len] bytes, or both past it. *)
Definition agree (len : nat) (u u' : unpacker) : Prop :=
  lastMask u = lastMask u' /\ lastNote u = lastNote u' /\
  lastIns u = lastIns u' /\ lastVol u = lastVol u' /\
  lastEffect u = lastEffect u' /\ lastEffectParam u = lastEffectParam u' /\
  channels u = channels u' /\
  Nat.min (dataRead u) len = Nat.min (dataRead u') len.

(** *** Notions for the further properties *)

(* Running sums in int16 arithmetic: [acc] is the sum so far. *)
Fixpoint runningSums (acc : Z) (l : list Z) : list Z :=
  match l with
  | [] => []
  | x :: t => int16 (acc + x) :: runningSums (int16 (acc + x)) t
  end.

(* The errors the sample decoder can give: the two of io.ReadFull when a
   chunk cannot be read, and the two of the block loop. *)
Definition decodeError (e : error) : Prop :=
  e = EOF \/ e = ErrUnexpectedEOF \/ e = ErrEndOfStream \/ e = ErrDecodingError.

(* The sum, in int16 arithmetic, that [runningSums] ends with. *)
Definition sum16 (acc : Z) (l : list Z) : Z :=
  fold_left (fun a x => int16 (a + x)) l acc.

(* Two states of the block loop, one of a first-order decode and one of an
   IT 2.15 decode, at the same point of the same chunk. *)
Definition sameBlock (st1 st2 : chunkState) : Prop :=
  dataSource st2 = dataSource st1 /\ width st2 = width st1 /\
  mem1 st2 = mem1 st1 /\ mem2 st2 = mem2 st1 /\
  curLength st2 = curLength st1 /\
  decoded st2 = runningSums 0 (decoded st1) /\
  int16 (mem2 st1) = sum16 0 (decoded st1).

(* The result of a first-order block turned into that of an IT 2.15 block. *)
Definition integrate (res : option (result (list Z))) : option (result (list Z)) :=
  match res with
  | Some (Ok d) => Some (Ok (runningSums 0 d))
  | other => other
  end.

(* The values the fields of an emitted entry can take. *)
Definition entryOk (e : common.PatternEntry) : Prop :=
  0 <= common.Channel e <= 63 /\
  (1 <= common.Note e <= 121 \/ 253 <= common.Note e <= 255 \/ common.Note e = 0) /\
  0 <= common.Instrument e <= 255 /\
  0 <= common.VolumeCommand e <= 10 /\
  0 <= common.VolumeParam e <= 255 /\
  0 <= common.Effect e <= 255 /\
  0 <= common.EffectParam e <= 255.

(* An entry as the loop body makes them. *)
Definition emitted (data : list byte) (e : common.PatternEntry) : Prop :=
  exists cs u, e = snd (unpackEntry data cs u).

(* Two unpacker states with the same arrays and channel count whose cursors
   stand in the relation [R]. *)
Definition related (R : nat -> nat -> Prop) (u u' : unpacker) : Prop :=
  lastMask u = lastMask u' /\ lastNote u = lastNote u' /\
  lastIns u = lastIns u' /\ lastVol u = lastVol u' /\
  lastEffect u = lastEffect u' /\ lastEffectParam u = lastEffectParam u' /\
  channels u = channels u' /\
  R (dataRead u) (dataRead u').

(* An envelope node of the file as a node of the common model. *)
Definition commonNode (node : ItEnvelope.EnvelopeNode) : common_Envelope.EnvelopeNode :=
  {| common_Envelope.X := int16 (ItEnvelope.X node);
     common_Envelope.Y := int16 (ItEnvelope.Y node) |}.

(* Two bytes at a time as little-endian uint16 values. *)
Fixpoint uint16s (bytes : list byte) : list Z :=
  match bytes with
  | b0 :: b1 :: t => le16 b0 b1 :: uint16s t
  | _ => []
  end.

(* The values a sample of the given bit depth can hold. *)
Definition sampleInRange (bits : Z) (x : Z) : Prop :=
  - 2 ^ (bits - 1) <= x < 2 ^ (bits - 1).

(* Forgetting the reader in a result of [DecodeReader]. *)
Definition dataOnly (res : option (result (list Z * list byte)))
    : option (result (list Z)) :=
  match res with
  | Some (Ok (d, _)) => Some (Ok d)
  | Some (Err e) => Some (Err e)
  | None => None
  end.

(* The bytes that a channel of [len] samples takes in the file. *)
Definition pcmBytes (bits16 : bool) (len : Z) : nat :=
  (Z.to_nat len * (if bits16 then 2 else 1))%nat.

(* The samples of a channel as the unsigned numbers the file stores. *)
Definition unsignedPcm (bits16 : bool) (bytes : list byte) : list Z :=
  if bits16 then uint16s bytes else map byteZ bytes.

(* Half the range of a sample. *)
Definition bias (bits16 : bool) : Z := if bits16 then 32768 else 128.

(* What a stored number stands for: two's complement when the data is
   signed, offset binary when it is not. *)
Definition pcmValue (bits16 signed : bool) (u : Z) : Z :=
  if signed then (if u <? bias bits16 then u else u - 2 * bias bits16)
  else u - bias bits16.

(* The offset ReadItSample passes to readPcm. *)
Definition pcmOffset (bits16 signed : bool) : Z :=
  if signed then 0 else - bias bits16.

(* A channel as ReadItSample leaves it: [len] samples of [bits] bits. *)
Definition sampleChannel (bits len : Z) (ch : list Z) : Prop :=
  Z.of_nat (length ch) = len /\ Forall (sampleInRange bits) ch.

(* The errors ReadItSample can give. *)
Definition sampleError (e : itError) : Prop :=
  e = ErrUnsupportedSource \/ e = Plain ErrInvalidSource \/
  exists e', e = Plain e' /\ decodeError e'.

(* A sample header with another Convert byte. *)
Definition withConvert (c : Z) (h : ItSampleHeader.t) : ItSampleHeader.t :=
  {| ItSampleHeader.FileCode := ItSampleHeader.FileCode h;
     ItSampleHeader.DosFilename := ItSampleHeader.DosFilename h;
     ItSampleHeader.GlobalVolume := ItSampleHeader.GlobalVolume h;
     ItSampleHeader.Flags := ItSampleHeader.Flags h;
     ItSampleHeader.DefaultVolume := ItSampleHeader.DefaultVolume h;
     ItSampleHeader.Name := ItSampleHeader.Name h;
     ItSampleHeader.Convert := c;
     ItSampleHeader.DefaultPanning := ItSampleHeader.DefaultPanning h;
     ItSampleHeader.Length := ItSampleHeader.Length h;
     ItSampleHeader.LoopStart := ItSampleHeader.LoopStart h;
     ItSampleHeader.LoopEnd := ItSampleHeader.LoopEnd h;
     ItSampleHeader.C5 := ItSampleHeader.C5 h;
     ItSampleHeader.SustainLoopStart := ItSampleHeader.SustainLoopStart h;
     ItSampleHeader.SustainLoopEnd := ItSampleHeader.SustainLoopEnd h;
     ItSampleHeader.SamplePointer := ItSampleHeader.SamplePointer h;
     ItSampleHeader.VibratoSpeed := ItSampleHeader.VibratoSpeed h;
     ItSampleHeader.VibratoDepth := ItSampleHeader.VibratoDepth h;
     ItSampleHeader.VibratoSweep := ItSampleHeader.VibratoSweep h;
     ItSampleHeader.VibratoWaveform := ItSampleHeader.VibratoWaveform h |}.

(* The data of a sample that was read, or the error. *)
Definition dataOf (res : option (ItSample.t + itError))
    : option (list (list Z) + itError) :=
  match res with
  | Some (inl its) => Some (inl (ItSample.Data its))
  | Some (inr e) => Some (inr e)
  | None => None
  end.

(* The file code of a sample header. *)
Definition IMPS : list byte := [x49; x4d; x50; x53].

(* The raw volume byte that a command and its parameter come from. *)
Definition volumeByte (cmd param : Z) : Z :=
  match cmd with
  | 1 => param
  | 2 => param + 65
  | 3 => param + 75
  | 4 => param + 85
  | 5 => param + 95
  | 6 => param + 105
  | 7 => param - 131
  | 8 => 128
  | 9 => param + 129
  | 10 => param + 203
  | _ => 0
  end.

(* Two unpacker states with the same cursor and arrays; the channel counts,
   which loadPattern does not keep, may differ. *)
Definition sameCursor (u v : unpacker) : Prop :=
  dataRead u = dataRead v /\ lastMask u = lastMask v /\ lastNote u = lastNote v /\
  lastIns u = lastIns v /\ lastVol u = lastVol v /\
  lastEffect u = lastEffect v /\ lastEffectParam u = lastEffectParam v.

(* The shape of the conditional reads of ItPattern.ToCommon:
   if cond { last[channel] = nextByte() } for the array that [get] and [set]
   stand for. *)
Definition readInto (get : unpacker -> list byte)
    (set : list byte -> unpacker -> unpacker)
    (data : list byte) (cond : bool) (channel : Z) (u : unpacker) : unpacker :=
  if cond then
    let (b, u) := nextByte data u in
    set (<[Z.to_nat channel := b]> (get u)) u
  else u.

(** * Properties *)

(** ** Bytes and little-endian values *)

Lemma byteZ_range (b : byte) : 0 <= byteZ b < 2 ^ 8.
Proof.
  unfold byteZ. pose proof (Byte.to_N_bounded b) as Hb.
  change (2 ^ 8) with 256. lia.
Qed.

Lemma pow2_pos (n : Z) : 0 <= n -> 0 < 2 ^ n.
Proof. intros. apply Z.pow_pos_nonneg; lia. Qed.

Lemma pow2_split (a b : Z) : 0 <= a <= b -> 2 ^ b = 2 ^ a * 2 ^ (b - a).
Proof. intros. rewrite <- Z.pow_add_r by lia. f_equal. lia. Qed.

Lemma le_value_range (l : list byte) :
  0 <= le_value l < 2 ^ (8 * Z.of_nat (length l)).
Proof.
  induction l as [|b t IH].
  - simpl. lia.
  - cbn [le_value length].
    replace (8 * Z.of_nat (S (length t))) with (8 + 8 * Z.of_nat (length t)) by lia.
    rewrite Z.pow_add_r by lia.
    pose proof (byteZ_range b). nia.
Qed.

Lemma testbit_above (a n : Z) : 0 <= a < 2 ^ n -> 0 <= n -> Z.testbit a n = false.
Proof.
  intros Ha Hn. apply Z.testbit_false; [assumption|].
  rewrite Z.div_small by assumption. reflexivity.
Qed.

Lemma testbit_above_le (a n i : Z) :
  0 <= a < 2 ^ n -> 0 <= n <= i -> Z.testbit a i = false.
Proof.
  intros Ha Hi. apply testbit_above; [|lia].
  split; [lia|]. apply Z.lt_le_trans with (2 ^ n); [lia|].
  apply Z.pow_le_mono_r; lia.
Qed.

Lemma lor_shiftl_add (a b n : Z) :
  0 <= a < 2 ^ n -> 0 <= n -> Z.lor a (Z.shiftl b n) = a + b * 2 ^ n.
Proof.
  intros Ha Hn.
  rewrite <- Z.shiftl_mul_pow2 by assumption.
  assert (Hland : Z.land a (Z.shiftl b n) = 0).
  { apply Z.bits_inj'. intros i Hi.
    rewrite Z.land_spec, Z.bits_0.
    destruct (Z.lt_ge_cases i n) as [Hlt|Hge].
    - rewrite (Z.shiftl_spec_low b n i Hlt). apply andb_false_r.
    - rewrite (testbit_above_le a n i) by lia. reflexivity. }
  rewrite <- Z.lxor_lor by assumption.
  symmetry. apply Z.add_nocarry_lxor. assumption.
Qed.

Lemma le_value_testbit (l : list byte) (i : Z) :
  0 <= i ->
  Z.testbit (le_value l) i
  = Z.testbit (byteZ (nth (Z.to_nat (i / 8)) l x00)) (i mod 8).
Proof.
  revert i. induction l as [|b t IH]; intros i Hi.
  - simpl. destruct (Z.to_nat (i / 8)); rewrite !Z.bits_0; reflexivity.
  - cbn [le_value].
    rewrite Z.mul_comm, <- lor_shiftl_add by (pose proof (byteZ_range b); lia).
    rewrite Z.lor_spec.
    destruct (Z.lt_ge_cases i 8) as [Hlt|Hge].
    + rewrite Z.shiftl_spec_low by assumption.
      rewrite orb_false_r.
      rewrite Z.div_small, Z.mod_small by lia. reflexivity.
    + rewrite (testbit_above_le (byteZ b) 8 i) by (pose proof (byteZ_range b); lia).
      rewrite Z.shiftl_spec by lia. cbn [orb].
      rewrite IH by lia.
      replace i with ((i - 8) + 1 * 8) at 3 4 by lia.
      rewrite Z.div_add, Z.mod_add by lia.
      replace (Z.to_nat ((i - 8) / 8 + 1)) with (S (Z.to_nat ((i - 8) / 8))).
      * reflexivity.
      * assert (0 <= (i - 8) / 8) by (apply Z.div_pos; lia). lia.
Qed.

(** ** The bit reader *)

Lemma wf_create (src : list byte) : wf (createBitstream src).
Proof. unfold wf, createBitstream; simpl. lia. Qed.

Lemma load_spec (bs : bitstream) :
  (readPos bs < length (source bs))%nat ->
  0 <= buffered bs <= 56 ->
  0 <= buffer bs < 2 ^ buffered bs ->
  source (load bs) = source bs /\
  readPos (load bs) = S (readPos bs) /\
  buffered (load bs) = buffered bs + 8 /\
  0 <= buffer (load bs) < 2 ^ (buffered bs + 8) /\
  streamValue (load bs) = streamValue bs /\
  bitsAvailable (load bs) = bitsAvailable bs.
Proof.
  intros Hpos Hb Hbuf.
  destruct (lookup_lt_is_Some_2 (source bs) (readPos bs) Hpos) as [byt Hbyt].
  assert (Hnth : nth (readPos bs) (source bs) x00 = byt)
    by (apply nth_lookup_Some; assumption).
  pose proof (byteZ_range byt) as Hbyte.
  pose proof (pow2_pos (buffered bs) ltac:(lia)) as Hp.
  assert (Hsh : uint64 (Z.shiftl (byteZ byt) (buffered bs))
                = byteZ byt * 2 ^ buffered bs).
  { unfold uint64. rewrite Z.shiftl_mul_pow2 by lia.
    apply Z.mod_small. split; [nia|].
    apply Z.lt_le_trans with (2 ^ 8 * 2 ^ buffered bs); [nia|].
    rewrite <- Z.pow_add_r by lia. apply Z.pow_le_mono_r; lia. }
  assert (Hbuf' : buffer (load bs) = buffer bs + byteZ byt * 2 ^ buffered bs).
  { unfold load; cbn [buffer]. rewrite Hnth, Hsh.
    rewrite <- lor_shiftl_add by lia.
    rewrite (Z.shiftl_mul_pow2 (byteZ byt)) by lia. reflexivity. }
  repeat split; try reflexivity.
  - rewrite Hbuf'. nia.
  - rewrite Hbuf'. rewrite Z.pow_add_r by lia. nia.
  - unfold streamValue. rewrite Hbuf'. unfold load; cbn [buffered readPos source].
    rewrite (drop_S (source bs) byt (readPos bs) Hbyt). cbn [le_value].
    rewrite Z.pow_add_r by lia. ring.
  - unfold bitsAvailable, load; cbn [buffered readPos source]. lia.
Qed.

(* What the refill loop does to a stream, whatever the outcome. *)
Lemma fill_spec (n : nat) (bs : bitstream) (w : Z) :
  n = (length (source bs) - readPos bs)%nat ->
  (readPos bs <= length (source bs))%nat ->
  0 <= buffered bs <= 38 ->
  0 <= buffer bs < 2 ^ buffered bs ->
  w <= 31 ->
  let bs1 := fst (fill n bs w) in
  let filled := snd (fill n bs w) in
  source bs1 = source bs /\
  (readPos bs1 <= length (source bs1))%nat /\
  0 <= buffer bs1 < 2 ^ buffered bs1 /\
  streamValue bs1 = streamValue bs /\
  bitsAvailable bs1 = bitsAvailable bs /\
  (buffered bs1 = buffered bs \/ buffered bs <= buffered bs1 < w + 8) /\
  (filled = true -> w <= buffered bs1) /\
  (filled = false -> buffered bs1 < w /\ bitsAvailable bs1 = buffered bs1).
Proof.
  revert bs. induction n as [|k IH]; intros bs Hn Hpos Hb Hbuf Hw; cbn [fill].
  - destruct (buffered bs <? w) eqn:Hlt; cbn [fst snd].
    + apply Z.ltb_lt in Hlt. repeat split; try lia; try discriminate.
      unfold bitsAvailable. lia.
    + apply Z.ltb_ge in Hlt. repeat split; try lia; try discriminate.
  - destruct (buffered bs <? w) eqn:Hlt; cbn [fst snd].
    + apply Z.ltb_lt in Hlt.
      destruct (load_spec bs) as (Hs & Hr & Hbd & Hbf & Hv & Ha); try lia.
      assert (Hn' : k = (length (source (load bs)) - readPos (load bs))%nat)
        by (rewrite Hs, Hr; lia).
      assert (Hpos' : (readPos (load bs) <= length (source (load bs)))%nat)
        by (rewrite Hs, Hr; lia).
      assert (Hb' : 0 <= buffered (load bs) <= 38) by (rewrite Hbd; lia).
      assert (Hbuf' : 0 <= buffer (load bs) < 2 ^ buffered (load bs))
        by (rewrite Hbd; exact Hbf).
      destruct (IH (load bs) Hn' Hpos' Hb' Hbuf' Hw)
        as (Is & Ir & Ibf & Iv & Ia & Ibd & It & If).
      rewrite Hbd in Ibd.
      repeat split; try congruence; try tauto; try lia.
    + apply Z.ltb_ge in Hlt. repeat split; try lia; try discriminate.
Qed.

Lemma read_bad (bs : bitstream) (w : Z) :
  w < 0 \/ 32 <= w -> read bs w = (bs, Err ErrBadParam).
Proof.
  intros Hw. unfold read.
  destruct (w <? 0) eqn:H0; [reflexivity|].
  destruct (w >=? 32) eqn:H32; [reflexivity|]. lia.
Qed.

Lemma read_in_range (bs : bitstream) (w : Z) :
  0 <= w < 32 ->
  read bs w =
    let (bs1, filled) := fill (length (source bs) - readPos bs) bs w in
    if filled then
      ({| source := source bs1; readPos := readPos bs1;
          buffer := Z.shiftr (buffer bs1) w; buffered := buffered bs1 - w |},
       Ok (uint32 (Z.land (buffer bs1) (Z.shiftl 1 w - 1))))
    else (bs1, Err ErrEndOfStream).
Proof.
  intros Hw. unfold read.
  destruct (w <? 0) eqn:H0; [lia|].
  destruct (w >=? 32) eqn:H32; [lia|]. reflexivity.
Qed.

Lemma low_bits (a w : Z) :
  0 <= w < 32 -> uint32 (Z.land a (Z.shiftl 1 w - 1)) = a mod 2 ^ w.
Proof.
  intros Hw. rewrite Z.shiftl_1_l.
  replace (2 ^ w - 1) with (Z.ones w) by (rewrite Z.ones_equiv; lia).
  rewrite Z.land_ones by lia.
  unfold uint32. apply Z.mod_small.
  pose proof (Z.mod_pos_bound a (2 ^ w) (pow2_pos w ltac:(lia))).
  split; [lia|]. apply Z.lt_le_trans with (2 ^ w); [lia|].
  apply Z.pow_le_mono_r; lia.
Qed.

(* A read that finds its bits: the low bits of the stream, which moves on. *)
Lemma read_ok (bs : bitstream) (w : Z) :
  wf bs -> 0 <= w < 32 -> w <= bitsAvailable bs ->
  exists bs',
    read bs w = (bs', Ok (streamValue bs mod 2 ^ w)) /\
    wf bs' /\ source bs' = source bs /\
    streamValue bs' = streamValue bs / 2 ^ w /\
    bitsAvailable bs' = bitsAvailable bs - w.
Proof.
  intros (Hb & Hbuf & Hpos) Hw Hav.
  rewrite read_in_range by assumption.
  pose proof (fill_spec (length (source bs) - readPos bs) bs w eq_refl Hpos
                ltac:(lia) Hbuf ltac:(lia)) as Hf.
  destruct (fill (length (source bs) - readPos bs) bs w) as [bs1 filled].
  cbn [fst snd] in Hf.
  destruct Hf as (Hs & Hr & Hbf & Hv & Ha & Hbd & Ht & Hfl).
  destruct filled.
  2:{ destruct (Hfl eq_refl). lia. }
  specialize (Ht eq_refl).
  eexists. split; [|split; [|split; [|split]]].
  - rewrite low_bits by assumption. f_equal. f_equal.
    rewrite <- Hv. unfold streamValue.
    rewrite (pow2_split w (buffered bs1)) by lia.
    rewrite <- Z.mul_assoc, Z.mul_comm, Z.mod_add by (pose proof (pow2_pos w); lia).
    reflexivity.
  - unfold wf; cbn [buffered buffer readPos source].
    split; [lia|]. split; [|assumption].
    rewrite Z.shiftr_div_pow2 by lia.
    pose proof (pow2_pos w ltac:(lia)).
    split; [apply Z.div_pos; lia|].
    apply Z.div_lt_upper_bound; [lia|].
    rewrite <- pow2_split by lia. lia.
  - cbn [source]. assumption.
  - rewrite <- Hv. unfold streamValue; cbn [buffered buffer readPos source].
    rewrite Z.shiftr_div_pow2 by lia.
    rewrite (pow2_split w (buffered bs1)) by lia.
    rewrite <- Z.mul_assoc, (Z.mul_comm (2 ^ w)).
    rewrite Z.div_add by (pose proof (pow2_pos w); lia).
    reflexivity.
  - rewrite <- Ha. unfold bitsAvailable; cbn [buffered readPos source]. lia.
Qed.

(* A read that runs out of bytes: it fails, and the stream still stands for
   the same bits (the bytes it took are in the buffer). *)
Lemma read_eos (bs : bitstream) (w : Z) :
  wf bs -> 0 <= w < 32 -> bitsAvailable bs < w ->
  exists bs',
    read bs w = (bs', Err ErrEndOfStream) /\
    wf bs' /\ source bs' = source bs /\ view bs' = view bs.
Proof.
  intros (Hb & Hbuf & Hpos) Hw Hav.
  rewrite read_in_range by assumption.
  pose proof (fill_spec (length (source bs) - readPos bs) bs w eq_refl Hpos
                ltac:(lia) Hbuf ltac:(lia)) as Hf.
  destruct (fill (length (source bs) - readPos bs) bs w) as [bs1 filled].
  cbn [fst snd] in Hf.
  destruct Hf as (Hs & Hr & Hbf & Hv & Ha & Hbd & Ht & Hfl).
  destruct filled.
  { specialize (Ht eq_refl).
    assert (buffered bs1 <= bitsAvailable bs1) by (unfold bitsAvailable; lia).
    lia. }
  destruct (Hfl eq_refl) as [Hlt Heq].
  exists bs1. split; [reflexivity|]. split; [|split].
  - unfold wf. split; [lia|]. split; assumption.
  - assumption.
  - unfold view. congruence.
Qed.

(* Every call keeps the state well formed. *)
Lemma read_wf (bs : bitstream) (w : Z) : wf bs -> wf (fst (read bs w)).
Proof.
  intros Hwf.
  destruct (Z.lt_ge_cases w 0) as [Hneg|Hnn].
  { rewrite read_bad by lia. exact Hwf. }
  destruct (Z.lt_ge_cases w 32) as [H32|H32].
  2:{ rewrite read_bad by lia. exact Hwf. }
  destruct (Z.le_gt_cases w (bitsAvailable bs)) as [Hav|Hav].
  - destruct (read_ok bs w Hwf ltac:(lia) Hav) as (bs' & -> & Hwf' & _). exact Hwf'.
  - destruct (read_eos bs w Hwf ltac:(lia) ltac:(lia)) as (bs' & -> & Hwf' & _).
    exact Hwf'.
Qed.

Lemma reads_wf (ws : list Z) (bs : bitstream) : wf bs -> wf (fst (reads bs ws)).
Proof.
  revert bs. induction ws as [|w ws IH]; intros bs Hwf; cbn [reads].
  - exact Hwf.
  - pose proof (read_wf bs w Hwf) as H1.
    destruct (read bs w) as [bs1 r]. cbn [fst] in H1.
    specialize (IH bs1 H1).
    destruct (reads bs1 ws) as [bs2 rs]. exact IH.
Qed.

(* The outcome of a read, and the stream it leaves, depend on the stream
   only through its view. *)
Lemma read_view (bs1 bs2 : bitstream) (w : Z) :
  wf bs1 -> wf bs2 -> view bs1 = view bs2 ->
  snd (read bs1 w) = snd (read bs2 w) /\
  view (fst (read bs1 w)) = view (fst (read bs2 w)).
Proof.
  intros Hwf1 Hwf2 Hview.
  assert (Hv : streamValue bs1 = streamValue bs2) by (unfold view in Hview; congruence).
  assert (Ha : bitsAvailable bs1 = bitsAvailable bs2) by (unfold view in Hview; congruence).
  destruct (Z.lt_ge_cases w 0) as [Hneg|Hnn].
  { rewrite !read_bad by lia. split; [reflexivity|exact Hview]. }
  destruct (Z.lt_ge_cases w 32) as [H32|H32].
  2:{ rewrite !read_bad by lia. split; [reflexivity|exact Hview]. }
  destruct (Z.le_gt_cases w (bitsAvailable bs1)) as [Hav|Hav].
  - destruct (read_ok bs1 w Hwf1 ltac:(lia) Hav) as (b1 & -> & _ & _ & Hv1 & Ha1).
    destruct (read_ok bs2 w Hwf2 ltac:(lia) ltac:(lia)) as (b2 & -> & _ & _ & Hv2 & Ha2).
    cbn [fst snd]. split; [congruence|]. unfold view. congruence.
  - destruct (read_eos bs1 w Hwf1 ltac:(lia) ltac:(lia)) as (b1 & -> & _ & _ & Hw1).
    destruct (read_eos bs2 w Hwf2 ltac:(lia) ltac:(lia)) as (b2 & -> & _ & _ & Hw2).
    cbn [fst snd]. split; [reflexivity|congruence].
Qed.

Lemma reads_view (ws : list Z) (bs1 bs2 : bitstream) :
  wf bs1 -> wf bs2 -> view bs1 = view bs2 ->
  snd (reads bs1 ws) = snd (reads bs2 ws).
Proof.
  revert bs1 bs2. induction ws as [|w ws IH]; intros bs1 bs2 Hwf1 Hwf2 Hview.
  - reflexivity.
  - cbn [reads].
    destruct (read_view bs1 bs2 w Hwf1 Hwf2 Hview) as [Hr Hv].
    pose proof (read_wf bs1 w Hwf1) as Hw1.
    pose proof (read_wf bs2 w Hwf2) as Hw2.
    destruct (read bs1 w) as [b1 r1], (read bs2 w) as [b2 r2].
    cbn [fst snd] in *.
    specialize (IH b1 b2 Hw1 Hw2 Hv).
    destruct (reads b1 ws) as [c1 rs1], (reads b2 ws) as [c2 rs2].
    cbn [snd] in *. congruence.
Qed.

(* A failed read leaves the view alone. *)
Lemma read_fail_view (bs : bitstream) (w : Z) (e : error) :
  wf bs -> snd (read bs w) = Err e -> view (fst (read bs w)) = view bs.
Proof.
  intros Hwf Hfail.
  destruct (Z.lt_ge_cases w 0) as [Hneg|Hnn].
  { rewrite read_bad by lia. reflexivity. }
  destruct (Z.lt_ge_cases w 32) as [H32|H32].
  2:{ rewrite read_bad by lia. reflexivity. }
  destruct (Z.le_gt_cases w (bitsAvailable bs)) as [Hav|Hav].
  - destruct (read_ok bs w Hwf ltac:(lia) Hav) as (b1 & Hr & _).
    rewrite Hr in Hfail. discriminate.
  - destruct (read_eos bs w Hwf ltac:(lia) ltac:(lia)) as (b1 & -> & _ & _ & Hv).
    exact Hv.
Qed.

Lemma tracks_create (src : list byte) : tracks src (createBitstream src).
Proof.
  unfold tracks. split; [apply wf_create|]. split; [reflexivity|].
  unfold bitsAvailable, streamValue, createBitstream;
    cbn [source readPos buffer buffered].
  rewrite Nat.sub_0_r, drop_0, Z.pow_0_r. split; [lia|].
  replace (8 * Z.of_nat (length src) - (0 + 8 * Z.of_nat (length src))) with 0 by lia.
  rewrite Z.pow_0_r, Z.div_1_r. lia.
Qed.

Lemma tracks_read (src : list byte) (bs : bitstream) (w : Z) :
  tracks src bs -> tracks src (fst (read bs w)).
Proof.
  intros (Hwf & Hsrc & Hav & Hval).
  destruct (Z.lt_ge_cases w 0) as [Hneg|Hnn].
  { rewrite read_bad by lia. repeat split; assumption || apply Hwf || apply Hav. }
  destruct (Z.lt_ge_cases w 32) as [H32|H32].
  2:{ rewrite read_bad by lia. repeat split; assumption || apply Hwf || apply Hav. }
  destruct (Z.le_gt_cases w (bitsAvailable bs)) as [Hle|Hgt].
  - destruct (read_ok bs w Hwf ltac:(lia) Hle) as (bs' & -> & Hwf' & Hs' & Hv' & Ha').
    cbn [fst]. split; [assumption|]. split; [congruence|]. split; [lia|].
    rewrite Hv', Hval, Ha'.
    rewrite Z.div_div by (try apply Z.pow_nonzero; try apply pow2_pos; lia).
    rewrite <- Z.pow_add_r by lia. do 2 f_equal. lia.
  - destruct (read_eos bs w Hwf ltac:(lia) ltac:(lia)) as (bs' & -> & Hwf' & Hs' & Hview).
    cbn [fst]. unfold view in Hview.
    assert (streamValue bs' = streamValue bs) by congruence.
    assert (bitsAvailable bs' = bitsAvailable bs) by congruence.
    split; [assumption|]. split; [congruence|]. split; [lia|]. congruence.
Qed.

Lemma tracks_reads (src : list byte) (ws : list Z) (bs : bitstream) :
  tracks src bs -> tracks src (fst (reads bs ws)).
Proof.
  revert bs. induction ws as [|w ws IH]; intros bs Ht; cbn [reads].
  - exact Ht.
  - pose proof (tracks_read src bs w Ht) as H1.
    destruct (read bs w) as [bs1 r]. cbn [fst] in H1.
    specialize (IH bs1 H1). destruct (reads bs1 ws) as [bs2 rs]. exact IH.
Qed.

(** C9: for a freshly created bitstream and any sequence of read calls, with
    any widths and whether they succeed or fail, the number of buffered bits
    stays in [0, 64) before and after each call; the buffer holds exactly
    that many bits, and together with the unread bytes it is the source with
    the bits already returned shifted out: the 64-bit accumulator never
    overflows and never drops a bit. *)
Theorem bitstream_buffered_bound (src : list byte) (widths : list Z) (w : Z) :
  let before := fst (reads (createBitstream src) widths) in
  let after := fst (read before w) in
  (0 <= buffered before < 64 /\ 0 <= buffered after < 64) /\
  (0 <= buffer before < 2 ^ buffered before /\
   0 <= buffer after < 2 ^ buffered after) /\
  (streamValue before
   = le_value src / 2 ^ (8 * Z.of_nat (length src) - bitsAvailable before) /\
   streamValue after
   = le_value src / 2 ^ (8 * Z.of_nat (length src) - bitsAvailable after)).
Proof.
  intros before after.
  pose proof (tracks_reads src widths _ (tracks_create src)) as Hb.
  fold before in Hb.
  pose proof (tracks_read src before w Hb) as Ha. fold after in Ha.
  destruct Hb as ((Hb1 & Hb2 & _) & _ & _ & Hb3).
  destruct Ha as ((Ha1 & Ha2 & _) & _ & _ & Ha3).
  repeat split; try assumption; lia.
Qed.

(** C5: read fails with EndOfStream exactly when the width is one it accepts
    and exceeds the bits still available (more source bytes are needed than
    remain); and a failed read, of either kind, cannot be told from no call
    at all by any later reads: they return what they would have returned
    had the failed call never been made. *)
Theorem read_EndOfStream_exact_and_unobservable
    (src : list byte) (widths : list Z) (w : Z) :
  let bs := fst (reads (createBitstream src) widths) in
  (snd (read bs w) = Err ErrEndOfStream <-> (0 <= w < 32 /\ bitsAvailable bs < w)) /\
  (forall e later,
      snd (read bs w) = Err e ->
      snd (reads (fst (read bs w)) later) = snd (reads bs later)).
Proof.
  intros bs.
  assert (Hwf : wf bs) by (apply reads_wf, wf_create).
  split.
  - split.
    + intros Hres.
      destruct (Z.lt_ge_cases w 0) as [Hneg|Hnn].
      { rewrite read_bad in Hres by lia. discriminate. }
      destruct (Z.lt_ge_cases w 32) as [H32|H32].
      2:{ rewrite read_bad in Hres by lia. discriminate. }
      destruct (Z.le_gt_cases w (bitsAvailable bs)) as [Hle|Hgt]; [|lia].
      destruct (read_ok bs w Hwf ltac:(lia) Hle) as (bs' & Hr & _).
      rewrite Hr in Hres. discriminate.
    + intros [Hw Hav].
      destruct (read_eos bs w Hwf Hw Hav) as (bs' & -> & _). reflexivity.
  - intros e later Hfail.
    apply reads_view.
    + apply read_wf, Hwf.
    + exact Hwf.
    + exact (read_fail_view bs w e Hwf Hfail).
Qed.

Lemma recombine_cons (w v : Z) (ws vs : list Z) :
  recombine (w :: ws) (v :: vs) = Z.lor v (Z.shiftl (recombine ws vs) w).
Proof. reflexivity. Qed.

Lemma sumZ_nonneg (ws : list Z) : Forall validWidth ws -> 0 <= sumZ ws.
Proof.
  induction 1 as [|x l Hx _ IHl]; unfold sumZ in *; cbn [fold_right]; [lia|].
  unfold validWidth in Hx. lia.
Qed.

(* Reads that fit all succeed, and put back together they are the low bits
   of the stream. *)
Lemma reads_recombine (ws : list Z) (bs : bitstream) :
  wf bs -> Forall validWidth ws -> sumZ ws <= bitsAvailable bs ->
  exists vs,
    snd (reads bs ws) = map Ok vs /\
    recombine ws vs = streamValue bs mod 2 ^ sumZ ws.
Proof.
  revert bs. induction ws as [|w ws IH]; intros bs Hwf Hall Hsum.
  - exists []. split; [reflexivity|]. cbn. rewrite Z.mod_1_r. reflexivity.
  - inversion Hall as [|? ? Hw Hall']; subst.
    pose proof (sumZ_nonneg ws Hall') as Hnn.
    cbn [sumZ fold_right] in Hsum. fold (sumZ ws) in Hsum.
    destruct (read_ok bs w Hwf Hw ltac:(lia)) as (bs' & Hr & Hwf' & _ & Hv' & Ha').
    destruct (IH bs' Hwf' Hall' ltac:(lia)) as (vs & Hrs & Hrec).
    exists (streamValue bs mod 2 ^ w :: vs). split.
    + cbn [reads]. rewrite Hr.
      destruct (reads bs' ws) as [bs2 rs]. cbn [snd] in *. rewrite Hrs. reflexivity.
    + rewrite recombine_cons, Hrec, Hv'.
      pose proof (pow2_pos w ltac:(unfold validWidth in Hw; lia)) as Hpw.
      pose proof (pow2_pos (sumZ ws) Hnn) as Hps.
      rewrite lor_shiftl_add
        by (try apply Z.mod_pos_bound; unfold validWidth in Hw; lia).
      cbn [sumZ fold_right]. fold (sumZ ws).
      rewrite Z.pow_add_r by (unfold validWidth in Hw; lia).
      rewrite Z.rem_mul_r by lia. ring.
Qed.

(** C6: for every byte sequence and every two sequences of width requests,
    each width in 0..31, with the same total not beyond the bits available,
    both sequences of reads succeed and yield the same bit string once the
    results are recombined with their shifts; bit i of it is bit (i mod 8) of
    byte (i / 8): least significant bit first within and across bytes. *)
Theorem read_chunking_independent (src : list byte) (ws1 ws2 : list Z) :
  Forall validWidth ws1 -> Forall validWidth ws2 ->
  sumZ ws1 = sumZ ws2 ->
  sumZ ws1 <= 8 * Z.of_nat (length src) ->
  exists vs1 vs2,
    snd (reads (createBitstream src) ws1) = map Ok vs1 /\
    snd (reads (createBitstream src) ws2) = map Ok vs2 /\
    recombine ws1 vs1 = recombine ws2 vs2 /\
    forall i, 0 <= i < sumZ ws1 ->
      Z.testbit (recombine ws1 vs1) i
      = Z.testbit (byteZ (nth (Z.to_nat (i / 8)) src x00)) (i mod 8).
Proof.
  intros H1 H2 Hsum Hfit.
  assert (Hav : bitsAvailable (createBitstream src) = 8 * Z.of_nat (length src))
    by (unfold bitsAvailable, createBitstream; cbn; lia).
  assert (Hval : streamValue (createBitstream src) = le_value src).
  { unfold streamValue, createBitstream; cbn [source readPos buffer buffered].
    rewrite drop_0, Z.pow_0_r. lia. }
  destruct (reads_recombine ws1 _ (wf_create src) H1 ltac:(lia)) as (vs1 & Hr1 & Hc1).
  destruct (reads_recombine ws2 _ (wf_create src) H2 ltac:(lia)) as (vs2 & Hr2 & Hc2).
  exists vs1, vs2. repeat split; try assumption.
  - congruence.
  - intros i Hi. rewrite Hc1, Hval.
    rewrite Z.mod_pow2_bits_low by lia.
    apply le_value_testbit. lia.
Qed.

Lemma read_chunking_independent_witness :
  exists vs1 vs2,
    snd (reads (createBitstream [xab; xcd]) [12]) = map Ok vs1 /\
    snd (reads (createBitstream [xab; xcd]) [4; 8]) = map Ok vs2 /\
    recombine [12] vs1 = recombine [4; 8] vs2 /\
    forall i, 0 <= i < sumZ [12] ->
      Z.testbit (recombine [12] vs1) i
      = Z.testbit (byteZ (nth (Z.to_nat (i / 8)) [xab; xcd] x00)) (i mod 8).
Proof.
  apply (read_chunking_independent [xab; xcd] [12] [4; 8]).
  - repeat constructor; unfold validWidth; lia.
  - repeat constructor; unfold validWidth; lia.
  - reflexivity.
  - simpl. lia.
Defined.

(** ** The sample codec *)

Lemma gtb_false (a b : Z) : (a >? b) = false -> a <= b.
Proof. rewrite Z.gtb_ltb. apply Z.ltb_ge. Qed.

Lemma gtb_true (a b : Z) : (a >? b) = true -> b < a.
Proof. rewrite Z.gtb_ltb. apply Z.ltb_lt. Qed.

Lemma bitsAvailable_nonneg (bs : bitstream) : wf bs -> 0 <= bitsAvailable bs.
Proof. intros (Hb & _). unfold bitsAvailable. lia. Qed.

(* The two outcomes of a read with an accepted width. *)
Lemma read_cases (bs : bitstream) (w : Z) :
  wf bs -> 0 <= w < 32 ->
  (exists bs' v,
      read bs w = (bs', Ok v) /\ wf bs' /\ 0 <= v < 2 ^ w /\
      bitsAvailable bs' = bitsAvailable bs - w) \/
  (exists bs', read bs w = (bs', Err ErrEndOfStream) /\ bitsAvailable bs < w).
Proof.
  intros Hwf Hw.
  destruct (Z.le_gt_cases w (bitsAvailable bs)) as [Hle|Hgt].
  - left. destruct (read_ok bs w Hwf Hw Hle) as (bs' & Hr & Hwf' & _ & _ & Ha).
    exists bs', (streamValue bs mod 2 ^ w).
    split; [exact Hr|]. split; [exact Hwf'|]. split; [|exact Ha].
    apply Z.mod_pos_bound, pow2_pos; lia.
  - right. destruct (read_eos bs w Hwf Hw Hgt) as (bs' & Hr & _).
    exists bs'. split; assumption.
Qed.

Lemma changeWidth_spec (toWidth : Z) (st : chunkState) :
  0 <= toWidth ->
  1 <= width (changeWidth toWidth st) /\
  dataSource (changeWidth toWidth st) = dataSource st /\
  decoded (changeWidth toWidth st) = decoded st /\
  curLength (changeWidth toWidth st) = curLength st.
Proof.
  intros H. unfold changeWidth, withWidth; cbn.
  destruct (toWidth + 1 >=? width st); repeat split; lia.
Qed.

Lemma int16_range (x : Z) : isInt16 (int16 x).
Proof.
  unfold isInt16, int16.
  pose proof (Z.mod_pos_bound (x + 2 ^ 15) (2 ^ 16) eq_refl). lia.
Qed.

Lemma write_spec (c : ItSampleCodec) (v topBit : Z) (st : chunkState) :
  width (write c v topBit st) = width st /\
  dataSource (write c v topBit st) = dataSource st /\
  length (decoded (write c v topBit st)) = S (length (decoded st)) /\
  curLength (write c v topBit st) = curLength st - 1 /\
  (Forall isInt16 (decoded st) -> Forall isInt16 (decoded (write c v topBit st))).
Proof.
  unfold write; cbn [width dataSource decoded curLength].
  split; [reflexivity|]. split; [reflexivity|]. split; [|split; [reflexivity|]].
  - destruct (It215 c); rewrite length_app; cbn; lia.
  - intros Hall. destruct (It215 c); apply Forall_app; split; try assumption;
      repeat constructor; apply int16_range.
Qed.

(* The block loop ends within the fuel the chunk's bits give it, with an
   error or with exactly the samples still asked for. *)
Lemma decodeLoop_fuel (c : ItSampleCodec) (props : ItSampleCodecParams) (fuel : nat)
    (st : chunkState) :
  usableParams props ->
  wf (dataSource st) -> 1 <= width st -> Forall isInt16 (decoded st) ->
  bitsAvailable (dataSource st) < Z.of_nat fuel ->
  exists res, decodeLoop fuel c props st = Some res /\ blockResult st res.
Proof.
  intros [HfA HdW]. revert st.
  induction fuel as [|fuel IH]; intros st Hwf Hwidth Hdec Hfuel.
  { pose proof (bitsAvailable_nonneg _ Hwf). lia. }
  cbn [decodeLoop].
  destruct (curLength st >? 0) eqn:Hcur.
  2:{ apply gtb_false in Hcur. eexists; split; [reflexivity|].
      split; [lia|exact Hdec]. }
  apply gtb_true in Hcur.
  destruct (width st >? defWidth props) eqn:Hover.
  { eexists; split; [reflexivity|exact I]. }
  apply gtb_false in Hover.
  destruct (read_cases (dataSource st) (width st) Hwf ltac:(lia))
    as [(ds & v & Hr & Hwf1 & Hv & Ha)|(ds & Hr & _)]; rewrite Hr.
  2:{ eexists; split; [reflexivity|exact I]. }
  cbn [withSource width dataSource].
  (* the two ways the loop goes on: a sample written, a width changed *)
  assert (Hwrite : forall x t,
    exists res,
      decodeLoop fuel c props (write c x t (withSource ds st)) = Some res /\
      blockResult st res).
  { intros x t.
    destruct (write_spec c x t (withSource ds st)) as (Ww & Wd & Wl & Wc & Wf).
    cbn [withSource width dataSource decoded curLength] in Ww, Wd, Wl, Wc, Wf.
    destruct (IH (write c x t (withSource ds st))) as (res & Hres & Hpost).
    - rewrite Wd. exact Hwf1.
    - rewrite Ww. exact Hwidth.
    - exact (Wf Hdec).
    - rewrite Wd. lia.
    - exists res. split; [exact Hres|].
      destruct res as [d|e]; [|exact I]. destruct Hpost as [Hlen Hall].
      split; [|exact Hall]. rewrite Hlen, Wl, Wc. lia. }
  assert (Hchange : forall t ds', 0 <= t -> wf ds' ->
    bitsAvailable ds' <= bitsAvailable ds ->
    exists res,
      decodeLoop fuel c props (changeWidth t (withSource ds' st)) = Some res /\
      blockResult st res).
  { intros t ds' Ht Hwf' Hle.
    destruct (changeWidth_spec t (withSource ds' st) Ht) as (Cw & Cd & Cl & Cc).
    cbn [withSource width dataSource decoded curLength] in Cw, Cd, Cl, Cc.
    destruct (IH (changeWidth t (withSource ds' st))) as (res & Hres & Hpost).
    - rewrite Cd. exact Hwf'.
    - exact Cw.
    - rewrite Cl. exact Hdec.
    - rewrite Cd. lia.
    - exists res. split; [exact Hres|].
      destruct res as [d|e]; [|exact I]. destruct Hpost as [Hlen Hall].
      split; [|exact Hall]. rewrite Hlen, Cl, Cc. reflexivity. }
  destruct (width st <=? 6).
  - destruct (v =? Z.shiftl 1 (width st - 1)).
    + destruct (read_cases ds (fetchA props) Hwf1 HfA)
        as [(ds' & t & Hr' & Hwf' & Ht & Ha')|(ds' & Hr' & _)]; rewrite Hr'.
      * apply Hchange; [lia|exact Hwf'|lia].
      * eexists; split; [reflexivity|exact I].
    + apply Hwrite.
  - destruct (width st <? defWidth props).
    + destruct ((v >=? Z.shiftl 1 (width st - 1) + lowerB props)
                && (v <=? Z.shiftl 1 (width st - 1) + upperB props)) eqn:Hwin.
      * apply andb_true_iff in Hwin. destruct Hwin as [Hlo _].
        apply Z.geb_le in Hlo.
        apply (Hchange _ ds); [lia|exact Hwf1|lia].
      * apply Hwrite.
    + destruct (negb (Z.land v (Z.shiftl 1 (width st - 1)) =? 0)).
      * destruct (IH (withWidth (Z.land v (Z.lnot (Z.shiftl 1 (width st - 1))) + 1)
                                (withSource ds st))) as (res & Hres & Hpost).
        -- exact Hwf1.
        -- cbn [withWidth width].
           assert (0 <= Z.land v (Z.lnot (Z.shiftl 1 (width st - 1))))
             by (apply Z.land_nonneg; lia).
           lia.
        -- exact Hdec.
        -- cbn [withWidth dataSource withSource]. lia.
        -- exists res. split; [exact Hres|]. exact Hpost.
      * apply Hwrite.
Qed.

Lemma byteZ_byteOf (z : Z) : byteZ (byteOf z) = z mod 2 ^ 8.
Proof.
  unfold byteOf, byteZ.
  change (2 ^ 8) with 256.
  pose proof (Z.mod_pos_bound z 256 eq_refl) as Hz.
  destruct (Byte.of_N (Z.to_N (z mod 256))) as [b|] eqn:Hof.
  - apply Byte.to_of_N in Hof. rewrite Hof. lia.
  - apply Byte.of_N_None_iff in Hof. lia.
Qed.

Lemma readBytes_length (n : nat) (r bytes r' : list byte) :
  readBytes n r = Ok (bytes, r') ->
  length bytes = n /\ (length r' <= length r)%nat.
Proof.
  unfold readBytes.
  destruct (n =? 0)%nat eqn:Hn.
  { apply Nat.eqb_eq in Hn. intros [= <- <-]. cbn. lia. }
  destruct (length r =? 0)%nat; [discriminate|].
  destruct (length r <? n)%nat eqn:Hlt; [discriminate|].
  apply Nat.ltb_ge in Hlt.
  intros [= <- <-]. rewrite length_take, length_drop. lia.
Qed.

(* A chunk takes at least its two length bytes from the reader. *)
Lemma getChunk_spec (r : list byte) (bs : bitstream) (r' : list byte) :
  getChunk r = Ok (bs, r') ->
  (exists bytes, bs = createBitstream bytes) /\ (length r' + 2 <= length r)%nat.
Proof.
  unfold getChunk, readUint16.
  destruct r as [|b0 [|b1 r1]]; try discriminate.
  destruct (readBytes _ r1) as [[bytes r2]|e] eqn:Hrb; [|discriminate].
  intros [= <- <-]. apply readBytes_length in Hrb.
  split; [eexists; reflexivity|]. cbn [length]. lia.
Qed.

Lemma getChunk_frame (payload rest : list byte) :
  Z.of_nat (length payload) < 2 ^ 16 ->
  getChunk (frame payload ++ rest) = Ok (createBitstream payload, rest).
Proof.
  intros Hlen. unfold getChunk, frame. cbn [app readUint16].
  rewrite !byteZ_byteOf.
  set (L := Z.of_nat (length payload)) in *.
  assert (HL : Z.lor (L mod 2 ^ 8) (Z.shiftl ((L / 2 ^ 8) mod 2 ^ 8) 8) = L).
  { rewrite lor_shiftl_add by (try apply Z.mod_pos_bound; lia).
    rewrite (Z.mod_small (L / 2 ^ 8)).
    - pose proof (Z.div_mod L (2 ^ 8) ltac:(lia)). lia.
    - split; [apply Z.div_pos; lia|].
      apply Z.div_lt_upper_bound; [lia|]. change (2 ^ 8 * 2 ^ 8) with (2 ^ 16). lia. }
  rewrite HL. unfold L. rewrite Nat2Z.id.
  unfold readBytes.
  destruct (length payload =? 0)%nat eqn:H0.
  - apply Nat.eqb_eq in H0. destruct payload; [reflexivity|discriminate].
  - apply Nat.eqb_neq in H0.
    assert (Hne : (length (payload ++ rest) =? 0)%nat = false)
      by (apply Nat.eqb_neq; rewrite length_app; lia).
    assert (Hge : (length (payload ++ rest) <? length payload)%nat = false)
      by (apply Nat.ltb_ge; rewrite length_app; lia).
    rewrite Hne, Hge, take_app_length, drop_app_length. reflexivity.
Qed.

Lemma usable8 : usableParams ItSampleCodecParams8.
Proof. unfold usableParams; cbn; lia. Qed.

Lemma usable16 : usableParams ItSampleCodecParams16.
Proof. unfold usableParams; cbn; lia. Qed.

Lemma maxBlockLength_pos (c : ItSampleCodec) : 0 < maxBlockLength c.
Proof. unfold maxBlockLength. destruct (Is16 c); reflexivity. Qed.

(* A chunk ends with an error or with exactly the samples asked of it. *)
Lemma decodeChunk_spec (c : ItSampleCodec) (r : list byte) (n : Z) :
  exists res,
    decodeChunk c r n = Some res /\
    match res with
    | Err _ => True
    | Ok (chunk, r') =>
        Z.of_nat (length chunk) = Z.max 0 (Z.min n (maxBlockLength c)) /\
        Forall isInt16 chunk /\
        (length r' + 2 <= length r)%nat
    end.
Proof.
  unfold decodeChunk.
  destruct (getChunk r) as [[bs r']|e] eqn:Hg.
  2:{ eexists; split; [reflexivity|exact I]. }
  destruct (getChunk_spec r bs r' Hg) as [[bytes ->] Hlen].
  cbn [source createBitstream].
  match goal with
  | |- context [decodeLoop ?f c ?p ?st] =>
      destruct (decodeLoop_fuel c p f st) as (res & Hres & Hlenres)
  end.
  - destruct (Is16 c); [apply usable16|apply usable8].
  - apply wf_create.
  - cbn [width]. destruct (Is16 c); cbn; lia.
  - constructor.
  - unfold bitsAvailable; cbn [dataSource source readPos buffered createBitstream]. lia.
  - rewrite Hres. destruct res as [d|e].
    + eexists; split; [reflexivity|].
      destruct Hlenres as [Hl Hall]. cbn [decoded curLength length] in Hl.
      split; [|split; [exact Hall|exact Hlen]]. unfold maxBlockLength.
      rewrite Hl. destruct (Is16 c); reflexivity.
    + eexists; split; [reflexivity|exact I].
Qed.

Lemma prepend_app (a b : list Z) (x : option (result (list Z))) :
  prepend (a ++ b) x = prepend a (prepend b x).
Proof. destruct x as [[d|e]|]; cbn; [rewrite app_assoc|..]; reflexivity. Qed.

(* The loop of Decode does not depend on its fuel once there is more of it
   than the reader has bytes, nor on what was decoded before. *)
Lemma DecodeLoop_Decode (c : ItSampleCodec) (r : list byte) :
  forall (fuel : nat) (acc : list Z) (n : Z),
    (length r < fuel)%nat ->
    DecodeLoop fuel c r acc n = prepend acc (Decode c r n).
Proof.
  induction r as [r IH] using (induction_ltof1 _ (@length byte)).
  unfold ltof in IH.
  intros fuel acc n Hfuel. unfold Decode.
  destruct fuel as [|fuel]; [lia|].
  cbn [DecodeLoop].
  destruct (n >? 0).
  2:{ cbn. rewrite app_nil_r. reflexivity. }
  destruct (decodeChunk_spec c r n) as (res & Hres & Hspec).
  rewrite Hres. destruct res as [[chunk r']|e]; [|reflexivity].
  destruct Hspec as (_ & _ & Hshort).
  rewrite (IH r') by lia.
  rewrite (IH r' ltac:(lia) (length r)) by lia.
  cbn [app]. apply prepend_app.
Qed.

(* One turn of the loop of Decode. *)
Lemma Decode_unfold (c : ItSampleCodec) (r : list byte) (n : Z) :
  0 < n ->
  Decode c r n =
    match decodeChunk c r n with
    | None => None
    | Some (Err e) => Some (Err e)
    | Some (Ok (chunk, r')) =>
        prepend chunk (Decode c r' (n - Z.of_nat (length chunk)))
    end.
Proof.
  intros Hn. unfold Decode at 1. cbn [DecodeLoop].
  destruct (n >? 0) eqn:Hgt; [|apply gtb_false in Hgt; lia].
  destruct (decodeChunk_spec c r n) as (res & Hres & Hspec).
  rewrite Hres. destruct res as [[chunk r']|e]; [|reflexivity].
  destruct Hspec as (_ & _ & Hshort).
  rewrite DecodeLoop_Decode by lia. reflexivity.
Qed.

(* Decode ends, with an error or with as many samples as were asked for. *)
Lemma Decode_spec (c : ItSampleCodec) (r : list byte) :
  forall n, 0 <= n ->
  exists res,
    Decode c r n = Some res /\
    match res with
    | Err _ => True
    | Ok d => Z.of_nat (length d) = n /\ Forall isInt16 d
    end.
Proof.
  induction r as [r IH] using (induction_ltof1 _ (@length byte)).
  unfold ltof in IH. intros n Hn.
  destruct (Z.eq_dec n 0) as [->|Hne].
  { exists (Ok []). split; [reflexivity|]. split; [reflexivity|constructor]. }
  rewrite Decode_unfold by lia.
  destruct (decodeChunk_spec c r n) as (res & Hres & Hspec).
  rewrite Hres. destruct res as [[chunk r']|e].
  2:{ eexists; split; [reflexivity|exact I]. }
  destruct Hspec as (Hlen & Hall & Hshort).
  pose proof (maxBlockLength_pos c) as Hmax.
  destruct (IH r' ltac:(lia) (n - Z.of_nat (length chunk)) ltac:(lia))
    as (res & Hres' & Hspec').
  rewrite Hres'. destruct res as [more|e]; cbn [prepend].
  - eexists; split; [reflexivity|]. destruct Hspec' as [Hlen' Hall'].
    split; [rewrite length_app; lia|]. apply Forall_app. split; assumption.
  - eexists; split; [reflexivity|exact I].
Qed.

(** C2: for every reader and every sampleLength > 0, Decode ends, and either
    fails with an error, returning no data, or returns a slice of exactly
    sampleLength values, each of them an int16. *)
Theorem Decode_length (c : ItSampleCodec) (r : list byte) (sampleLength : Z) :
  0 < sampleLength ->
  exists res,
    Decode c r sampleLength = Some res /\
    match res with
    | Err _ => True
    | Ok totalData =>
        Z.of_nat (length totalData) = sampleLength /\ Forall isInt16 totalData
    end.
Proof. intros Hn. apply Decode_spec. lia. Qed.

Lemma Decode_length_witness :
  0 < 2 /\
  exists res,
    Decode (mkCodec false false) (frame [xc8; x90; x01]) 2 = Some res /\
    match res with
    | Err _ => True
    | Ok totalData => Z.of_nat (length totalData) = 2 /\ Forall isInt16 totalData
    end.
Proof.
  split; [lia|].
  apply (Decode_length (mkCodec false false) (frame [xc8; x90; x01]) 2). lia.
Defined.

(* What follows a chunk in the reader plays no part in decoding it. *)
Lemma decodeChunk_frame (c : ItSampleCodec) (payload rest : list byte) (n : Z) :
  Z.of_nat (length payload) < 2 ^ 16 ->
  decodeChunk c (frame payload ++ rest) n =
    match decodeChunk c (frame payload) n with
    | Some (Ok (chunk, _)) => Some (Ok (chunk, rest))
    | other => other
    end.
Proof.
  intros Hlen. unfold decodeChunk.
  rewrite (getChunk_frame payload rest Hlen).
  rewrite <- (app_nil_r (frame payload)).
  rewrite (getChunk_frame payload [] Hlen).
  cbn [source createBitstream].
  match goal with
  | |- context [decodeLoop ?f c ?p ?st] => destruct (decodeLoop f c p st) as [[d|e]|]
  end; reflexivity.
Qed.

(** C3 (as the code has it): a chunk never yields fewer samples than asked.
    Decoding a chunk either fails or gives exactly
    min(remaining length, max block length) samples; when it fails, as it
    does with EndOfStream once its payload is exhausted early, Decode fails
    with the same error whatever chunks follow.  After a decoded chunk Decode
    goes on with the chunks that follow until sampleLength samples are
    produced, and a reader with no chunk left is an error. *)
Theorem Decode_chunk_by_chunk (c : ItSampleCodec) (payload rest : list byte) (n : Z) :
  0 < n -> Z.of_nat (length payload) < 2 ^ 16 ->
  (forall e,
      decodeChunk c (frame payload) n = Some (Err e) ->
      Decode c (frame payload ++ rest) n = Some (Err e)) /\
  (forall chunk r',
      decodeChunk c (frame payload ++ rest) n = Some (Ok (chunk, r')) ->
      r' = rest /\
      Z.of_nat (length chunk) = Z.min n (maxBlockLength c) /\
      Decode c (frame payload ++ rest) n
      = prepend chunk (Decode c rest (n - Z.of_nat (length chunk)))) /\
  Decode c [] n = Some (Err EOF).
Proof.
  intros Hn Hlen. split; [|split].
  - intros e He. rewrite Decode_unfold by assumption.
    rewrite decodeChunk_frame, He by assumption. reflexivity.
  - intros chunk r' Hok.
    assert (Hr : r' = rest).
    { rewrite decodeChunk_frame in Hok by assumption.
      destruct (decodeChunk c (frame payload) n) as [[[d r0]|e]|];
        [|discriminate..]. congruence. }
    subst r'. split; [reflexivity|].
    destruct (decodeChunk_spec c (frame payload ++ rest) n) as (res & Hres & Hspec).
    rewrite Hok in Hres. injection Hres as <-. destruct Hspec as (Hl & _).
    pose proof (maxBlockLength_pos c).
    split; [lia|].
    rewrite Decode_unfold by assumption. rewrite Hok. reflexivity.
  - rewrite Decode_unfold by assumption. reflexivity.
Qed.

Lemma Decode_chunk_by_chunk_witness :
  0 < 2 /\ Z.of_nat (length [xc8; x00]) < 2 ^ 16 /\
  Decode (mkCodec false false) (frame [xc8; x00] ++ frame [x05; x00; x00]) 2
  = Some (Err ErrEndOfStream).
Proof.
  split; [lia|]. split; [reflexivity|].
  apply (Decode_chunk_by_chunk (mkCodec false false) [xc8; x00]
           (frame [x05; x00; x00]) 2 ltac:(lia) eq_refl).
  reflexivity.
Defined.

(* C3 as the specification words it does not hold: the first chunk holds one
   9-bit sample and seven more bits; asked for two samples it is exhausted
   early.  The chunk that follows decodes by itself, yet Decode fails. *)
Lemma Decode_short_chunk_counterexample :
  let c := mkCodec false false in
  let first := frame [xc8; x00] in
  let more := frame [x05; x00; x00] in
  decodeChunk c first 1 = Some (Ok ([200], [])) /\
  decodeChunk c (first ++ more) 2 = Some (Err ErrEndOfStream) /\
  Decode c more 1 = Some (Ok [5]) /\
  Decode c more 2 = Some (Ok [5; 5]) /\
  Decode c (first ++ more) 2 = Some (Err ErrEndOfStream).
Proof. vm_compute. repeat split. Qed.

Lemma int8_int16 (x : Z) : int8 (int16 x) = int8 x.
Proof.
  unfold int8, int16. f_equal.
  rewrite (Z.mod_eq (x + 2 ^ 15) (2 ^ 16)) by lia.
  replace (x + 2 ^ 15 - 2 ^ 16 * ((x + 2 ^ 15) / 2 ^ 16) - 2 ^ 15 + 2 ^ 7)
    with (x + 2 ^ 7 + (- 2 ^ 8 * ((x + 2 ^ 15) / 2 ^ 16)) * 2 ^ 8) by lia.
  apply Z.mod_add. lia.
Qed.

Lemma int16_congruent (x : Z) : (int16 x - x) mod 2 ^ 16 = 0.
Proof.
  unfold int16. rewrite (Z.mod_eq (x + 2 ^ 15) (2 ^ 16)) by lia.
  replace (x + 2 ^ 15 - 2 ^ 16 * ((x + 2 ^ 15) / 2 ^ 16) - 2 ^ 15 - x)
    with (0 + (- ((x + 2 ^ 15) / 2 ^ 16)) * 2 ^ 16) by lia.
  rewrite Z.mod_add by lia. reflexivity.
Qed.

(** C4 (as the code has it): every element emitted by the write step is the
    running accumulator (mem2 in It215 mode, else mem1) truncated to int16,
    that is modulo 2^16, for 8-bit samples as for 16-bit ones.  For 16-bit
    samples this is the native truncation; for 8-bit samples the native
    truncation is what the caller gets when it narrows the element to int8. *)
Theorem write_emits_int16 (c : ItSampleCodec) (v topBit : Z) (st : chunkState) :
  let st' := write c v topBit st in
  let acc := emittedAccumulator c st' in
  decoded st' = decoded st ++ [int16 acc] /\
  (isInt16 (int16 acc) /\ (int16 acc - acc) mod 2 ^ 16 = 0) /\
  (Is16 c = true -> int16 acc = nativeTruncate c acc) /\
  (Is16 c = false -> int8 (int16 acc) = nativeTruncate c acc).
Proof.
  intros st' acc. split; [|split; [|split]].
  - unfold acc, st', emittedAccumulator, write; cbn [decoded mem1 mem2].
    destruct (It215 c); reflexivity.
  - split; [apply int16_range|apply int16_congruent].
  - intros H16. unfold nativeTruncate. rewrite H16. reflexivity.
  - intros H8. unfold nativeTruncate. rewrite H8. apply int8_int16.
Qed.

(* C4 as the specification words it does not hold for 8-bit samples: two
   deltas of 200 bring mem1 to 400, and 400 is emitted, which is no 8-bit
   value. *)
Lemma write_8bit_counterexample :
  let c := mkCodec false false in
  let st0 := {| dataSource := createBitstream []; width := 9; mem1 := 0;
                mem2 := 0; decoded := []; curLength := 2 |} in
  let st2 := write c 200 0 (write c 200 0 st0) in
  emittedAccumulator c st2 = 400 /\
  decoded st2 = [200; 400] /\
  nativeTruncate c (emittedAccumulator c st2) = -112 /\
  400 mod 2 ^ 8 = 144 /\
  last (decoded st2) <> Some (nativeTruncate c (emittedAccumulator c st2)) /\
  Decode c (frame [xc8; x90; x01]) 2 = Some (Ok [200; 400]).
Proof. vm_compute. repeat split. discriminate. Qed.

(** ** Pattern unpacking *)

(** C7: translatePatternVolume maps every raw volume byte as the table says:
    [0,64] to (1,v); [65,74] to (2,v-65); [75,84] to (3,v-75); [85,94] to
    (4,v-85); [95,104] to (5,v-95); [105,114] to (6,v-105); [115,124] to
    (7,v-125) in uint8 arithmetic; [125,127] to (0,0); 128 to (8,0);
    [129,202] to (9,v-129); [203,212] to (10,v-203); [213,255] to (0,0);
    so 64 gives (1,64), 65 gives (2,0), 128 gives (8,0), 203 gives (10,0)
    and 213 gives (0,0). *)
Theorem translatePatternVolume_table (v : Z) :
  0 <= v <= 255 ->
  translatePatternVolume v = volumeTable v /\
  translatePatternVolume 64 = (1, 64) /\
  translatePatternVolume 65 = (2, 0) /\
  translatePatternVolume 128 = (8, 0) /\
  translatePatternVolume 203 = (10, 0) /\
  translatePatternVolume 213 = (0, 0).
Proof.
  intros Hv. split; [|repeat split].
  unfold translatePatternVolume, volumeTable, inRange, uint8.
  change (2 ^ 8) with 256.
  repeat match goal with
         | |- context [?a <=? ?b] => destruct (Z.leb_spec a b); try lia
         end;
    cbn [andb]; try reflexivity;
    f_equal; try (apply Z.mod_small; lia); try lia.
  replace v with 128 by lia. reflexivity.
Qed.

Lemma translatePatternVolume_table_witness :
  0 <= 120 <= 255 /\ translatePatternVolume 120 = (7, 251).
Proof.
  split; [lia|].
  destruct (translatePatternVolume_table 120 ltac:(lia)) as [H _].
  rewrite H. reflexivity.
Defined.

(** *** What the steps of an entry touch *)

Lemma advance_0 (len p : nat) : advance len 0 p = p.
Proof. unfold advance. lia. Qed.

Lemma advance_advance (len j k p : nat) :
  advance len k (advance len j p) = advance len (j + k) p.
Proof. unfold advance. lia. Qed.

Lemma advance_le (len k p : nat) : (p <= advance len k p)%nat.
Proof. unfold advance. lia. Qed.

Lemma nextByte_cursor (data : list byte) (u : unpacker) :
  dataRead (snd (nextByte data u)) = advance (length data) 1 (dataRead u).
Proof.
  unfold nextByte, advance.
  destruct (data !! dataRead u) eqn:Hl; cbn [snd dataRead setDataRead].
  - apply lookup_lt_Some in Hl. lia.
  - apply lookup_ge_None in Hl. lia.
Qed.

Lemma nextByte_end (data : list byte) (u : unpacker) :
  (length data <= dataRead u)%nat -> nextByte data u = (x00, u).
Proof.
  intros H. unfold nextByte. apply lookup_ge_None in H. rewrite H. reflexivity.
Qed.

Lemma nextByte_frame (data : list byte) (u : unpacker) :
  let u' := snd (nextByte data u) in
  lastMask u' = lastMask u /\ lastNote u' = lastNote u /\
  lastIns u' = lastIns u /\ lastVol u' = lastVol u /\
  lastEffect u' = lastEffect u /\ lastEffectParam u' = lastEffectParam u /\
  channels u' = channels u.
Proof.
  unfold nextByte. destruct (data !! dataRead u); cbn; repeat split.
Qed.

Ltac proj_simpl :=
  cbn [dataRead lastMask lastNote lastIns lastVol lastEffect lastEffectParam
       channels setDataRead setLastMask setLastNote setLastIns setLastVol
       setLastEffect setLastEffectParam setChannels fst snd] in *.

(* Unfolds a step down to nextByte, one call at a time. *)
Ltac step_cases data u :=
  let b := fresh "b" in
  let u' := fresh "u" in
  let Hc := fresh "Hc" in
  let Hf := fresh "Hf" in
  pose proof (nextByte_cursor data u) as Hc;
  pose proof (nextByte_frame data u) as Hf;
  destruct (nextByte data u) as [b u'];
  cbn [fst snd] in Hc, Hf;
  destruct Hf as (? & ? & ? & ? & ? & ? & ?).

Lemma trackChannel_spec (channel : Z) (u : unpacker) :
  channels (trackChannel channel u) = Z.max (channels u) (channel + 1) /\
  dataRead (trackChannel channel u) = dataRead u /\
  lastVol (trackChannel channel u) = lastVol u /\
  lastMask (trackChannel channel u) = lastMask u.
Proof.
  unfold trackChannel.
  destruct (Z.geb_spec channel (channels u)); cbn; repeat split; lia.
Qed.

Lemma readMask_spec (data : list byte) (cs : byte) (channel : Z) (u : unpacker) :
  let u' := readMask data cs channel u in
  channels u' = channels u /\ lastVol u' = lastVol u /\
  dataRead u'
  = advance (length data)
      (if Z.land (byteZ cs) 0x80 =? 0 then 0 else 1) (dataRead u).
Proof.
  unfold readMask. destruct (Z.land (byteZ cs) 128 =? 0); cbn [negb].
  - rewrite advance_0. repeat split.
  - step_cases data u. proj_simpl. repeat split; assumption.
Qed.

Lemma readNote_spec (data : list byte) (mask channel : Z) (u : unpacker) :
  let u' := readNote data mask channel u in
  channels u' = channels u /\ lastVol u' = lastVol u /\
  dataRead u'
  = advance (length data) (if Z.land mask PmaskNote =? 0 then 0 else 1) (dataRead u).
Proof.
  unfold readNote. destruct (Z.land mask PmaskNote =? 0); cbn [negb].
  - rewrite advance_0. repeat split.
  - step_cases data u. proj_simpl. repeat split; assumption.
Qed.

Lemma readIns_spec (data : list byte) (mask channel : Z) (u : unpacker) :
  let u' := readIns data mask channel u in
  channels u' = channels u /\ lastVol u' = lastVol u /\
  dataRead u'
  = advance (length data) (if Z.land mask PmaskIns =? 0 then 0 else 1) (dataRead u).
Proof.
  unfold readIns. destruct (Z.land mask PmaskIns =? 0); cbn [negb].
  - rewrite advance_0. repeat split.
  - step_cases data u. proj_simpl. repeat split; assumption.
Qed.

Lemma readVol_spec (data : list byte) (mask channel : Z) (u : unpacker) :
  let u' := readVol data mask channel u in
  channels u' = channels u /\
  dataRead u'
  = advance (length data) (if Z.land mask PmaskVol =? 0 then 0 else 1) (dataRead u) /\
  (forall ch, ch <> Z.to_nat channel -> lastVol u' !!! ch = lastVol u !!! ch) /\
  length (lastVol u') = length (lastVol u).
Proof.
  unfold readVol. destruct (Z.land mask PmaskVol =? 0); cbn [negb].
  - rewrite advance_0. repeat split.
  - step_cases data u. proj_simpl. repeat split; try assumption.
    + intros ch Hne. rewrite list_lookup_total_insert_ne by congruence. congruence.
    + rewrite length_insert. congruence.
Qed.

(* Without the volume-present bit the volume step is the identity. *)
Lemma readVol_absent (data : list byte) (mask channel : Z) (u : unpacker) :
  Z.land mask PmaskVol = 0 -> readVol data mask channel u = u.
Proof. intros H. unfold readVol. rewrite H. reflexivity. Qed.

Lemma readEffect_spec (data : list byte) (mask channel : Z) (u : unpacker) :
  let u' := readEffect data mask channel u in
  channels u' = channels u /\ lastVol u' = lastVol u /\
  dataRead u'
  = advance (length data) (if Z.land mask PmaskEffect =? 0 then 0 else 2) (dataRead u).
Proof.
  unfold readEffect. destruct (Z.land mask PmaskEffect =? 0); cbn [negb].
  - rewrite advance_0. repeat split.
  - step_cases data u.
    step_cases data (setLastEffect (<[Z.to_nat channel:=b]> (lastEffect u0)) u0).
    proj_simpl. repeat split; try congruence.
    rewrite Hc0, Hc. rewrite advance_advance. reflexivity.
Qed.

Lemma channelOf_range (cs : byte) : 0 <= channelOf cs <= 63.
Proof.
  unfold channelOf. generalize (uint8 (byteZ cs - 1)). intros x.
  assert (Hland : Z.land x 63 = x mod 64)
    by (change 63 with (Z.ones 6); rewrite Z.land_ones by lia; reflexivity).
  rewrite Hland. pose proof (Z.mod_pos_bound x 64 eq_refl). lia.
Qed.

Lemma uint8_small (x : Z) : 0 <= x < 256 -> uint8 x = x.
Proof. intros H. unfold uint8. apply Z.mod_small. change (2 ^ 8) with 256. lia. Qed.

Lemma int16_small (x : Z) : - 2 ^ 15 <= x < 2 ^ 15 -> int16 x = x.
Proof. intros H. unfold int16. rewrite Z.mod_small; lia. Qed.

(* What decoding one entry does to the channel count and to the cursor. *)
Lemma unpackEntry_spec (data : list byte) (cs : byte) (u : unpacker) :
  let u' := fst (unpackEntry data cs u) in
  let e := snd (unpackEntry data cs u) in
  common.Channel e = channelOf cs /\
  channels u' = Z.max (channels u) (channelOf cs + 1) /\
  (dataRead u <= dataRead u')%nat.
Proof.
  unfold unpackEntry. cbn [fst snd common.Channel].
  set (ch := channelOf cs).
  set (u1 := trackChannel ch u).
  set (u2 := readMask data cs ch u1).
  set (m := maskOf ch u2).
  set (u3 := readNote data m ch u2).
  set (u4 := readIns data m ch u3).
  set (u5 := readVol data m ch u4).
  set (u6 := readEffect data m ch u5).
  destruct (trackChannel_spec ch u) as (C1 & D1 & _).
  destruct (readMask_spec data cs ch u1) as (C2 & _ & D2).
  destruct (readNote_spec data m ch u2) as (C3 & _ & D3).
  destruct (readIns_spec data m ch u3) as (C4 & _ & D4).
  destruct (readVol_spec data m ch u4) as (C5 & D5 & _).
  destruct (readEffect_spec data m ch u5) as (C6 & _ & D6).
  fold u1 in C1, D1. fold u2 in C2, D2. fold u3 in C3, D3.
  fold u4 in C4, D4. fold u5 in C5, D5. fold u6 in C6, D6.
  split; [|split].
  - apply uint8_small. pose proof (channelOf_range cs). fold ch in H. lia.
  - congruence.
  - rewrite D6, D5, D4, D3, D2, D1.
    repeat (eapply Nat.le_trans; [|apply advance_le]). apply Nat.le_refl.
Qed.

Lemma channelCount_cons (e : common.PatternEntry) (es : list common.PatternEntry) :
  channelCount (e :: es) = Z.max (common.Channel e + 1) (channelCount es).
Proof. reflexivity. Qed.

Lemma channelCount_app (es1 es2 : list common.PatternEntry) :
  channelCount (es1 ++ es2) = Z.max (channelCount es1) (channelCount es2).
Proof.
  induction es1 as [|e es1 IH].
  - cbn [app]. assert (0 <= channelCount es2); [|cbn; lia].
    induction es2 as [|e es2 IH]; [cbn; lia|]. rewrite channelCount_cons. lia.
  - cbn [app]. rewrite !channelCount_cons, IH. lia.
Qed.

(* The largest channel is the channel of some entry. *)
Lemma channelCount_attained (es : list common.PatternEntry) :
  Forall channelOk es ->
  (es = [] /\ channelCount es = 0) \/
  (exists e, In e es /\ channelCount es = 1 + common.Channel e /\
             forall e', In e' es -> common.Channel e' <= common.Channel e).
Proof.
  induction 1 as [|e es He Hes IH]; [left; split; reflexivity|].
  right. rewrite channelCount_cons. unfold channelOk in He.
  destruct IH as [[-> Hz]|(m & Hin & Hm & Hmax)].
  - exists e. split; [left; reflexivity|]. split; [cbn; lia|].
    intros e' [<-|[]]. lia.
  - destruct (Z.le_gt_cases (common.Channel m) (common.Channel e)).
    + exists e. split; [left; reflexivity|]. split; [lia|].
      intros e' [<-|Hin']; [lia|]. specialize (Hmax e' Hin'). lia.
    + exists m. split; [right; exact Hin|]. split; [lia|].
      intros e' [<-|Hin']; [lia|]. apply Hmax, Hin'.
Qed.

(* A row is unpacked within its fuel; the channel count follows the entries. *)
Lemma unpackRow_fuel (data : list byte) (fuel : nat) :
  forall (u : unpacker) (es : list common.PatternEntry),
    (length data - dataRead u < fuel)%nat -> 0 <= channels u ->
    exists u' es',
      unpackRow fuel data u es = Some (u', es ++ es') /\
      Forall channelOk es' /\
      channels u' = Z.max (channels u) (channelCount es') /\
      (dataRead u <= dataRead u')%nat.
Proof.
  induction fuel as [|fuel IH]; intros u es Hfuel Hch; [lia|].
  cbn [unpackRow].
  pose proof (nextByte_cursor data u) as Hc.
  pose proof (nextByte_frame data u) as Hf. cbn zeta in Hf.
  destruct (data !! dataRead u) eqn:Hlook.
  2:{ apply lookup_ge_None in Hlook. rewrite (nextByte_end data u Hlook).
      change (byteZ x00 =? 0) with true. cbn iota.
      exists u, []. rewrite app_nil_r. repeat split; [constructor|cbn; lia|lia]. }
  apply lookup_lt_Some in Hlook.
  destruct (nextByte data u) as [cs u1]. cbn [fst snd] in Hc, Hf.
  destruct Hf as (_ & _ & _ & _ & _ & _ & Hch1).
  assert (Hd1 : dataRead u1 = S (dataRead u)) by (rewrite Hc; unfold advance; lia).
  destruct (byteZ cs =? 0).
  { exists u1, []. rewrite app_nil_r.
    repeat split; [constructor|cbn; lia|lia]. }
  destruct (unpackEntry_spec data cs u1) as (He & Hc2 & Hd2).
  destruct (unpackEntry data cs u1) as [u2 e]. cbn [fst snd] in He, Hc2, Hd2.
  pose proof (channelOf_range cs) as Hrange.
  destruct (IH u2 (es ++ [e]) ltac:(lia) ltac:(lia)) as (u' & es' & Hrow & Hok & Hcnt & Hd).
  exists u', (e :: es'). rewrite Hrow, <- app_assoc. cbn [app].
  repeat split.
  - constructor; [unfold channelOk; lia|exact Hok].
  - rewrite channelCount_cons, Hcnt, Hc2, He, Hch1. lia.
  - lia.
Qed.

Lemma channelCount_range (es : list common.PatternEntry) :
  Forall channelOk es -> 0 <= channelCount es <= 64.
Proof.
  induction 1 as [|e es He _ IH]; [cbn; lia|].
  rewrite channelCount_cons. unfold channelOk in He. lia.
Qed.

Lemma unpackRows_spec (data : list byte) (rows : nat) :
  forall (u : unpacker) (acc : list common.PatternRow),
    0 <= channels u ->
    exists u' rows',
      unpackRows rows data u acc = Some (u', acc ++ rows') /\
      length rows' = rows /\
      Forall channelOk (concat (map common.Entries rows')) /\
      channels u' = Z.max (channels u) (channelCount (concat (map common.Entries rows'))).
Proof.
  induction rows as [|rows IH]; intros u acc Hch; cbn [unpackRows].
  - exists u, []. rewrite app_nil_r. repeat split; [constructor|cbn; lia].
  - destruct (unpackRow_fuel data (S (length data)) u [] ltac:(lia) Hch)
      as (u1 & es & Hrow & Hok & Hcnt & _).
    rewrite Hrow. cbn [app].
    pose proof (channelCount_range es Hok) as Hr.
    destruct (IH u1 (acc ++ [{| common.Entries := es |}]) ltac:(lia))
      as (u' & rows' & Hrows & Hlen & Hok' & Hcnt').
    exists u', ({| common.Entries := es |} :: rows').
    rewrite Hrows, <- app_assoc. cbn [app map concat common.Entries length].
    repeat split.
    + congruence.
    + apply Forall_app. split; assumption.
    + rewrite channelCount_app, Hcnt', Hcnt. lia.
Qed.

(* ToCommon always returns a pattern, with as many rows as the header says. *)
Lemma ToCommon_total (itp : ItPattern) :
  exists p,
    ToCommon itp = Some p /\
    length (common.Rows p) = Z.to_nat (Rows (Header itp)) /\
    Forall channelOk (allEntries p) /\
    common.Channels p = channelCount (allEntries p).
Proof.
  unfold ToCommon.
  destruct (unpackRows_spec (Data itp) (Z.to_nat (Rows (Header itp))) newUnpacker []
              ltac:(cbn; lia)) as (u & rows & Hrows & Hlen & Hok & Hcnt).
  rewrite Hrows. cbn [app]. eexists. split; [reflexivity|].
  unfold allEntries; cbn [common.Rows common.Channels].
  split; [exact Hlen|]. split; [exact Hok|].
  pose proof (channelCount_range _ Hok) as Hr.
  change (channels newUnpacker) with 0 in Hcnt.
  rewrite int16_small; lia.
Qed.


(** *** The volume field of an entry *)

Lemma land_lor_nonzero (m a b : Z) :
  Z.land m a <> 0 \/ Z.land m b <> 0 ->
  (Z.land m (Z.lor a b) =? 0) = false.
Proof.
  intros H. apply Z.eqb_neq. rewrite Z.land_lor_distr_r.
  intros Hz. apply Z.lor_eq_0_iff in Hz. tauto.
Qed.

(* The volume an entry carries, the volume array it leaves and the bytes it
   takes, in terms of the mask in force. *)
Lemma unpackEntry_volume (data : list byte) (cs : byte) (u : unpacker) :
  let ch := channelOf cs in
  let m := entryMask data cs u in
  let u' := fst (unpackEntry data cs u) in
  let e := snd (unpackEntry data cs u) in
  (common.VolumeCommand e, common.VolumeParam e)
  = (if Z.land m (Z.lor PmaskVol PmaskLastVol) =? 0 then (0, 0)
     else translatePatternVolume (byteZ (lastVol u' !!! Z.to_nat ch))) /\
  (forall i, i <> Z.to_nat ch -> lastVol u' !!! i = lastVol u !!! i) /\
  (Z.land m PmaskVol = 0 -> lastVol u' = lastVol u) /\
  dataRead u'
  = advance (length data)
      (bytesBesidesVolume cs m + (if Z.land m PmaskVol =? 0 then 0 else 1))
      (dataRead u).
Proof.
  unfold entryMask, unpackEntry.
  cbn [fst snd common.VolumeCommand common.VolumeParam].
  set (ch := channelOf cs).
  set (u1 := trackChannel ch u).
  set (u2 := readMask data cs ch u1).
  set (m := maskOf ch u2).
  set (u3 := readNote data m ch u2).
  set (u4 := readIns data m ch u3).
  set (u5 := readVol data m ch u4).
  set (u6 := readEffect data m ch u5).
  destruct (trackChannel_spec ch u) as (_ & D1 & V1 & _).
  destruct (readMask_spec data cs ch u1) as (_ & V2 & D2).
  destruct (readNote_spec data m ch u2) as (_ & V3 & D3).
  destruct (readIns_spec data m ch u3) as (_ & V4 & D4).
  destruct (readVol_spec data m ch u4) as (_ & D5 & V5 & _).
  destruct (readEffect_spec data m ch u5) as (_ & V6 & D6).
  fold u1 in D1, V1. fold u2 in D2, V2. fold u3 in D3, V3.
  fold u4 in D4, V4. fold u5 in D5, V5. fold u6 in D6, V6.
  split; [|split; [|split]].
  - rewrite V6. destruct (Z.land m (Z.lor PmaskVol PmaskLastVol) =? 0); cbn [negb].
    + reflexivity.
    + destruct (translatePatternVolume _); reflexivity.
  - intros i Hi. rewrite V6, (V5 i Hi). congruence.
  - intros Hm. rewrite V6. unfold u5. rewrite (readVol_absent data m ch u4 Hm).
    congruence.
  - rewrite D6, D5, D4, D3, D2, D1. rewrite !advance_advance.
    f_equal. unfold bytesBesidesVolume. lia.
Qed.

(* With the volume-present bit, the volume an entry carries is that of the
   byte nextByte gives at the volume field. *)
Lemma unpackEntry_explicit_volume (data : list byte) (cs : byte) (u : unpacker) :
  let e := snd (unpackEntry data cs u) in
  Z.land (entryMask data cs u) PmaskVol <> 0 ->
  length (lastVol u) = 64%nat ->
  (common.VolumeCommand e, common.VolumeParam e)
  = translatePatternVolume (byteZ (fst (nextByte data (beforeVolume data cs u)))).
Proof.
  intros e Hbit Hlen.
  destruct (unpackEntry_volume data cs u) as (Hv & _).
  fold e in Hv. rewrite land_lor_nonzero in Hv by (left; exact Hbit).
  rewrite Hv. do 2 f_equal.
  unfold entryMask in Hbit. unfold unpackEntry, beforeVolume. cbn [fst].
  set (ch := channelOf cs) in *.
  set (u2 := readMask data cs ch (trackChannel ch u)) in *.
  set (m := maskOf ch u2) in *.
  set (u4 := readIns data m ch (readNote data m ch u2)).
  destruct (readEffect_spec data m ch (readVol data m ch u4)) as (_ & V6 & _).
  rewrite V6.
  assert (Hlen4 : length (lastVol u4) = 64%nat).
  { destruct (trackChannel_spec ch u) as (_ & _ & V1 & _).
    destruct (readMask_spec data cs ch (trackChannel ch u)) as (_ & V2 & _).
    destruct (readNote_spec data m ch u2) as (_ & V3 & _).
    destruct (readIns_spec data m ch (readNote data m ch u2)) as (_ & V4 & _).
    unfold u4. rewrite V4, V3. unfold u2. rewrite V2, V1. exact Hlen. }
  unfold readVol. apply Z.eqb_neq in Hbit. rewrite Hbit. cbn [negb].
  pose proof (nextByte_frame data u4) as Hf. cbn zeta in Hf.
  destruct (nextByte data u4) as [b u5]. cbn [fst snd] in *.
  destruct Hf as (_ & _ & _ & HV & _).
  proj_simpl. rewrite list_lookup_total_insert_eq; [reflexivity|].
  pose proof (channelOf_range cs). fold ch in H. rewrite HV, Hlen4. lia.
Qed.

(* A trip that takes no volume byte for a channel leaves its last volume. *)
Lemma quiet_trip_lastVol (data : list byte) (ch : Z) (u : unpacker) :
  0 <= ch ->
  takesVolume data ch u = false ->
  lastVol (tripState data u) !!! Z.to_nat ch = lastVol u !!! Z.to_nat ch.
Proof.
  intros Hch. unfold takesVolume, tripState.
  pose proof (nextByte_frame data u) as Hf. cbn zeta in Hf.
  destruct (nextByte data u) as [cs u1]. cbn [fst snd] in Hf.
  destruct Hf as (_ & _ & _ & Hv & _).
  destruct (byteZ cs =? 0); cbn [negb andb]; [congruence|].
  destruct (unpackEntry_volume data cs u1) as (_ & Hother & Hsame & _).
  pose proof (channelOf_range cs) as Hr.
  destruct (Z.eqb_spec (channelOf cs) ch) as [Heq|Hne]; cbn [andb].
  - destruct (Z.eqb_spec (Z.land (entryMask data cs u1) PmaskVol) 0) as [Hz|Hnz];
      cbn [negb]; [|discriminate].
    intros _. rewrite (Hsame Hz). congruence.
  - intros _. rewrite Hother by lia. congruence.
Qed.

Lemma quietTrips_lastVol (data : list byte) (ch : Z) (n : nat) :
  forall u u',
    0 <= ch ->
    quietTrips n data ch u = Some u' ->
    lastVol u' !!! Z.to_nat ch = lastVol u !!! Z.to_nat ch.
Proof.
  induction n as [|n IH]; intros u u' Hch; cbn [quietTrips].
  - intros [= <-]. reflexivity.
  - destruct (takesVolume data ch u) eqn:Hq; [discriminate|].
    intros Hrun. rewrite (IH _ _ Hch Hrun). apply quiet_trip_lastVol; assumption.
Qed.

(* One turn of the inner loop of ToCommon is a trip. *)
Lemma unpackRow_trip (fuel : nat) (data : list byte) (u : unpacker)
    (es : list common.PatternEntry) :
  unpackRow (S fuel) data u es =
    let (cs, u1) := nextByte data u in
    if byteZ cs =? 0 then Some (tripState data u, es)
    else unpackRow fuel data (tripState data u)
                   (es ++ [snd (unpackEntry data cs u1)]).
Proof.
  cbn [unpackRow]. unfold tripState.
  destruct (nextByte data u) as [cs u1].
  destruct (byteZ cs =? 0); [reflexivity|].
  destruct (unpackEntry data cs u1); reflexivity.
Qed.


(* The same on a whole pattern: channel 0 gets volume 0x20 in the first row;
   the second row selects it with mask 0x40 and nothing else. *)
Example ToCommon_repeat_volume :
  ToCommon {| Header := {| DataLength := 7; Rows := 2 |};
              Data := [x81; x04; x20; x00; x81; x40; x00] |}
  = let e := {| common.Channel := 0; common.Note := 0; common.Instrument := 0;
                common.VolumeCommand := 1; common.VolumeParam := 32;
                common.Effect := 0; common.EffectParam := 0 |} in
    Some {| common.Channels := 1;
            common.Rows := [ {| common.Entries := [e] |};
                             {| common.Entries := [e] |} ] |}.
Proof. reflexivity. Qed.



(** *** Missing bytes are read as zero *)

Lemma agree_refl (len : nat) (u : unpacker) : agree len u u.
Proof. unfold agree. repeat split. Qed.

Lemma trackChannel_agree (len : nat) (channel : Z) (u u' : unpacker) :
  agree len u u' -> agree len (trackChannel channel u) (trackChannel channel u').
Proof.
  intros Ha. unfold trackChannel.
  assert (Hc : channels u = channels u') by apply Ha. rewrite <- Hc.
  destruct (channel >=? channels u); [|exact Ha].
  destruct Ha as (? & ? & ? & ? & ? & ? & ? & ?).
  unfold agree; proj_simpl. repeat split; congruence.
Qed.

Section Padding.

(* The data as it is, to be compared with the data followed by [k] zero
   bytes. *)
Variable data : list byte.
Variable k : nat.

(* Past the end of the data nextByte gives what a zero byte there would. *)
Lemma nextByte_padded (u u' : unpacker) :
  agree (length data) u u' ->
  fst (nextByte data u) = fst (nextByte (data ++ replicate k x00) u') /\
  agree (length data) (snd (nextByte data u))
        (snd (nextByte (data ++ replicate k x00) u')).
Proof.
  intros (HM & HN & HI & HV & HE & HP & HC & HD). unfold nextByte.
  destruct (data !! dataRead u) as [b|] eqn:Hl.
  - pose proof (lookup_lt_Some _ _ _ Hl) as Hlt.
    assert (Heq : dataRead u' = dataRead u) by lia.
    rewrite Heq, lookup_app_l, Hl by assumption.
    cbn [fst snd]. split; [reflexivity|].
    unfold agree; proj_simpl. repeat split; try assumption; lia.
  - pose proof (proj1 (lookup_ge_None _ _) Hl) as Hge.
    destruct ((data ++ replicate k x00) !! dataRead u') as [b|] eqn:Hl'.
    + rewrite lookup_app_r in Hl' by lia.
      apply lookup_replicate in Hl'. destruct Hl' as [-> _].
      cbn [fst snd]. split; [reflexivity|].
      unfold agree; proj_simpl. repeat split; try assumption; lia.
    + cbn [fst snd]. split; [reflexivity|].
      unfold agree. repeat split; assumption.
Qed.

(* Runs a step on two states that agree, one over the data and one over the
   data followed by zeros. *)
Ltac padded_step u u' Hagree :=
  let Hb := fresh "Hb" in
  let Ha := fresh "Ha" in
  destruct (nextByte_padded u u' Hagree) as [Hb Ha];
  destruct (nextByte data u) as [? ?];
  destruct (nextByte (data ++ replicate k x00) u') as [? ?];
  cbn [fst snd] in Hb, Ha; subst.

Ltac agree_stored Ha :=
  destruct Ha as (? & ? & ? & ? & ? & ? & ? & ?);
  unfold agree; proj_simpl; repeat split; congruence.

Lemma readMask_padded (cs : byte) (channel : Z)
    (u u' : unpacker) :
  agree (length data) u u' ->
  agree (length data) (readMask data cs channel u)
        (readMask (data ++ replicate k x00) cs channel u').
Proof.
  intros Hagree. unfold readMask.
  destruct (negb (Z.land (byteZ cs) 128 =? 0)); [|exact Hagree].
  padded_step u u' Hagree. agree_stored Ha.
Qed.

Lemma readNote_padded (mask channel : Z)
    (u u' : unpacker) :
  agree (length data) u u' ->
  agree (length data) (readNote data mask channel u)
        (readNote (data ++ replicate k x00) mask channel u').
Proof.
  intros Hagree. unfold readNote.
  destruct (negb (Z.land mask PmaskNote =? 0)); [|exact Hagree].
  padded_step u u' Hagree. agree_stored Ha.
Qed.

Lemma readIns_padded (mask channel : Z)
    (u u' : unpacker) :
  agree (length data) u u' ->
  agree (length data) (readIns data mask channel u)
        (readIns (data ++ replicate k x00) mask channel u').
Proof.
  intros Hagree. unfold readIns.
  destruct (negb (Z.land mask PmaskIns =? 0)); [|exact Hagree].
  padded_step u u' Hagree. agree_stored Ha.
Qed.

Lemma readVol_padded (mask channel : Z)
    (u u' : unpacker) :
  agree (length data) u u' ->
  agree (length data) (readVol data mask channel u)
        (readVol (data ++ replicate k x00) mask channel u').
Proof.
  intros Hagree. unfold readVol.
  destruct (negb (Z.land mask PmaskVol =? 0)); [|exact Hagree].
  padded_step u u' Hagree. agree_stored Ha.
Qed.

Lemma readEffect_padded (mask channel : Z)
    (u u' : unpacker) :
  agree (length data) u u' ->
  agree (length data) (readEffect data mask channel u)
        (readEffect (data ++ replicate k x00) mask channel u').
Proof.
  intros Hagree. unfold readEffect.
  destruct (negb (Z.land mask PmaskEffect =? 0)); [|exact Hagree].
  padded_step u u' Hagree.
  match goal with
  | |- context [nextByte data ?v] =>
      match goal with
      | |- context [nextByte (data ++ replicate k x00) ?v'] =>
          assert (Hagree' : agree (length data) v v') by agree_stored Ha;
          padded_step v v' Hagree'
      end
  end.
  agree_stored Ha0.
Qed.

Lemma unpackEntry_padded (cs : byte) (u u' : unpacker) :
  agree (length data) u u' ->
  snd (unpackEntry data cs u) = snd (unpackEntry (data ++ replicate k x00) cs u') /\
  agree (length data) (fst (unpackEntry data cs u))
        (fst (unpackEntry (data ++ replicate k x00) cs u')).
Proof.
  intros H0. unfold unpackEntry. cbn [fst snd].
  set (ch := channelOf cs).
  pose proof (trackChannel_agree (length data) ch u u' H0) as H1.
  pose proof (readMask_padded cs ch _ _ H1) as H2.
  assert (Hm : maskOf ch (readMask data cs ch (trackChannel ch u))
               = maskOf ch (readMask (data ++ replicate k x00) cs ch
                                     (trackChannel ch u'))).
  { unfold maskOf. f_equal. f_equal. apply H2. }
  rewrite <- Hm.
  set (m := maskOf ch (readMask data cs ch (trackChannel ch u))).
  pose proof (readNote_padded m ch _ _ H2) as H3.
  pose proof (readIns_padded m ch _ _ H3) as H4.
  pose proof (readVol_padded m ch _ _ H4) as H5.
  pose proof (readEffect_padded m ch _ _ H5) as H6.
  split; [|exact H6].
  destruct H3 as (_ & N3 & _). destruct H4 as (_ & _ & I4 & _).
  destruct H5 as (_ & _ & _ & V5 & _). destruct H6 as (_ & _ & _ & _ & E6 & P6 & _).
  rewrite N3, I4, V5, E6, P6. reflexivity.
Qed.

Lemma unpackRow_padded (fuel : nat) :
  forall (fuel' : nat) (u u' : unpacker) (es : list common.PatternEntry),
    agree (length data) u u' ->
    (length data - dataRead u < fuel)%nat ->
    (length (data ++ replicate k x00) - dataRead u' < fuel')%nat ->
    exists v v' es',
      unpackRow fuel data u es = Some (v, es') /\
      unpackRow fuel' (data ++ replicate k x00) u' es = Some (v', es') /\
      agree (length data) v v'.
Proof.
  induction fuel as [|fuel IH]; intros fuel' u u' es Hagree Hf Hf'; [lia|].
  destruct fuel' as [|fuel']; [lia|].
  cbn [unpackRow].
  destruct (nextByte_padded u u' Hagree) as [Hb Ha].
  pose proof (nextByte_cursor data u) as Hc.
  pose proof (nextByte_cursor (data ++ replicate k x00) u') as Hc'.
  assert (Hz : (length data <= dataRead u)%nat -> byteZ (fst (nextByte data u)) = 0)
    by (intros Hge; rewrite (nextByte_end data u Hge); reflexivity).
  assert (Hz' : (length (data ++ replicate k x00) <= dataRead u')%nat ->
                byteZ (fst (nextByte (data ++ replicate k x00) u')) = 0)
    by (intros Hge; rewrite (nextByte_end _ u' Hge); reflexivity).
  destruct (nextByte data u) as [cs u1].
  destruct (nextByte (data ++ replicate k x00) u') as [cs' u1'].
  cbn [fst snd] in Hb, Ha, Hc, Hc', Hz, Hz'. subst cs'.
  destruct (Z.eqb_spec (byteZ cs) 0) as [H0|Hn0].
  { exists u1, u1', es. split; [reflexivity|]. split; [reflexivity|]. exact Ha. }
  destruct (unpackEntry_padded cs u1 u1' Ha) as [He Ha2].
  destruct (unpackEntry_spec data cs u1) as (_ & _ & Hd).
  destruct (unpackEntry_spec (data ++ replicate k x00) cs u1') as (_ & _ & Hd').
  destruct (unpackEntry data cs u1) as [u2 e].
  destruct (unpackEntry (data ++ replicate k x00) cs u1') as [u2' e'].
  cbn [fst snd] in He, Ha2, Hd, Hd'. subst e'.
  unfold advance in Hc, Hc'.
  apply (IH fuel' u2 u2' (es ++ [e]) Ha2); lia.
Qed.

Lemma unpackRows_padded (rows : nat) :
  forall (u u' : unpacker) (acc : list common.PatternRow),
    agree (length data) u u' ->
    exists v v' acc',
      unpackRows rows data u acc = Some (v, acc') /\
      unpackRows rows (data ++ replicate k x00) u' acc = Some (v', acc') /\
      agree (length data) v v'.
Proof.
  induction rows as [|rows IH]; intros u u' acc Hagree; cbn [unpackRows].
  - exists u, u', acc. split; [reflexivity|]. split; [reflexivity|]. exact Hagree.
  - destruct (unpackRow_padded (S (length data))
                (S (length (data ++ replicate k x00))) u u' [] Hagree
                ltac:(lia) ltac:(lia)) as (v & v' & es & Hr & Hr' & Ha).
    rewrite Hr, Hr'. apply IH, Ha.
Qed.

(* ToCommon cannot tell data that ends early from data that goes on with
   zero bytes. *)
Lemma ToCommon_padded (hdr : ItPatternHeader) :
  ToCommon {| Header := hdr; Data := data ++ replicate k x00 |}
  = ToCommon {| Header := hdr; Data := data |}.
Proof.
  unfold ToCommon; cbn [Header Data].
  destruct (unpackRows_padded (Z.to_nat (Rows hdr)) newUnpacker newUnpacker []
              (agree_refl _ _)) as (v & v' & acc & Hr & Hr' & Ha).
  rewrite Hr, Hr'.
  destruct Ha as (_ & _ & _ & _ & _ & _ & Hc & _). rewrite Hc. reflexivity.
Qed.

End Padding.


(** * Further properties *)

(** ** The bit reader *)

(** X1: a read with an accepted width that the stream can serve returns
    exactly the next [width] bits of the source, those from the current bit
    position on, and moves the position by [width]; the stream is any one
    reached from createBitstream by earlier reads, failed or not. *)
Theorem read_returns_next_bits (src : list byte) (widths : list Z) (w : Z) :
  let bs := fst (reads (createBitstream src) widths) in
  let pos := 8 * Z.of_nat (length src) - bitsAvailable bs in
  0 <= w < 32 -> w <= bitsAvailable bs ->
  0 <= pos /\
  exists bs',
    read bs w = (bs', Ok ((le_value src / 2 ^ pos) mod 2 ^ w)) /\
    bitsAvailable bs' = bitsAvailable bs - w.
Proof.
  intros bs pos Hw Hfit.
  destruct (tracks_reads src widths _ (tracks_create src))
    as (Hwf & _ & Hav & Hval).
  fold bs in Hwf, Hav, Hval. fold pos in Hval.
  split; [unfold pos; lia|].
  destruct (read_ok bs w Hwf Hw Hfit) as (bs' & Hr & _ & _ & _ & Ha).
  exists bs'. rewrite Hr, Hval. split; [reflexivity|exact Ha].
Qed.

Lemma read_returns_next_bits_witness :
  (0 <= 8 < 32 /\ 8 <= bitsAvailable (fst (reads (createBitstream [xab; xcd]) [4]))) /\
  snd (read (fst (reads (createBitstream [xab; xcd]) [4])) 8) = Ok 218.
Proof.
  split; [vm_compute; repeat split; discriminate|].
  destruct (read_returns_next_bits [xab; xcd] [4] 8 ltac:(lia)
              ltac:(vm_compute; discriminate)) as (_ & bs' & Hr & _).
  rewrite Hr. reflexivity.
Defined.

Lemma le_value_cons_mod (b : byte) (t : list byte) :
  le_value (b :: t) mod 2 ^ 8 = byteZ b /\ le_value (b :: t) / 2 ^ 8 = le_value t.
Proof.
  cbn [le_value]. pose proof (byteZ_range b) as Hb.
  replace (byteZ b + 2 ^ 8 * le_value t) with (byteZ b + le_value t * 2 ^ 8) by lia.
  split.
  - rewrite Z.mod_add by lia. apply Z.mod_small, Hb.
  - rewrite Z.div_add by lia. rewrite Z.div_small by exact Hb. lia.
Qed.

(* Byte-wide reads of a stream that stands for the bytes [l]. *)
Lemma reads_bytes (l : list byte) :
  forall bs,
    wf bs -> streamValue bs = le_value l ->
    bitsAvailable bs = 8 * Z.of_nat (length l) ->
    snd (reads bs (replicate (length l) 8 ++ [8]))
    = map (fun b => Ok (byteZ b)) l ++ [Err ErrEndOfStream].
Proof.
  induction l as [|b t IH]; intros bs Hwf Hval Hav.
  - cbn [length replicate app reads map].
    destruct (read_eos bs 8 Hwf ltac:(lia) ltac:(cbn [length] in Hav; lia))
      as (bs' & -> & _). reflexivity.
  - cbn [length replicate app reads map].
    destruct (read_ok bs 8 Hwf ltac:(lia) ltac:(cbn [length] in Hav; lia))
      as (bs' & Hr & Hwf' & _ & Hv' & Ha').
    rewrite Hr. destruct (le_value_cons_mod b t) as [Hm Hd].
    specialize (IH bs' Hwf').
    rewrite Hv', Hval, Hd in IH. rewrite Hval, Hm.
    specialize (IH eq_refl ltac:(cbn [length] in Hav; lia)).
    destruct (reads bs' _) as [bs2 rs].
    cbn [snd] in IH. subst rs. reflexivity.
Qed.

(** X2: read 8 bits at a time, a fresh stream gives back the bytes of its
    source, in order and unchanged, and the read after the last byte fails
    with EndOfStream. *)
Theorem reads_by_byte (src : list byte) :
  snd (reads (createBitstream src) (replicate (length src) 8 ++ [8]))
  = map (fun b => Ok (byteZ b)) src ++ [Err ErrEndOfStream].
Proof.
  apply reads_bytes.
  - apply wf_create.
  - unfold streamValue, createBitstream; cbn [source readPos buffer buffered].
    rewrite drop_0, Z.pow_0_r. lia.
  - unfold bitsAvailable, createBitstream; cbn [source readPos buffered]. lia.
Qed.

(** ** The sample codec *)

Lemma byteOf_mod (z : Z) (b : byte) : z mod 2 ^ 8 = byteZ b -> byteOf z = b.
Proof.
  intros H. unfold byteOf. rewrite H. unfold byteZ.
  rewrite N2Z.id, Byte.of_to_N. reflexivity.
Qed.

Lemma frame_cons (b0 b1 : byte) (payload : list byte) :
  Z.of_nat (length payload) = Z.lor (byteZ b0) (Z.shiftl (byteZ b1) 8) ->
  frame payload = b0 :: b1 :: payload.
Proof.
  intros HL. unfold frame. rewrite HL.
  pose proof (byteZ_range b0) as H0. pose proof (byteZ_range b1) as H1.
  rewrite lor_shiftl_add by lia.
  f_equal; [|f_equal]; apply byteOf_mod.
  - rewrite Z.mod_add by lia. apply Z.mod_small, H0.
  - rewrite Z.div_add by lia. rewrite (Z.div_small (byteZ b0)) by exact H0.
    apply Z.mod_small. lia.
Qed.

(** X3: getChunk succeeds exactly on a reader that starts with a whole chunk
    (two length bytes, little-endian, and that many payload bytes): it then
    returns a fresh bit stream over the payload and the reader just after
    it.  Otherwise it fails, with io.EOF when the reader is empty or ends
    right after the length of a non-empty chunk, and with
    io.ErrUnexpectedEOF when the length or the payload is cut short. *)
Theorem getChunk_exact (r : list byte) :
  match getChunk r with
  | Ok (bs, r') =>
      exists payload,
        Z.of_nat (length payload) < 2 ^ 16 /\
        r = frame payload ++ r' /\ bs = createBitstream payload
  | Err e =>
      (forall payload rest,
          Z.of_nat (length payload) < 2 ^ 16 -> r <> frame payload ++ rest) /\
      ((e = EOF /\ (length r = 0 \/ length r = 2)%nat) \/
       (e = ErrUnexpectedEOF /\ length r <> 0%nat /\ length r <> 2%nat))
  end.
Proof.
  destruct (getChunk r) as [[bs r']|e] eqn:Hg.
  - unfold getChunk, readUint16 in Hg.
    destruct r as [|b0 [|b1 r1]]; try discriminate.
    destruct (readBytes _ r1) as [[bytes r2]|e] eqn:Hrb; [|discriminate].
    injection Hg as <- <-.
    pose proof (byteZ_range b0) as H0. pose proof (byteZ_range b1) as H1.
    assert (HL : 0 <= Z.lor (byteZ b0) (Z.shiftl (byteZ b1) 8) < 2 ^ 16)
      by (rewrite lor_shiftl_add by lia; lia).
    assert (Hparts : r1 = bytes ++ r2 /\
                     length bytes = Z.to_nat (Z.lor (byteZ b0) (Z.shiftl (byteZ b1) 8))).
    { pose proof (readBytes_length _ _ _ _ Hrb) as [Hlen _].
      split; [|exact Hlen].
      unfold readBytes in Hrb.
      destruct (_ =? 0)%nat; [injection Hrb as <- <-; reflexivity|].
      destruct (length r1 =? 0)%nat; [discriminate|].
      destruct (length r1 <? _)%nat; [discriminate|].
      injection Hrb as <- <-. symmetry. apply take_drop. }
    destruct Hparts as [-> Hlen].
    exists bytes. split; [lia|]. split; [|reflexivity].
    rewrite (frame_cons b0 b1) by lia. reflexivity.
  - split.
    { intros payload rest Hlen ->. rewrite getChunk_frame in Hg by exact Hlen.
      discriminate. }
    unfold getChunk, readUint16 in Hg.
    destruct r as [|b0 [|b1 r1]].
    + injection Hg as <-. left. split; [reflexivity|left; reflexivity].
    + injection Hg as <-. right. cbn. repeat split; discriminate.
    + destruct (readBytes _ r1) as [[bytes r2]|e'] eqn:Hrb; [discriminate|].
      injection Hg as ->. unfold readBytes in Hrb.
      destruct (_ =? 0)%nat; [discriminate|].
      destruct (length r1 =? 0)%nat eqn:Hz.
      * injection Hrb as <-. apply Nat.eqb_eq in Hz.
        left. split; [reflexivity|]. right. cbn [length]. lia.
      * destruct (length r1 <? _)%nat; [|discriminate].
        injection Hrb as <-. apply Nat.eqb_neq in Hz.
        right. cbn [length]. repeat split; lia.
Qed.

(** X4: a width change through changeWidth, with a delta the escapes of
    modes A and B can carry (mode A reads it in fetchA bits, mode B takes it
    from a window of as many values), gives a width between 1 and the
    maximum width that differs from the current one: only the absolute
    escape of mode C can set a width the loop rejects. *)
Theorem changeWidth_in_range (c : ItSampleCodec) (t : Z) (st : chunkState) :
  let props := if Is16 c then ItSampleCodecParams16 else ItSampleCodecParams8 in
  0 <= t < 2 ^ fetchA props ->
  upperB props - lowerB props + 1 = 2 ^ fetchA props /\
  1 <= width (changeWidth t st) <= defWidth props /\
  width (changeWidth t st) <> width st.
Proof.
  intros props Ht. unfold changeWidth, withWidth; cbn [width].
  unfold props in *.
  destruct (Is16 c);
    cbn [fetchA defWidth upperB lowerB ItSampleCodecParams8 ItSampleCodecParams16] in *;
    (split; [reflexivity|]);
    destruct (Z.geb_spec (t + 1) (width st)); lia.
Qed.

Lemma changeWidth_in_range_witness :
  let st := mkChunkState (createBitstream []) 5 0 0 [] 1 in
  0 <= 7 < 2 ^ fetchA ItSampleCodecParams8 /\
  (upperB ItSampleCodecParams8 - lowerB ItSampleCodecParams8 + 1
   = 2 ^ fetchA ItSampleCodecParams8 /\
   1 <= width (changeWidth 7 st) <= defWidth ItSampleCodecParams8 /\
   width (changeWidth 7 st) <> width st).
Proof.
  intros st.
  assert (H : 0 <= 7 < 2 ^ fetchA ItSampleCodecParams8)
    by (vm_compute; split; discriminate || reflexivity).
  split; [exact H|].
  exact (changeWidth_in_range (mkCodec false false) 7 st H).
Defined.

Lemma getChunk_error_kind (r : list byte) (e : error) :
  getChunk r = Err e -> e = EOF \/ e = ErrUnexpectedEOF.
Proof.
  unfold getChunk, readUint16.
  destruct r as [|b0 [|b1 r1]]; [intros [= <-]; tauto..|].
  unfold readBytes.
  destruct (_ =? 0)%nat; [discriminate|].
  destruct (length r1 =? 0)%nat; [intros [= <-]; tauto|].
  destruct (length r1 <? _)%nat; [intros [= <-]; tauto|discriminate].
Qed.

(* The block loop fails only for want of bits or on a width beyond the
   maximum: the widths it asks of the bit reader are always accepted. *)
Lemma decodeLoop_error_kind (c : ItSampleCodec) (props : ItSampleCodecParams)
    (fuel : nat) :
  usableParams props ->
  forall st e,
    wf (dataSource st) -> 1 <= width st ->
    decodeLoop fuel c props st = Some (Err e) ->
    e = ErrEndOfStream \/ e = ErrDecodingError.
Proof.
  intros [HfA HdW].
  induction fuel as [|fuel IH]; intros st e Hwf Hwidth; cbn [decodeLoop].
  { destruct (curLength st >? 0); discriminate. }
  destruct (curLength st >? 0); [|discriminate].
  destruct (width st >? defWidth props) eqn:Hover; [intros [= <-]; tauto|].
  apply gtb_false in Hover.
  destruct (read_cases (dataSource st) (width st) Hwf ltac:(lia))
    as [(ds & v & Hr & Hwf1 & Hv & _)|(ds & Hr & _)]; rewrite Hr;
    [|intros [= <-]; tauto].
  cbn [withSource width dataSource].
  assert (Hwrite : forall x t,
    decodeLoop fuel c props (write c x t (withSource ds st)) = Some (Err e) ->
    e = ErrEndOfStream \/ e = ErrDecodingError).
  { intros x t. apply IH.
    - destruct (write_spec c x t (withSource ds st)) as (_ & -> & _). exact Hwf1.
    - destruct (write_spec c x t (withSource ds st)) as (-> & _). exact Hwidth. }
  assert (Hchange : forall t ds', 0 <= t -> wf ds' ->
    decodeLoop fuel c props (changeWidth t (withSource ds' st)) = Some (Err e) ->
    e = ErrEndOfStream \/ e = ErrDecodingError).
  { intros t ds' Ht Hwf'. apply IH.
    - destruct (changeWidth_spec t (withSource ds' st) Ht) as (_ & -> & _). exact Hwf'.
    - destruct (changeWidth_spec t (withSource ds' st) Ht) as (Hw & _). exact Hw. }
  destruct (width st <=? 6).
  - destruct (v =? Z.shiftl 1 (width st - 1)).
    + destruct (read_cases ds (fetchA props) Hwf1 HfA)
        as [(ds' & t & Hr' & Hwf' & Ht & _)|(ds' & Hr' & _)]; rewrite Hr'.
      * apply Hchange; [lia|exact Hwf'].
      * intros [= <-]; tauto.
    + apply Hwrite.
  - destruct (width st <? defWidth props).
    + destruct ((v >=? Z.shiftl 1 (width st - 1) + lowerB props)
                && (v <=? Z.shiftl 1 (width st - 1) + upperB props)) eqn:Hwin.
      * apply andb_true_iff in Hwin. destruct Hwin as [Hlo _].
        apply Z.geb_le in Hlo. apply (Hchange _ ds); [lia|exact Hwf1].
      * apply Hwrite.
    + destruct (negb (Z.land v (Z.shiftl 1 (width st - 1)) =? 0)).
      * apply IH; [exact Hwf1|]. cbn [withWidth width].
        assert (0 <= Z.land v (Z.lnot (Z.shiftl 1 (width st - 1))))
          by (apply Z.land_nonneg; lia).
        lia.
      * apply Hwrite.
Qed.

Lemma decodeChunk_error_kind (c : ItSampleCodec) (r : list byte) (n : Z) (e : error) :
  decodeChunk c r n = Some (Err e) -> decodeError e.
Proof.
  unfold decodeChunk, decodeError.
  destruct (getChunk r) as [[bs r']|e'] eqn:Hg.
  2:{ intros [= <-]. apply getChunk_error_kind in Hg. tauto. }
  destruct (getChunk_spec r bs r' Hg) as [[bytes ->] _].
  match goal with
  | |- context [decodeLoop ?f c ?p ?st] =>
      pose proof (decodeLoop_error_kind c p f) as Hloop;
      destruct (decodeLoop f c p st) as [[d|e']|] eqn:Hd; try discriminate
  end.
  intros [= <-].
  assert (Hu : usableParams
                 (if Is16 c then ItSampleCodecParams16 else ItSampleCodecParams8))
    by (destruct (Is16 c); [apply usable16|apply usable8]).
  eapply (Hloop Hu) in Hd.
  - tauto.
  - cbn [dataSource]. apply wf_create.
  - cbn [width]. destruct (Is16 c); cbn; lia.
Qed.

(** X5: whatever the reader holds, an error of Decode is io.EOF or
    io.ErrUnexpectedEOF (a chunk could not be read), ErrEndOfStream (a chunk
    ran out of bits) or ErrDecodingError (a width beyond the maximum):
    Decode never fails with ErrBadParam, the widths it asks of the bit reader
    are always between 1 and the maximum width. *)
Theorem Decode_error_kinds (c : ItSampleCodec) (r : list byte) (sampleLength : Z) :
  match Decode c r sampleLength with
  | Some (Err e) => decodeError e
  | _ => True
  end.
Proof.
  revert sampleLength.
  induction r as [r IH] using (induction_ltof1 _ (@length byte)).
  unfold ltof in IH. intros n.
  destruct (Z.le_gt_cases n 0) as [Hle|Hgt].
  { unfold Decode. cbn [DecodeLoop].
    destruct (n >? 0) eqn:Hn; [apply gtb_true in Hn; lia|exact I]. }
  rewrite Decode_unfold by lia.
  destruct (decodeChunk_spec c r n) as (res & Hres & Hspec).
  rewrite Hres. destruct res as [[chunk r']|e].
  - destruct Hspec as (_ & _ & Hshort).
    specialize (IH r' ltac:(lia) (n - Z.of_nat (length chunk))).
    destruct (Decode c r' _) as [[more|e]|]; cbn [prepend]; exact IH || exact I.
  - apply (decodeChunk_error_kind c r n e Hres).
Qed.

(** X6: blocks are isolated.  Decoding a chunk depends on the chunk's own
    bytes only: whatever follows it in the reader, the samples or the error
    are those of the chunk alone, and the reader is left at the first byte
    after the chunk. *)
Theorem decodeChunk_isolated (c : ItSampleCodec) (payload rest : list byte) (n : Z) :
  Z.of_nat (length payload) < 2 ^ 16 ->
  match decodeChunk c (frame payload) n with
  | Some (Ok (chunk, _)) =>
      decodeChunk c (frame payload ++ rest) n = Some (Ok (chunk, rest))
  | other => decodeChunk c (frame payload ++ rest) n = other
  end.
Proof.
  intros Hlen. rewrite (decodeChunk_frame c payload rest n Hlen).
  destruct (decodeChunk c (frame payload) n) as [[[chunk r']|e]|]; reflexivity.
Qed.

Lemma decodeChunk_isolated_witness :
  Z.of_nat (length [xc8; x90; x01]) < 2 ^ 16 /\
  decodeChunk (mkCodec false false) (frame [xc8; x90; x01] ++ [xff; xff; xff]) 2
  = Some (Ok ([200; 400], [xff; xff; xff])).
Proof.
  split; [reflexivity|].
  exact (decodeChunk_isolated (mkCodec false false) [xc8; x90; x01]
           [xff; xff; xff] 2 eq_refl).
Defined.

Lemma int16_mod (x y : Z) : x mod 2 ^ 16 = y mod 2 ^ 16 -> int16 x = int16 y.
Proof.
  intros H. unfold int16.
  rewrite <- (Zplus_mod_idemp_l x), <- (Zplus_mod_idemp_l y), H. reflexivity.
Qed.

Lemma int16_mod_self (x : Z) : int16 x mod 2 ^ 16 = x mod 2 ^ 16.
Proof.
  unfold int16.
  rewrite (Z.mod_eq (x + 2 ^ 15) (2 ^ 16)) by lia.
  replace (x + 2 ^ 15 - 2 ^ 16 * ((x + 2 ^ 15) / 2 ^ 16) - 2 ^ 15)
    with (x + (- ((x + 2 ^ 15) / 2 ^ 16)) * 2 ^ 16) by lia.
  apply Z.mod_add. lia.
Qed.

Lemma int_mod16 (x : Z) : int x mod 2 ^ 16 = x mod 2 ^ 16.
Proof.
  unfold int.
  rewrite (Z.mod_eq (x + 2 ^ 63) (2 ^ 64)) by lia.
  replace (x + 2 ^ 63 - 2 ^ 64 * ((x + 2 ^ 63) / 2 ^ 64) - 2 ^ 63)
    with (x + (- (2 ^ 48 * ((x + 2 ^ 63) / 2 ^ 64))) * 2 ^ 16) by lia.
  apply Z.mod_add. lia.
Qed.

Lemma runningSums_snoc (l : list Z) :
  forall acc x,
    runningSums acc (l ++ [x]) = runningSums acc l ++ [int16 (sum16 acc l + x)] /\
    sum16 acc (l ++ [x]) = int16 (sum16 acc l + x).
Proof.
  induction l as [|y t IH]; intros acc x; cbn [app runningSums sum16 fold_left].
  - split; reflexivity.
  - destruct (IH (int16 (acc + y)) x) as [Hr Hs]. unfold sum16 in *.
    rewrite Hr, Hs. split; reflexivity.
Qed.

(* A sample written keeps the two decodes in step. *)
Lemma write_sameBlock (b : bool) (v topBit : Z) (st1 st2 : chunkState) :
  sameBlock st1 st2 ->
  sameBlock (write (mkCodec false b) v topBit st1) (write (mkCodec true b) v topBit st2).
Proof.
  intros (Hd & Hw & H1 & H2 & Hc & Hdec & Hsum).
  unfold sameBlock, write; cbn [dataSource width mem1 mem2 decoded curLength It215].
  rewrite Hd, Hw, H1, H2, Hc, Hdec.
  set (v' := if negb (Z.land v topBit =? 0) then v - Z.shiftl topBit 1 else v).
  destruct (runningSums_snoc (decoded st1) 0 (int16 (int (mem1 st1 + v')))) as [Hr Hs].
  assert (Hkey : int16 (int (mem2 st1 + int (mem1 st1 + v')))
                 = int16 (sum16 0 (decoded st1) + int16 (int (mem1 st1 + v')))).
  { apply int16_mod. rewrite int_mod16, <- Hsum.
    rewrite (Z.add_mod (int16 _) (int16 _)) by lia.
    rewrite (int16_mod_self (mem2 st1)), (int16_mod_self (int (mem1 st1 + v'))).
    rewrite <- Z.add_mod by lia. reflexivity. }
  repeat split; try reflexivity.
  - rewrite Hr, Hkey. reflexivity.
  - rewrite Hs, <- Hkey. reflexivity.
Qed.

Lemma decodeLoop_It215 (b : bool) (props : ItSampleCodecParams) (fuel : nat) :
  forall st1 st2,
    sameBlock st1 st2 ->
    decodeLoop fuel (mkCodec true b) props st2
    = integrate (decodeLoop fuel (mkCodec false b) props st1).
Proof.
  induction fuel as [|fuel IH]; intros st1 st2 Hsame;
    pose proof Hsame as (Hd & Hw & H1 & H2 & Hc & Hdec & Hsum);
    cbn [decodeLoop]; rewrite Hc.
  { destruct (curLength st1 >? 0); cbn [integrate]; [reflexivity|].
    rewrite Hdec. reflexivity. }
  destruct (curLength st1 >? 0); [|cbn [integrate]; rewrite Hdec; reflexivity].
  rewrite Hw, Hd.
  destruct (width st1 >? defWidth props); [reflexivity|].
  destruct (read (dataSource st1) (width st1)) as [ds [vu|e]]; [|reflexivity].
  cbn [withSource width dataSource]. rewrite Hw.
  assert (Hsrc : forall ds', sameBlock (withSource ds' st1) (withSource ds' st2)).
  { intros ds'. unfold sameBlock, withSource;
      cbn [dataSource width mem1 mem2 decoded curLength]. tauto. }
  assert (Hcw : forall t ds',
    sameBlock (changeWidth t (withSource ds' st1)) (changeWidth t (withSource ds' st2))).
  { intros t ds'. unfold sameBlock, changeWidth, withWidth, withSource;
      cbn [dataSource width mem1 mem2 decoded curLength]. rewrite Hw. tauto. }
  destruct (width st1 <=? 6).
  - destruct (vu =? Z.shiftl 1 (width st1 - 1)).
    + destruct (read ds (fetchA props)) as [ds' [t|e]]; [|reflexivity].
      apply IH, Hcw.
    + apply IH, write_sameBlock, Hsrc.
  - destruct (width st1 <? defWidth props).
    + destruct ((vu >=? _) && (vu <=? _)).
      * apply IH, (Hcw _ ds).
      * apply IH, write_sameBlock, Hsrc.
    + destruct (negb (Z.land vu (Z.shiftl 1 (width st1 - 1)) =? 0)).
      * apply IH. unfold sameBlock, withWidth, withSource;
          cbn [dataSource width mem1 mem2 decoded curLength]. tauto.
      * apply IH, write_sameBlock, Hsrc.
Qed.

(** X7: for every chunk, the block an IT 2.15 (second-order) decode gives is
    the running sum, in int16 arithmetic and starting from 0, of the block
    the first-order decode gives for the same chunk; the two decodes fail on
    the same chunks with the same error and leave the reader at the same
    place. *)
Theorem decodeChunk_It215_integrates (is16 : bool) (r : list byte) (n : Z) :
  decodeChunk (mkCodec true is16) r n =
    match decodeChunk (mkCodec false is16) r n with
    | Some (Ok (chunk, r')) => Some (Ok (runningSums 0 chunk, r'))
    | other => other
    end.
Proof.
  unfold decodeChunk. cbn [Is16].
  destruct (getChunk r) as [[bs r']|e]; [|reflexivity].
  match goal with
  | |- context [decodeLoop ?f (mkCodec false is16) ?p ?st] =>
      rewrite (decodeLoop_It215 is16 p f st st);
      [destruct (decodeLoop f (mkCodec false is16) p st) as [[d|e]|]; reflexivity|]
  end.
  unfold sameBlock; cbn [dataSource width mem1 mem2 decoded curLength].
  repeat split.
Qed.

(** ** Pattern unpacking *)

(** X8: translateNote never returns 0, the value that stands for "no note":
    a raw note up to 120 becomes the note plus one, 254 and 255 (note cut, note
    off) stay as they are, and every other raw value becomes 253 (fade);
    the last branch of the function, which returns 0, is never taken. *)
Theorem translateNote_cases (note : Z) :
  0 <= note <= 255 ->
  translateNote note <> 0 /\
  ((note <= 120 /\ translateNote note = note + 1) \/
   (121 <= note <= 253 /\ translateNote note = 253) \/
   (254 <= note /\ translateNote note = note)).
Proof.
  intros Hn. unfold translateNote.
  destruct (Z.leb_spec note 120).
  - rewrite uint8_small by lia. split; [lia|]. left. split; [lia|reflexivity].
  - destruct (Z.eqb_spec note 254); [cbn [orb]; split; [lia|right; right; lia]|].
    destruct (Z.eqb_spec note 255); [cbn [orb]; split; [lia|right; right; lia]|].
    cbn [orb]. destruct (Z.geb_spec note 120); [|lia].
    split; [lia|]. right; left. lia.
Qed.

Lemma translateNote_cases_witness :
  0 <= 200 <= 255 /\ translateNote 200 = 253.
Proof.
  split; [lia|].
  destruct (translateNote_cases 200 ltac:(lia)) as [_ [[H _]|[[_ H]|[H _]]]];
    [lia|exact H|lia].
Defined.

(* The volume column byte by byte: its command and parameter, and the raw
   byte they come from. *)
Lemma translatePatternVolume_byte (b : byte) :
  let v := byteZ b in
  let cmd := fst (translatePatternVolume v) in
  let param := snd (translatePatternVolume v) in
  (cmd <> 0 -> volumeByte cmd param = v) /\
  0 <= cmd <= 10 /\
  (cmd = 0 -> param = 0) /\
  (cmd = 1 -> 0 <= param <= 64) /\
  (cmd = 8 -> param = 0 /\ v = 128) /\
  (2 <= cmd <= 6 \/ cmd = 10 -> 0 <= param <= 9) /\
  (cmd = 7 -> 246 <= param <= 255) /\
  (cmd = 9 -> 0 <= param <= 73).
Proof.
  intros v cmd param. subst cmd param v.
  destruct b;
    match goal with
    | |- context [byteZ ?x] =>
        let n := eval vm_compute in (byteZ x) in
        change (byteZ x) with n
    end;
    match goal with
    | |- context [translatePatternVolume ?n] =>
        let t := eval vm_compute in (translatePatternVolume n) in
        change (translatePatternVolume n) with t
    end;
    cbn [fst snd volumeByte]; repeat split; intros; lia.
Qed.

(** X9: the volume column keeps what it is given: two raw bytes that
    translate to the same command and parameter, the command not being 0
    (empty), are the same byte.  The command is at most 10 and the parameter
    is that of its range: up to 64 for command 1, 0 for command 8 (which
    only the byte 128 gives), up to 9 for commands 2 to 6 and 10, up to 73
    for command 9, and 246 to 255 for command 7. *)
Theorem translatePatternVolume_injective (v1 v2 : Z) :
  0 <= v1 <= 255 -> 0 <= v2 <= 255 ->
  let cmd := fst (translatePatternVolume v1) in
  let param := snd (translatePatternVolume v1) in
  (translatePatternVolume v1 = translatePatternVolume v2 -> cmd <> 0 -> v1 = v2) /\
  0 <= cmd <= 10 /\
  (cmd = 0 -> param = 0) /\
  (cmd = 1 -> 0 <= param <= 64) /\
  (cmd = 8 -> param = 0 /\ v1 = 128) /\
  (2 <= cmd <= 6 \/ cmd = 10 -> 0 <= param <= 9) /\
  (cmd = 7 -> 246 <= param <= 255) /\
  (cmd = 9 -> 0 <= param <= 73).
Proof.
  intros H1 H2.
  assert (Hb : forall v, 0 <= v <= 255 -> v = byteZ (byteOf v))
    by (intros v Hv; rewrite byteZ_byteOf; symmetry; apply Z.mod_small;
        change (2 ^ 8) with 256; lia).
  pose proof (translatePatternVolume_byte (byteOf v1)) as F1.
  pose proof (translatePatternVolume_byte (byteOf v2)) as F2.
  rewrite <- (Hb v1 H1) in F1. rewrite <- (Hb v2 H2) in F2.
  cbv zeta in F1, F2 |- *.
  destruct F1 as (Hinv1 & Hrest). destruct F2 as (Hinv2 & _).
  split; [|exact Hrest].
  intros Heq Hne. rewrite <- (Hinv1 Hne). rewrite Heq in Hne |- *.
  apply Hinv2, Hne.
Qed.

Lemma translatePatternVolume_injective_witness :
  (0 <= 70 <= 255 /\ 0 <= 70 <= 255) /\
  fst (translatePatternVolume 70) = 2 /\ snd (translatePatternVolume 70) = 5 /\
  0 <= fst (translatePatternVolume 70) <= 10.
Proof.
  split; [lia|].
  destruct (translatePatternVolume_injective 70 70 ltac:(lia) ltac:(lia))
    as (_ & Hcmd & _).
  split; [reflexivity|]. split; [reflexivity|exact Hcmd].
Defined.

Lemma translateNote_range (b : byte) :
  1 <= translateNote (byteZ b) <= 121 \/ 253 <= translateNote (byteZ b) <= 255.
Proof.
  pose proof (byteZ_range b) as Hb. change (2 ^ 8) with 256 in Hb.
  unfold translateNote.
  destruct (Z.leb_spec (byteZ b) 120); [rewrite uint8_small by lia; lia|].
  destruct (Z.eqb_spec (byteZ b) 254); [cbn [orb]; lia|].
  destruct (Z.eqb_spec (byteZ b) 255); [cbn [orb]; lia|].
  cbn [orb]. destruct (Z.geb_spec (byteZ b) 120); lia.
Qed.

Lemma translatePatternVolume_range (b : byte) :
  0 <= fst (translatePatternVolume (byteZ b)) <= 10 /\
  0 <= snd (translatePatternVolume (byteZ b)) <= 255.
Proof.
  pose proof (byteZ_range b) as Hb. change (2 ^ 8) with 256 in Hb.
  unfold translatePatternVolume, uint8. change (2 ^ 8) with 256.
  repeat match goal with
         | |- context [?a <=? ?b] => destruct (Z.leb_spec a b)
         end;
    cbn [fst snd];
    try match goal with
        | |- context [?a mod 256] => pose proof (Z.mod_pos_bound a 256 eq_refl)
        end; lia.
Qed.

(* Whatever the state, the loop body makes an entry with fields in range. *)
Lemma unpackEntry_entryOk (data : list byte) (cs : byte) (u : unpacker) :
  entryOk (snd (unpackEntry data cs u)).
Proof.
  unfold unpackEntry, entryOk.
  cbn [snd common.Channel common.Note common.Instrument common.VolumeCommand
       common.VolumeParam common.Effect common.EffectParam].
  pose proof (channelOf_range cs) as Hc.
  rewrite uint8_small by lia.
  split; [exact Hc|]. split; [|split; [|split; [|split]]].
  - destruct (negb _); [|tauto]. pose proof (translateNote_range
      (lastNote (readNote data (maskOf (channelOf cs)
         (readMask data cs (channelOf cs) (trackChannel (channelOf cs) u)))
         (channelOf cs) (readMask data cs (channelOf cs)
         (trackChannel (channelOf cs) u))) !!! Z.to_nat (channelOf cs))). tauto.
  - destruct (negb _); [|lia].
    match goal with |- context [int16 (byteZ ?b)] =>
      pose proof (byteZ_range b) as Hb; change (2 ^ 8) with 256 in Hb;
      rewrite int16_small by lia; lia end.
  - destruct (negb (Z.land _ (Z.lor PmaskVol PmaskLastVol) =? 0)); cbn [fst]; [|lia].
    apply translatePatternVolume_range.
  - destruct (negb (Z.land _ (Z.lor PmaskVol PmaskLastVol) =? 0)); cbn [snd]; [|lia].
    apply translatePatternVolume_range.
  - destruct (negb (Z.land _ (Z.lor PmaskEffect PmaskLastEffect) =? 0));
      cbn [fst snd]; [|lia].
    split; match goal with |- 0 <= byteZ ?b <= 255 =>
      pose proof (byteZ_range b) as Hb; change (2 ^ 8) with 256 in Hb; lia end.
Qed.

(* The entries of a row are made by the loop body. *)
Lemma unpackRow_emitted (data : list byte) (fuel : nat) :
  forall u es u' es',
    unpackRow fuel data u es = Some (u', es') ->
    exists new, es' = es ++ new /\ Forall (emitted data) new.
Proof.
  induction fuel as [|fuel IH]; intros u es u' es'; cbn [unpackRow]; [discriminate|].
  destruct (nextByte data u) as [cs u1].
  destruct (byteZ cs =? 0).
  - intros [= <- <-]. exists []. rewrite app_nil_r. split; [reflexivity|constructor].
  - destruct (unpackEntry data cs u1) as [u2 e] eqn:He.
    intros Hrow. destruct (IH _ _ _ _ Hrow) as (new & -> & Hall).
    exists (e :: new). rewrite <- app_assoc. split; [reflexivity|].
    constructor; [|exact Hall]. exists cs, u1. rewrite He. reflexivity.
Qed.

Lemma unpackRows_emitted (data : list byte) (rows : nat) :
  forall u acc u' acc',
    unpackRows rows data u acc = Some (u', acc') ->
    exists new,
      acc' = acc ++ new /\ Forall (emitted data) (concat (map common.Entries new)).
Proof.
  induction rows as [|rows IH]; intros u acc u' acc'; cbn [unpackRows].
  - intros [= <- <-]. exists []. rewrite app_nil_r. split; [reflexivity|constructor].
  - destruct (unpackRow _ data u []) as [[u1 es]|] eqn:Hrow; [|discriminate].
    intros Hrows. destruct (IH _ _ _ _ Hrows) as (new & -> & Hall).
    destruct (unpackRow_emitted _ _ _ _ _ _ Hrow) as (es1 & Hes & Hall1).
    cbn [app] in Hes. subst es1.
    exists ({| common.Entries := es |} :: new). rewrite <- app_assoc.
    split; [reflexivity|]. cbn [map concat common.Entries].
    apply Forall_app. split; assumption.
Qed.

Lemma channelCount_above (es : list common.PatternEntry) (e : common.PatternEntry) :
  In e es -> common.Channel e < channelCount es.
Proof.
  induction es as [|x es IH]; [intros []|].
  rewrite channelCount_cons. intros [->|Hin]; [lia|]. specialize (IH Hin). lia.
Qed.

(** X10: ToCommon returns a pattern for every ItPattern, with exactly as
    many rows as the header declares and a channel count between 0 and 64;
    every entry has its channel below that count, a note that is 0 (none),
    1 to 121 or one of 253, 254, 255, a volume command of at most 10, and an
    instrument, volume parameter, effect and effect parameter that fit a
    byte. *)
Theorem ToCommon_shape (itp : ItPattern) :
  exists p,
    ToCommon itp = Some p /\
    length (common.Rows p) = Z.to_nat (Rows (Header itp)) /\
    0 <= common.Channels p <= 64 /\
    Forall (fun e => entryOk e /\ common.Channel e < common.Channels p)
           (allEntries p).
Proof.
  destruct (ToCommon_total itp) as (p & Hp & Hlen & Hok & Hcnt).
  exists p. split; [exact Hp|]. split; [exact Hlen|].
  split; [rewrite Hcnt; apply channelCount_range, Hok|].
  unfold ToCommon in Hp.
  destruct (unpackRows _ _ _ _) as [[u rows]|] eqn:Hrows; [|discriminate].
  injection Hp as <-.
  destruct (unpackRows_emitted _ _ _ _ _ _ Hrows) as (new & Hnew & Hall).
  cbn [app] in Hnew. subst new.
  unfold allEntries in *. cbn [common.Rows common.Channels] in *.
  apply Forall_forall. intros e Hin. split.
  - rewrite Forall_forall in Hall. destruct (Hall e Hin) as (cs & v & ->).
    apply unpackEntry_entryOk.
  - rewrite Hcnt. apply channelCount_above. apply list_elem_of_In, Hin.
Qed.


(** *** Unpacking two buffers in step *)

Section Simulation.

(* Two buffers and a relation between cursors into them under which they
   hold the same bytes, position by position. *)
Variables data1 data2 : list byte.
Variable R : nat -> nat -> Prop.
Hypothesis same_bytes :
  forall i i', R i i' ->
    data1 !! i = data2 !! i' /\ (is_Some (data1 !! i) -> R (S i) (S i')).

Lemma nextByte_related (u u' : unpacker) :
  related R u u' ->
  fst (nextByte data1 u) = fst (nextByte data2 u') /\
  related R (snd (nextByte data1 u)) (snd (nextByte data2 u')).
Proof using same_bytes.
  intros (HM & HN & HI & HV & HE & HP & HC & HR).
  destruct (same_bytes _ _ HR) as [Hl Hs]. unfold nextByte. rewrite <- Hl.
  destruct (data1 !! dataRead u) as [b|]; cbn [fst snd].
  - split; [reflexivity|]. unfold related; proj_simpl.
    repeat split; try assumption. apply Hs. eexists; reflexivity.
  - split; [reflexivity|]. unfold related. repeat split; assumption.
Qed.

Ltac related_step u u' Hrel :=
  let Hb := fresh "Hb" in
  let Ha := fresh "Ha" in
  destruct (nextByte_related u u' Hrel) as [Hb Ha];
  destruct (nextByte data1 u) as [? ?];
  destruct (nextByte data2 u') as [? ?];
  cbn [fst snd] in Hb, Ha; subst.

Ltac related_stored Ha :=
  destruct Ha as (? & ? & ? & ? & ? & ? & ? & ?);
  unfold related; proj_simpl; repeat split; congruence || assumption.

Lemma trackChannel_related (channel : Z) (u u' : unpacker) :
  related R u u' -> related R (trackChannel channel u) (trackChannel channel u').
Proof.
  intros Ha. unfold trackChannel.
  assert (Hc : channels u = channels u') by apply Ha. rewrite <- Hc.
  destruct (channel >=? channels u); [|exact Ha]. related_stored Ha.
Qed.

Lemma readMask_related (cs : byte) (channel : Z) (u u' : unpacker) :
  related R u u' ->
  related R (readMask data1 cs channel u) (readMask data2 cs channel u').
Proof using same_bytes.
  intros Hrel. unfold readMask.
  destruct (negb (Z.land (byteZ cs) 128 =? 0)); [|exact Hrel].
  related_step u u' Hrel. related_stored Ha.
Qed.

Lemma readNote_related (mask channel : Z) (u u' : unpacker) :
  related R u u' ->
  related R (readNote data1 mask channel u) (readNote data2 mask channel u').
Proof using same_bytes.
  intros Hrel. unfold readNote.
  destruct (negb (Z.land mask PmaskNote =? 0)); [|exact Hrel].
  related_step u u' Hrel. related_stored Ha.
Qed.

Lemma readIns_related (mask channel : Z) (u u' : unpacker) :
  related R u u' ->
  related R (readIns data1 mask channel u) (readIns data2 mask channel u').
Proof using same_bytes.
  intros Hrel. unfold readIns.
  destruct (negb (Z.land mask PmaskIns =? 0)); [|exact Hrel].
  related_step u u' Hrel. related_stored Ha.
Qed.

Lemma readVol_related (mask channel : Z) (u u' : unpacker) :
  related R u u' ->
  related R (readVol data1 mask channel u) (readVol data2 mask channel u').
Proof using same_bytes.
  intros Hrel. unfold readVol.
  destruct (negb (Z.land mask PmaskVol =? 0)); [|exact Hrel].
  related_step u u' Hrel. related_stored Ha.
Qed.

Lemma readEffect_related (mask channel : Z) (u u' : unpacker) :
  related R u u' ->
  related R (readEffect data1 mask channel u) (readEffect data2 mask channel u').
Proof using same_bytes.
  intros Hrel. unfold readEffect.
  destruct (negb (Z.land mask PmaskEffect =? 0)); [|exact Hrel].
  related_step u u' Hrel.
  match goal with
  | |- context [nextByte data1 ?v] =>
      match goal with
      | |- context [nextByte data2 ?v'] =>
          assert (Hrel' : related R v v') by related_stored Ha;
          related_step v v' Hrel'
      end
  end.
  related_stored Ha0.
Qed.

Lemma unpackEntry_related (cs : byte) (u u' : unpacker) :
  related R u u' ->
  snd (unpackEntry data1 cs u) = snd (unpackEntry data2 cs u') /\
  related R (fst (unpackEntry data1 cs u)) (fst (unpackEntry data2 cs u')).
Proof using same_bytes.
  intros H0. unfold unpackEntry. cbn [fst snd].
  set (ch := channelOf cs).
  pose proof (trackChannel_related ch u u' H0) as H1.
  pose proof (readMask_related cs ch _ _ H1) as H2.
  assert (Hm : maskOf ch (readMask data1 cs ch (trackChannel ch u))
               = maskOf ch (readMask data2 cs ch (trackChannel ch u'))).
  { unfold maskOf. f_equal. f_equal. apply H2. }
  rewrite <- Hm.
  set (m := maskOf ch (readMask data1 cs ch (trackChannel ch u))).
  pose proof (readNote_related m ch _ _ H2) as H3.
  pose proof (readIns_related m ch _ _ H3) as H4.
  pose proof (readVol_related m ch _ _ H4) as H5.
  pose proof (readEffect_related m ch _ _ H5) as H6.
  split; [|exact H6].
  destruct H3 as (_ & N3 & _). destruct H4 as (_ & _ & I4 & _).
  destruct H5 as (_ & _ & _ & V5 & _). destruct H6 as (_ & _ & _ & _ & E6 & P6 & _).
  rewrite N3, I4, V5, E6, P6. reflexivity.
Qed.

Lemma unpackRow_related (fuel : nat) :
  forall (fuel' : nat) (u u' : unpacker) (es es2 : list common.PatternEntry),
    related R u u' ->
    (length data1 - dataRead u < fuel)%nat ->
    (length data2 - dataRead u' < fuel')%nat ->
    exists v v' new,
      unpackRow fuel data1 u es = Some (v, es ++ new) /\
      unpackRow fuel' data2 u' es2 = Some (v', es2 ++ new) /\
      related R v v'.
Proof using same_bytes.
  induction fuel as [|fuel IH]; intros fuel' u u' es es2 Hrel Hf Hf'; [lia|].
  destruct fuel' as [|fuel']; [lia|].
  cbn [unpackRow].
  destruct (nextByte_related u u' Hrel) as [Hb Ha].
  pose proof (nextByte_cursor data1 u) as Hc.
  pose proof (nextByte_cursor data2 u') as Hc'.
  assert (Hz : (length data1 <= dataRead u)%nat -> byteZ (fst (nextByte data1 u)) = 0)
    by (intros Hge; rewrite (nextByte_end data1 u Hge); reflexivity).
  assert (Hz' : (length data2 <= dataRead u')%nat ->
                byteZ (fst (nextByte data2 u')) = 0)
    by (intros Hge; rewrite (nextByte_end data2 u' Hge); reflexivity).
  destruct (nextByte data1 u) as [cs u1].
  destruct (nextByte data2 u') as [cs' u1'].
  cbn [fst snd] in Hb, Ha, Hc, Hc', Hz, Hz'. subst cs'.
  destruct (Z.eqb_spec (byteZ cs) 0) as [H0|Hn0].
  { exists u1, u1', []. rewrite !app_nil_r.
    split; [reflexivity|]. split; [reflexivity|]. exact Ha. }
  destruct (unpackEntry_related cs u1 u1' Ha) as [He Ha2].
  destruct (unpackEntry_spec data1 cs u1) as (_ & _ & Hd).
  destruct (unpackEntry_spec data2 cs u1') as (_ & _ & Hd').
  destruct (unpackEntry data1 cs u1) as [u2 e].
  destruct (unpackEntry data2 cs u1') as [u2' e'].
  cbn [fst snd] in He, Ha2, Hd, Hd'. subst e'.
  unfold advance in Hc, Hc'.
  destruct (IH fuel' u2 u2' (es ++ [e]) (es2 ++ [e]) Ha2 ltac:(lia) ltac:(lia))
    as (v & v' & new & Hr1 & Hr2 & Hv).
  exists v, v', (e :: new). rewrite Hr1, Hr2, <- !app_assoc.
  split; [reflexivity|]. split; [reflexivity|]. exact Hv.
Qed.

Lemma unpackRows_related (rows : nat) :
  forall (u u' : unpacker) (acc acc2 : list common.PatternRow),
    related R u u' ->
    exists v v' new,
      unpackRows rows data1 u acc = Some (v, acc ++ new) /\
      unpackRows rows data2 u' acc2 = Some (v', acc2 ++ new) /\
      related R v v'.
Proof using same_bytes.
  induction rows as [|rows IH]; intros u u' acc acc2 Hrel; cbn [unpackRows].
  - exists u, u', []. rewrite !app_nil_r.
    split; [reflexivity|]. split; [reflexivity|]. exact Hrel.
  - destruct (unpackRow_related (S (length data1)) (S (length data2)) u u' [] []
                Hrel ltac:(lia) ltac:(lia)) as (v & v' & es & Hr & Hr' & Ha).
    cbn [app] in Hr, Hr'. rewrite Hr, Hr'.
    destruct (IH v v' (acc ++ [{| common.Entries := es |}])
                (acc2 ++ [{| common.Entries := es |}]) Ha)
      as (w & w' & new & Hw & Hw' & Hrel').
    exists w, w', ({| common.Entries := es |} :: new).
    rewrite Hw, Hw', <- !app_assoc.
    split; [reflexivity|]. split; [reflexivity|]. exact Hrel'.
Qed.

End Simulation.

(* A row that starts on a zero byte is empty and takes that byte. *)
Lemma unpackRows_terminators (zeros : nat) :
  forall (rows : nat) (data : list byte) (u : unpacker) (acc : list common.PatternRow),
    (forall i, (i < zeros)%nat -> data !! (dataRead u + i)%nat = Some x00) ->
    unpackRows (zeros + rows) data u acc
    = unpackRows rows data (setDataRead (dataRead u + zeros) u)
                 (acc ++ replicate zeros {| common.Entries := [] |}).
Proof.
  induction zeros as [|zeros IH]; intros rows data u acc Hz.
  - cbn [Nat.add replicate]. rewrite app_nil_r, Nat.add_0_r.
    destruct u; reflexivity.
  - cbn [Nat.add unpackRows unpackRow].
    pose proof (Hz 0%nat ltac:(lia)) as H0. rewrite Nat.add_0_r in H0.
    unfold nextByte at 1. rewrite H0.
    change (byteZ x00 =? 0) with true. cbn iota.
    rewrite IH.
    + cbn [dataRead setDataRead replicate].
      rewrite <- app_assoc. cbn [app].
      replace (S (dataRead u) + zeros)%nat with (dataRead u + S zeros)%nat by lia.
      destruct u; reflexivity.
    + intros i Hi. cbn [dataRead setDataRead].
      replace (S (dataRead u) + i)%nat with (dataRead u + S i)%nat by lia.
      apply Hz. lia.
Qed.

(** X12: rows that hold the terminator only are empty rows and change
    nothing for the rows after them: a pattern whose data starts with j zero
    bytes unpacks to j rows without entries followed by the rows of the
    pattern made of the remaining data and the remaining row count, with the
    same channel count. *)
Theorem ToCommon_leading_empty_rows (j n : nat) (len len' : Z) (data : list byte) :
  ToCommon {| Header := {| DataLength := len; Rows := Z.of_nat (j + n) |};
              Data := replicate j x00 ++ data |}
  = match ToCommon {| Header := {| DataLength := len'; Rows := Z.of_nat n |};
                      Data := data |} with
    | Some p =>
        Some {| common.Channels := common.Channels p;
                common.Rows := replicate j {| common.Entries := [] |}
                               ++ common.Rows p |}
    | None => None
    end.
Proof.
  unfold ToCommon; cbn [Header Rows Data]. rewrite !Nat2Z.id.
  rewrite unpackRows_terminators.
  2:{ intros i Hi. cbn [dataRead newUnpacker].
      rewrite lookup_app_l by (rewrite length_replicate; lia).
      apply lookup_replicate_2. lia. }
  cbn [app dataRead newUnpacker Nat.add].
  destruct (unpackRows_related data (replicate j x00 ++ data)
              (fun i i' => i' = (i + j)%nat)) with
    (rows := n) (u := newUnpacker)
    (u' := setDataRead j newUnpacker)
    (acc := @nil common.PatternRow)
    (acc2 := replicate j {| common.Entries := @nil common.PatternEntry |})
    as (v & v' & new & Hr & Hr' & Hrel).
  - intros i i' ->. split.
    + rewrite lookup_app_r by (rewrite length_replicate; lia).
      rewrite length_replicate. f_equal. lia.
    + intros _. lia.
  - unfold related; cbn. repeat split.
  - cbn [app] in Hr. rewrite Hr, Hr'.
    destruct Hrel as (_ & _ & _ & _ & _ & _ & Hc & _). rewrite Hc.
    cbn [common.Channels common.Rows]. reflexivity.
Qed.

(** ** Mapping to the common model *)

Lemma map_lookup_Some {A B : Type} (f : A -> B) (l : list A) (i : nat) (x : A) :
  l !! i = Some x -> map f l !! i = Some (f x).
Proof.
  revert i. induction l as [|y l IH]; intros [|i] H; try discriminate.
  - injection H as ->. reflexivity.
  - cbn. apply IH. exact H.
Qed.

Lemma seq_map_nth {A B : Type} (f : A -> B) (d : A) (l : list A) (k : nat) :
  map (fun i => f (nth i l d)) (seq 0 k) = map f (take k (l ++ replicate (k - length l) d)).
Proof.
  revert k. induction l as [|x l IH]; intros k.
  - cbn [app length]. rewrite Nat.sub_0_r, take_replicate, Nat.min_id.
    induction k as [|k IHk]; [reflexivity|].
    rewrite seq_S, map_app, IHk. cbn [map Nat.add].
    replace (S k) with (k + 1)%nat by lia.
    rewrite replicate_add, map_app. cbn. destruct k; reflexivity.
  - destruct k as [|k]; [reflexivity|].
    cbn [seq map nth app take length Nat.sub]. f_equal.
    rewrite <- seq_shift, map_map. apply IH.
Qed.

(** X13: translateEnvelope keeps the first NodeCount nodes of the envelope,
    25 at most, in order, each with its coordinates converted to int16
    (a count above 25 does not make it read past the 25 nodes of the
    array); the type of the envelope follows from its index among the
    three of an instrument, volume for 0, panning for 1 and, for 2, filter
    when the filter flag (128) is set and pitch when it is not. *)
Theorem translateEnvelope_nodes (itenv : ItEnvelope.t) (index : Z) :
  length (ItEnvelope.Nodes itenv) = 25%nat ->
  let env := translateEnvelope itenv index in
  common_Envelope.Nodes env
  = map commonNode (take (Z.to_nat (ItEnvelope.NodeCount itenv)) (ItEnvelope.Nodes itenv)) /\
  (length (common_Envelope.Nodes env) <= 25)%nat /\
  (index = 0 -> common_Envelope.Type_ env = EnvelopeTypeVolume) /\
  (index = 1 -> common_Envelope.Type_ env = EnvelopeTypePanning) /\
  (index = 2 ->
   common_Envelope.Type_ env
   = if Z.testbit (ItEnvelope.Flags itenv) 7 then EnvelopeTypeFilter
     else EnvelopeTypePitch).
Proof.
  intros Hlen env. unfold env, translateEnvelope; cbn [common_Envelope.Nodes common_Envelope.Type_].
  split; [|split; [|split; [|split]]].
  - transitivity
      (map (fun i => commonNode (nth i (ItEnvelope.Nodes itenv)
                                     (ItEnvelope.mkEnvelopeNode 0 0)))
           (seq 0 (Nat.min 25 (Z.to_nat (ItEnvelope.NodeCount itenv)))));
      [apply map_ext; intros; reflexivity|].
    rewrite (seq_map_nth commonNode).
    f_equal. rewrite Hlen.
    destruct (Nat.le_gt_cases (Z.to_nat (ItEnvelope.NodeCount itenv)) 25) as [Hle|Hgt].
    + rewrite Nat.min_r by lia.
      replace (Z.to_nat (ItEnvelope.NodeCount itenv) - 25)%nat with 0%nat by lia.
      cbn [replicate]. rewrite app_nil_r. reflexivity.
    + rewrite Nat.min_l by lia. cbn [Nat.sub replicate]. rewrite app_nil_r.
      rewrite !take_ge by lia. reflexivity.
  - rewrite length_map, length_seq. lia.
  - intros ->. reflexivity.
  - intros ->. reflexivity.
  - intros ->. cbn [Z.eqb].
    assert (Hbit : (Z.land (ItEnvelope.Flags itenv) EnvFlagFilter =? 0)
                   = negb (Z.testbit (ItEnvelope.Flags itenv) 7)).
    { change EnvFlagFilter with (2 ^ 7).
      destruct (Z.testbit (ItEnvelope.Flags itenv) 7) eqn:Hb; cbn [negb].
      - apply Z.eqb_neq. intros Hz.
        assert (Z.testbit (Z.land (ItEnvelope.Flags itenv) (2 ^ 7)) 7 = true)
          by (rewrite Z.land_spec, Hb, Z.pow2_bits_true by lia; reflexivity).
        rewrite Hz, Z.bits_0 in H. discriminate.
      - apply Z.eqb_eq. apply Z.bits_inj'. intros i Hi.
        rewrite Z.land_spec, Z.bits_0.
        destruct (Z.eq_dec i 7) as [->|Hne].
        + rewrite Hb. reflexivity.
        + rewrite Z.pow2_bits_false by lia. apply andb_false_r. }
    rewrite Hbit, negb_involutive. reflexivity.
Qed.

Lemma translateEnvelope_nodes_witness :
  let itenv := ItEnvelope.mk 128 2 0 0 0 0
                 (replicate 25 (ItEnvelope.mkEnvelopeNode 5 7)) in
  length (ItEnvelope.Nodes itenv) = 25%nat /\
  length (common_Envelope.Nodes (translateEnvelope itenv 2)) = 2%nat /\
  common_Envelope.Type_ (translateEnvelope itenv 2) = EnvelopeTypeFilter.
Proof.
  intros itenv. split; [reflexivity|].
  destruct (translateEnvelope_nodes itenv 2 eq_refl) as (Hn & _ & _ & _ & Ht).
  split; [rewrite Hn; reflexivity|]. rewrite (Ht eq_refl). reflexivity.
Defined.

Lemma dropLeading_spec (c : byte) (s : list byte) :
  exists k, s = replicate k c ++ dropLeading c s /\ head (dropLeading c s) <> Some c.
Proof.
  induction s as [|b t IH]; cbn [dropLeading].
  - exists 0%nat. split; [reflexivity|discriminate].
  - destruct (Byte.eqb b c) eqn:Heq.
    + apply Byte.byte_dec_bl in Heq. subst b.
      destruct IH as (k & Hk & Hh). exists (S k). cbn [replicate app].
      split; [f_equal; exact Hk|exact Hh].
    + exists 0%nat. split; [reflexivity|]. cbn [head].
      intros [= ->]. rewrite (Byte.byte_dec_lb eq_refl) in Heq. discriminate.
Qed.

Lemma rev_reverse {A : Type} (l : list A) : rev l = reverse l.
Proof. apply rev_alt. Qed.

(* TrimRight takes trailing [c]s away, all of them and nothing else. *)
Lemma TrimRight_spec (s : list byte) (c : byte) :
  exists k, s = TrimRight s c ++ replicate k c /\ last (TrimRight s c) <> Some c.
Proof.
  unfold TrimRight.
  destruct (dropLeading_spec c (rev s)) as (k & Hk & Hh).
  exists k. split.
  - rewrite <- (rev_involutive s) at 1. rewrite Hk at 1.
    rewrite rev_app_distr, rev_reverse, (rev_reverse (replicate k c)),
      reverse_replicate, <- rev_reverse.
    reflexivity.
  - rewrite rev_reverse, last_reverse. exact Hh.
Qed.

Lemma land_127_128 (x : Z) :
  0 <= x <= 255 ->
  0 <= Z.land x 127 <= 127 /\
  x = Z.land x 127 + (if Z.land x 128 =? 0 then 0 else 128).
Proof.
  intros Hx.
  assert (Hb : x = byteZ (byteOf x))
    by (rewrite byteZ_byteOf; symmetry; apply Z.mod_small; lia).
  rewrite Hb. destruct (byteOf x); vm_compute; split; (split; discriminate) || reflexivity.
Qed.

(** X14: ItInstrument.ToCommon always gives an instrument with 120 notemap
    entries and three envelopes, of types volume, panning and then pitch or
    filter.  The default pan is split in two: the value, between 0 and 127,
    and the enabled flag, set when bit 7 of the stored byte is clear; the
    stored byte is the value plus 128 when the flag is off.  The name is the
    stored name without its trailing zero bytes. *)
Theorem ItInstrument_ToCommon_shape (iti : ItInstrument.t) :
  let ins := ItInstrument_ToCommon iti in
  length (common_Instrument.Notemap ins) = 120%nat /\
  (exists t,
      map common_Envelope.Type_ (common_Instrument.Envelopes ins)
      = [EnvelopeTypeVolume; EnvelopeTypePanning; t] /\
      (t = EnvelopeTypePitch \/ t = EnvelopeTypeFilter)) /\
  (0 <= ItInstrument.DefaultPan iti <= 255 ->
   0 <= common_Instrument.DefaultPan ins <= 127 /\
   ItInstrument.DefaultPan iti
   = common_Instrument.DefaultPan ins
     + (if common_Instrument.DefaultPanEnabled ins then 0 else 128)) /\
  (exists k,
      ItInstrument.Name iti = common_Instrument.Name ins ++ replicate k x00 /\
      last (common_Instrument.Name ins) <> Some x00).
Proof.
  intros ins. unfold ins, ItInstrument_ToCommon;
    cbn [common_Instrument.Notemap common_Instrument.Envelopes
         common_Instrument.DefaultPan common_Instrument.DefaultPanEnabled
         common_Instrument.Name].
  split; [rewrite length_map, length_seq; reflexivity|].
  split; [|split].
  - cbn [seq map]. unfold translateEnvelope at 1 2 3; cbn [common_Envelope.Type_ Z.of_nat].
    eexists. split; [reflexivity|].
    cbn. destruct (negb _); [right|left]; reflexivity.
  - intros Hp. destruct (land_127_128 _ Hp) as [Hr Hd].
    rewrite int16_small by lia. split; [exact Hr|exact Hd].
  - apply TrimRight_spec.
Qed.

(* The loop over the patterns of a module. *)
Lemma patternsToCommon_spec (patterns : list ItPattern) :
  forall (acc : list common.Pattern) (channels : Z),
    0 <= channels <= 64 ->
    exists new channels',
      patternsToCommon patterns acc channels = Some (acc ++ new, channels') /\
      Forall2 (fun itp p => ToCommon itp = Some p) patterns new /\
      channels <= channels' <= 64 /\
      Forall (fun p => Forall (fun e => common.Channel e < common.Channels p)
                              (allEntries p)
                       /\ common.Channels p <= channels') new /\
      (channels' = channels \/ Exists (fun p => common.Channels p = channels') new).
Proof.
  induction patterns as [|itp rest IH]; intros acc channels Hch; cbn [patternsToCommon].
  - exists [], channels. rewrite app_nil_r.
    split; [reflexivity|]. split; [constructor|]. split; [lia|].
    split; [constructor|left; reflexivity].
  - destruct (ToCommon_total itp) as (p & Hp & _ & Hok & Hcnt).
    rewrite Hp.
    pose proof (channelCount_range _ Hok) as Hr. rewrite <- Hcnt in Hr.
    rewrite int16_small by lia.
    destruct (IH (acc ++ [p]) (Z.max channels (common.Channels p)) ltac:(lia))
      as (new & ch' & Hrest & Hall & Hbound & Hle & Hmax).
    exists (p :: new), ch'. rewrite Hrest, <- app_assoc.
    split; [reflexivity|]. split; [constructor; assumption|]. split; [lia|].
    split.
    + constructor; [|exact Hle]. split; [|lia].
      apply Forall_forall. intros e Hin. rewrite Hcnt.
      apply channelCount_above, list_elem_of_In, Hin.
    + destruct Hmax as [->|Hex]; [|right; apply Exists_cons_tl, Hex].
      destruct (Z.max_spec channels (common.Channels p)) as [[_ ->]|[_ ->]];
        [right; apply Exists_cons_hd; reflexivity|left; reflexivity].
Qed.

(** X15: ItModule.ToCommon turns every pattern of the module with
    ItPattern.ToCommon, in order.  The channel count of the module is the
    largest channel count of its patterns (0 without patterns), between 0
    and 64, so the slice of the 64 channel settings it takes is always in
    range; the module has exactly that many channel settings, the i-th
    with the i-th pan and volume of the header, and every entry of every
    pattern is on a channel that has one. *)
Theorem ItModule_ToCommon_channels (itm : ItModule.t) :
  exists m,
    ItModule_ToCommon itm = Some m /\
    Forall2 (fun itp p => ToCommon itp = Some p)
            (ItModule.Patterns itm) (common_Module.Patterns m) /\
    0 <= common_Module.Channels m <= 64 /\
    length (common_Module.ChannelSettings m) = Z.to_nat (common_Module.Channels m) /\
    Forall (fun p => Forall (fun e => common.Channel e < common_Module.Channels m)
                            (allEntries p)
                     /\ common.Channels p <= common_Module.Channels m)
           (common_Module.Patterns m) /\
    (common_Module.Channels m = 0 \/
     Exists (fun p => common.Channels p = common_Module.Channels m)
            (common_Module.Patterns m)) /\
    (forall i, (i < Z.to_nat (common_Module.Channels m))%nat ->
       common_Module.ChannelSettings m !! i
       = Some {| common_Module.Name := [];
                 common_Module.InitialVolume :=
                   int16 (nth i (ItModuleHeader.ChannelVolume (ItModule.Header itm)) 0);
                 common_Module.InitialPan :=
                   int16 (nth i (ItModuleHeader.ChannelPan (ItModule.Header itm)) 0);
                 common_Module.Mute := false;
                 common_Module.Surround := false |}).
Proof.
  unfold ItModule_ToCommon.
  destruct (patternsToCommon_spec (ItModule.Patterns itm) [] (int16 0)
              ltac:(vm_compute; split; discriminate))
    as (new & ch & Hp & Hall & Hbound & Hle & Hmax).
  rewrite Hp. cbn [app]. eexists. split; [reflexivity|].
  cbn [common_Module.Patterns common_Module.Channels common_Module.ChannelSettings].
  change (int16 0) with 0 in *.
  split; [exact Hall|]. split; [lia|].
  split; [rewrite length_take, length_map, length_seq; lia|].
  split.
  { apply Forall_forall. intros p Hin. rewrite Forall_forall in Hle.
    destruct (Hle p Hin) as [He Hc]. split; [|exact Hc].
    apply Forall_forall. intros e Hine. rewrite Forall_forall in He.
    specialize (He e Hine). lia. }
  split; [exact Hmax|].
  intros i Hi. rewrite lookup_take_lt by exact Hi.
  assert (Hseq : seq 0 64 !! i = Some i) by (apply lookup_seq; lia).
  match goal with
  | |- map ?f _ !! _ = _ => exact (map_lookup_Some f _ _ _ Hseq)
  end.
Qed.

(** ** Reading samples and patterns *)

Lemma readBytes_enough (n : nat) (r : list byte) :
  (n <= length r)%nat -> readBytes n r = Ok (take n r, drop n r).
Proof.
  intros Hn. unfold readBytes.
  destruct (n =? 0)%nat eqn:H0.
  { apply Nat.eqb_eq in H0. subst n. reflexivity. }
  apply Nat.eqb_neq in H0.
  assert (Hr : (length r =? 0)%nat = false) by (apply Nat.eqb_neq; lia).
  assert (Hlt : (length r <? n)%nat = false) by (apply Nat.ltb_ge; lia).
  rewrite Hr, Hlt. reflexivity.
Qed.

Lemma readBytes_short (n : nat) (r : list byte) :
  (length r < n)%nat ->
  readBytes n r = Err (if (length r =? 0)%nat then EOF else ErrUnexpectedEOF).
Proof.
  intros Hn. unfold readBytes.
  assert (H0 : (n =? 0)%nat = false) by (apply Nat.eqb_neq; lia).
  assert (Hlt : (length r <? n)%nat = true) by (apply Nat.ltb_lt; lia).
  rewrite H0, Hlt. destruct (length r =? 0)%nat; reflexivity.
Qed.

Lemma le16_range (b0 b1 : byte) : 0 <= le16 b0 b1 < 2 ^ 16.
Proof.
  unfold le16. pose proof (byteZ_range b0) as H0. pose proof (byteZ_range b1) as H1.
  rewrite lor_shiftl_add by lia.
  change (2 ^ 8) with 256 in *. change (2 ^ 16) with 65536. lia.
Qed.

Lemma int16s_uint16s (l : list byte) : int16s l = map int16 (uint16s l).
Proof.
  induction l as [l IH] using (induction_ltof1 _ (@length byte)).
  destruct l as [|b0 [|b1 t]]; try reflexivity.
  cbn [int16s uint16s map]. f_equal. apply IH. unfold ltof; cbn [length]; lia.
Qed.

Lemma uint16s_range (l : list byte) : Forall (fun u => 0 <= u < 2 ^ 16) (uint16s l).
Proof.
  induction l as [l IH] using (induction_ltof1 _ (@length byte)).
  destruct l as [|b0 [|b1 t]]; try constructor.
  - apply le16_range.
  - apply IH. unfold ltof; cbn [length]; lia.
Qed.

Lemma uint16s_length (n : nat) :
  forall l : list byte, length l = (n * 2)%nat -> length (uint16s l) = n.
Proof.
  induction n as [|n IH]; intros l Hl.
  - destruct l; [reflexivity|discriminate].
  - destruct l as [|b0 [|b1 t]]; try discriminate.
    cbn [uint16s length]. f_equal. apply IH. cbn [length] in Hl. lia.
Qed.

(* The arithmetic of readPcm on one sample: reading the stored number into
   the signed type and adding the offset in that type. *)
Lemma pcm_sample (bits16 signed : bool) (u : Z) :
  0 <= u < 2 * bias bits16 ->
  let T := if bits16 then int16 else int8 in
  (if signed then T u else T (T u + T (pcmOffset bits16 signed)))
  = pcmValue bits16 signed u.
Proof.
  intros Hu T. subst T.
  destruct bits16, signed; cbv [pcmValue pcmOffset bias int16 int8] in *;
    change (2 ^ 15) with 32768; change (2 ^ 16) with 65536;
    change (2 ^ 7) with 128; change (2 ^ 8) with 256;
    change (- (32768)) with (-32768); change (- (128)) with (-128);
    try (destruct (Z.ltb_spec u 32768)); try (destruct (Z.ltb_spec u 128));
    Z.div_mod_to_equations; lia.
Qed.

Lemma unsignedPcm_range (bits16 : bool) (bytes : list byte) :
  Forall (fun u => 0 <= u < 2 * bias bits16) (unsignedPcm bits16 bytes).
Proof.
  unfold unsignedPcm, bias. destruct bits16.
  - apply uint16s_range.
  - apply Forall_forall. intros u Hin. apply list_elem_of_In, in_map_iff in Hin.
    destruct Hin as (b & <- & _). pose proof (byteZ_range b) as Hb.
    change (2 ^ 8) with 256 in Hb. lia.
Qed.

(* readPcm when the reader has the bytes of the channel. *)
Lemma readPcm_enough (bits16 signed : bool) (r : list byte) (len : Z) :
  (pcmBytes bits16 len <= length r)%nat ->
  readPcm bits16 r len (pcmOffset bits16 signed)
  = Ok (map (pcmValue bits16 signed)
            (unsignedPcm bits16 (take (pcmBytes bits16 len) r)),
        drop (pcmBytes bits16 len) r).
Proof.
  intros Hn. unfold readPcm.
  change (Z.to_nat len * (if bits16 then 2 else 1))%nat with (pcmBytes bits16 len).
  rewrite readBytes_enough by exact Hn. f_equal. f_equal.
  set (bytes := take (pcmBytes bits16 len) r).
  pose proof (unsignedPcm_range bits16 bytes) as Hr.
  assert (Hdata : (if bits16 then int16s bytes
                   else map (fun b => int8 (byteZ b)) bytes)
                  = map (if bits16 then int16 else int8) (unsignedPcm bits16 bytes)).
  { unfold unsignedPcm. destruct bits16; [apply int16s_uint16s|].
    rewrite map_map. reflexivity. }
  rewrite Hdata. clear Hdata.
  assert (Hoff : negb (pcmOffset bits16 signed =? 0) = negb signed)
    by (destruct bits16, signed; reflexivity).
  rewrite Hoff.
  destruct signed; cbn [negb].
  - apply map_ext_in. intros u Hu. rewrite Forall_forall in Hr.
    apply (pcm_sample bits16 true u), Hr, list_elem_of_In, Hu.
  - rewrite map_map. apply map_ext_in. intros u Hu. rewrite Forall_forall in Hr.
    apply (pcm_sample bits16 false u), Hr, list_elem_of_In, Hu.
Qed.

(** X16: readPcm on a reader that holds the bytes of the channel takes
    exactly these bytes, one per sample or two (little-endian) per 16-bit
    sample, and leaves the reader after them.  With the offset 0 of signed
    data a sample is the stored number read as two's complement; with the
    offset -128 or -32768 of unsigned data it is the stored number minus 128
    or 32768: the addition of the offset in int8 or int16 never wraps to
    anything else. *)
Theorem readPcm_values (bits16 signed : bool) (r : list byte) (len : Z) :
  0 <= len ->
  (pcmBytes bits16 len <= length r)%nat ->
  readPcm bits16 r len (pcmOffset bits16 signed)
  = Ok (map (pcmValue bits16 signed)
            (unsignedPcm bits16 (take (pcmBytes bits16 len) r)),
        drop (pcmBytes bits16 len) r).
Proof. intros _. apply readPcm_enough. Qed.

Lemma readPcm_values_witness :
  0 <= 2 /\
  (pcmBytes true 2 <= length [x00; x00; xff; xff; x07])%nat /\
  readPcm true [x00; x00; xff; xff; x07] 2 (-32768) = Ok ([-32768; 32767], [x07]).
Proof.
  split; [lia|]. split; [vm_compute; lia|].
  exact (readPcm_values true false [x00; x00; xff; xff; x07] 2
           ltac:(lia) ltac:(vm_compute; lia)).
Defined.

(** X17: readPcm on a reader that holds fewer bytes than the channel needs
    fails, whatever the offset, with io.EOF when the reader is empty and
    with io.ErrUnexpectedEOF when it is not. *)
Theorem readPcm_short (bits16 : bool) (r : list byte) (len offset : Z) :
  (length r < pcmBytes bits16 len)%nat ->
  readPcm bits16 r len offset
  = Err (if (length r =? 0)%nat then EOF else ErrUnexpectedEOF).
Proof.
  intros Hn. unfold readPcm.
  change (Z.to_nat len * (if bits16 then 2 else 1))%nat with (pcmBytes bits16 len).
  rewrite readBytes_short by exact Hn. reflexivity.
Qed.

Lemma readPcm_short_witness :
  (length [x01; x02; x03] < pcmBytes true 2)%nat /\
  readPcm true [x01; x02; x03] 2 0 = Err ErrUnexpectedEOF.
Proof.
  split; [vm_compute; lia|].
  exact (readPcm_short true [x01; x02; x03] 2 0 ltac:(vm_compute; lia)).
Defined.

Lemma land_bit (x k : Z) :
  0 <= k -> (Z.land x (2 ^ k) =? 0) = negb (Z.testbit x k).
Proof.
  intros Hk. destruct (Z.testbit x k) eqn:Hb; cbn [negb].
  - apply Z.eqb_neq. intros Hz.
    assert (H : Z.testbit (Z.land x (2 ^ k)) k = true)
      by (rewrite Z.land_spec, Hb, Z.pow2_bits_true by lia; reflexivity).
    rewrite Hz, Z.bits_0 in H. discriminate.
  - apply Z.eqb_eq. apply Z.bits_inj'. intros i Hi.
    rewrite Z.land_spec, Z.bits_0.
    destruct (Z.eq_dec i k) as [->|Hne].
    + rewrite Hb. reflexivity.
    + rewrite Z.pow2_bits_false by lia. apply andb_false_r.
Qed.

Lemma int8_range (x : Z) : sampleInRange 8 (int8 x).
Proof.
  unfold sampleInRange, int8. change (2 ^ (8 - 1)) with (2 ^ 7).
  pose proof (Z.mod_pos_bound (x + 2 ^ 7) (2 ^ 8) eq_refl). lia.
Qed.

Lemma int16_sample (x : Z) : sampleInRange 16 (int16 x).
Proof. apply int16_range. Qed.

(* What readPcm gives when it gives something: the samples asked for, of
   the type asked for. *)
Lemma readPcm_shape (bits16 : bool) (r : list byte) (len offset : Z)
    (d : list Z) (r' : list byte) :
  readPcm bits16 r len offset = Ok (d, r') ->
  length d = Z.to_nat len /\
  Forall (sampleInRange (if bits16 then 16 else 8)) d.
Proof.
  unfold readPcm.
  destruct (readBytes _ r) as [[bytes r1]|e] eqn:Hrb; [|discriminate].
  apply readBytes_length in Hrb. destruct Hrb as [Hlen _].
  intros [= <- _].
  destruct bits16.
  - rewrite int16s_uint16s.
    assert (Hl : length (uint16s bytes) = Z.to_nat len)
      by (apply uint16s_length; exact Hlen).
    destruct (negb (offset =? 0)).
    + rewrite !length_map. split; [exact Hl|].
      apply Forall_forall. intros x Hx. apply list_elem_of_In, in_map_iff in Hx.
      destruct Hx as (y & <- & _). apply int16_sample.
    + rewrite length_map. split; [exact Hl|].
      apply Forall_forall. intros x Hx. apply list_elem_of_In, in_map_iff in Hx.
      destruct Hx as (y & <- & _). apply int16_sample.
  - destruct (negb (offset =? 0)).
    + rewrite !length_map. split; [lia|].
      apply Forall_forall. intros x Hx. apply list_elem_of_In, in_map_iff in Hx.
      destruct Hx as (y & <- & _). apply int8_range.
    + rewrite length_map. split; [lia|].
      apply Forall_forall. intros x Hx. apply list_elem_of_In, in_map_iff in Hx.
      destruct Hx as (y & <- & _). apply int8_range.
Qed.

Lemma readPcm_error_kind (bits16 : bool) (r : list byte) (len offset : Z) (e : error) :
  readPcm bits16 r len offset = Err e -> decodeError e.
Proof.
  unfold readPcm, readBytes, decodeError.
  destruct (_ =? 0)%nat; [discriminate|].
  destruct (length r =? 0)%nat; [intros [= <-]; tauto|].
  destruct (length r <? _)%nat; [intros [= <-]; tauto|discriminate].
Qed.

(* The loop of Decode with the reader kept is the loop of Decode. *)
Lemma DecodeLoopReader_DecodeLoop (c : ItSampleCodec) (fuel : nat) :
  forall (r : list byte) (acc : list Z) (n : Z),
    dataOnly (DecodeLoopReader fuel c r acc n) = DecodeLoop fuel c r acc n.
Proof.
  induction fuel as [|fuel IH]; intros r acc n; cbn [DecodeLoopReader DecodeLoop].
  - destruct (n >? 0); reflexivity.
  - destruct (n >? 0); [|reflexivity].
    destruct (decodeChunk c r n) as [[[chunk r']|e]|]; try reflexivity.
    apply IH.
Qed.

Lemma DecodeReader_Decode (c : ItSampleCodec) (r : list byte) (n : Z) :
  dataOnly (DecodeReader c r n) = Decode c r n.
Proof. apply DecodeLoopReader_DecodeLoop. Qed.

(* Decode as ReadItSample calls it: it ends, with one of its errors or with
   the samples asked for. *)
Lemma DecodeReader_shape (c : ItSampleCodec) (r : list byte) (n : Z) :
  0 <= n ->
  exists res,
    DecodeReader c r n = Some res /\
    match res with
    | Err e => decodeError e
    | Ok (d, _) => Z.of_nat (length d) = n /\ Forall isInt16 d
    end.
Proof.
  intros Hn. unfold DecodeReader.
  assert (H : forall (fuel : nat) (r : list byte) (acc : list Z) (n : Z),
             (length r < fuel)%nat -> 0 <= n -> Forall isInt16 acc ->
             exists res,
               DecodeLoopReader fuel c r acc n = Some res /\
               match res with
               | Err e => decodeError e
               | Ok (d, _) =>
                   Z.of_nat (length d) = Z.of_nat (length acc) + n /\
                   Forall isInt16 d
               end).
  { clear r n Hn. induction fuel as [|fuel IH]; intros r acc n Hf Hn Hacc; [lia|].
    cbn [DecodeLoopReader].
    destruct (n >? 0) eqn:Hgt.
    2:{ apply gtb_false in Hgt. eexists; split; [reflexivity|].
        split; [lia|exact Hacc]. }
    apply gtb_true in Hgt.
    destruct (decodeChunk_spec c r n) as (res & Hres & Hspec).
    rewrite Hres. destruct res as [[chunk r']|e].
    2:{ eexists; split; [reflexivity|]. eapply decodeChunk_error_kind, Hres. }
    destruct Hspec as (Hlen & Hall & Hshort).
    pose proof (maxBlockLength_pos c) as Hmax.
    destruct (IH r' (acc ++ chunk) (n - Z.of_nat (length chunk)))
      as (res & Hres' & Hspec'); [lia|lia|apply Forall_app; split; assumption|].
    rewrite Hres'. eexists; split; [reflexivity|].
    destruct res as [[d r'']|e]; [|exact Hspec'].
    destruct Hspec' as [Hl Hd]. split; [|exact Hd].
    rewrite length_app in Hl. lia. }
  destruct (H (S (length r)) r [] n) as (res & Hres & Hspec);
    [lia|exact Hn|constructor|].
  exists res. split; [exact Hres|].
  destruct res as [[d r']|e]; [|exact Hspec].
  cbn [length] in Hspec. exact Hspec.
Qed.

(* The loop over the channels ends, with one of the errors of its readers
   or with one more channel for each turn. *)
Lemma readChannels_shape (count : nat) (compressed bits16 it215 : bool) (len offset : Z) :
  0 <= len ->
  forall (r : list byte) (data : list (list Z)),
  exists res,
    readChannels count compressed bits16 it215 len offset r data = Some res /\
    match res with
    | Err e => decodeError e
    | Ok data' =>
        exists new,
          data' = data ++ new /\ length new = count /\
          Forall (sampleChannel (if bits16 then 16 else 8) len) new
    end.
Proof.
  intros Hlen. induction count as [|count IH]; intros r data; cbn [readChannels].
  - eexists; split; [reflexivity|]. exists []. rewrite app_nil_r.
    split; [reflexivity|]. split; [reflexivity|constructor].
  - assert (Hstep : forall d r',
               sampleChannel (if bits16 then 16 else 8) len d ->
               exists res,
                 readChannels count compressed bits16 it215 len offset r' (data ++ [d])
                 = Some res /\
                 match res with
                 | Err e => decodeError e
                 | Ok data' =>
                     exists new,
                       data' = data ++ new /\ length new = S count /\
                       Forall (sampleChannel (if bits16 then 16 else 8) len) new
                 end).
    { intros d r' Hd. destruct (IH r' (data ++ [d])) as (res & Hres & Hspec).
      exists res. split; [exact Hres|]. destruct res as [data'|e]; [|exact Hspec].
      destruct Hspec as (new & -> & Hl & Hall). exists (d :: new).
      rewrite <- app_assoc. split; [reflexivity|].
      split; [cbn [length]; lia|]. constructor; assumption. }
    destruct compressed; cbn [negb].
    + destruct (DecodeReader_shape {| It215 := it215; Is16 := bits16 |} r len Hlen)
        as (res & Hres & Hspec).
      rewrite Hres. destruct res as [[decoded r']|e].
      2:{ eexists; split; [reflexivity|exact Hspec]. }
      apply Hstep. destruct Hspec as [Hl Hall]. unfold sampleChannel.
      destruct bits16; [split; [exact Hl|exact Hall]|].
      rewrite length_map. split; [exact Hl|].
      apply Forall_forall. intros x Hx. apply list_elem_of_In, in_map_iff in Hx.
      destruct Hx as (y & <- & _). apply int8_range.
    + destruct (readPcm bits16 r len offset) as [[d r']|e] eqn:Hpcm.
      2:{ eexists; split; [reflexivity|]. eapply readPcm_error_kind, Hpcm. }
      apply Hstep. apply readPcm_shape in Hpcm. destruct Hpcm as [Hl Hall].
      split; [lia|exact Hall].
Qed.

Lemma int_small (x : Z) : - 2 ^ 63 <= x < 2 ^ 63 -> int x = x.
Proof.
  intros Hx. unfold int.
  rewrite Z.mod_small; [lia|].
  change (2 ^ 64) with (2 * 2 ^ 63). lia.
Qed.

(** X18: ReadItSample always ends.  When it succeeds the sample keeps the
    header, has two channels when the stereo flag (bit 2 of Flags) is set
    and one when it is not, 16 bits when the 16-bit flag (bit 1) is set and 8
    when it is not, and its data has one slice per channel, each of exactly
    Length samples, all within the range of the sample's bit depth, also
    for compressed 8-bit data.  When it fails the error is
    ErrUnsupportedSource, ErrInvalidSource, or one of the errors of the
    readers (io.EOF, io.ErrUnexpectedEOF, ErrEndOfStream,
    ErrDecodingError). *)
Theorem ReadItSample_shape (strict : bool) (file : list byte)
    (header : ItSampleHeader.t) (it215 : bool) :
  0 <= ItSampleHeader.Length header < 2 ^ 32 ->
  exists res,
    ReadItSample strict file header it215 = Some res /\
    match res with
    | inl its =>
        ItSample.Header its = header /\
        ItSample.Channels its
        = (if Z.testbit (ItSampleHeader.Flags header) 2 then 2 else 1) /\
        ItSample.Bits its
        = (if Z.testbit (ItSampleHeader.Flags header) 1 then 16 else 8) /\
        Z.of_nat (length (ItSample.Data its)) = ItSample.Channels its /\
        Forall (sampleChannel (ItSample.Bits its) (ItSampleHeader.Length header))
               (ItSample.Data its)
    | inr e => sampleError e
    end.
Proof.
  intros Hlen. unfold ReadItSample.
  destruct (negb (bytesEqb _ _) && strict).
  { eexists; split; [reflexivity|]. right; left; reflexivity. }
  destruct (negb (Z.land (ItSampleHeader.Convert header) SampConvDelta =? 0)).
  { eexists; split; [reflexivity|]. left; reflexivity. }
  change SampFlag16bit with (2 ^ 1). change SampFlagStereo with (2 ^ 2).
  rewrite !land_bit, !negb_involutive by lia.
  rewrite int_small by (change (2 ^ 63) with 9223372036854775808;
                        change (2 ^ 32) with 4294967296 in Hlen; lia).
  match goal with
  | |- context [readChannels ?n ?c ?b ?i ?l ?o ?r ?d] =>
      destruct (readChannels_shape n c b i l o (proj1 Hlen) r d)
        as (res & Hres & Hspec)
  end.
  rewrite Hres. destruct res as [data|e].
  2:{ eexists; split; [reflexivity|]. right; right. eexists; split; [reflexivity|exact Hspec]. }
  eexists; split; [reflexivity|].
  cbn [ItSample.Header ItSample.Channels ItSample.Bits ItSample.Data].
  destruct Hspec as (new & -> & Hl & Hall). cbn [app].
  split; [reflexivity|]. split; [reflexivity|]. split; [reflexivity|].
  split; [|exact Hall].
  rewrite Hl. destruct (Z.testbit (ItSampleHeader.Flags header) 2); reflexivity.
Qed.

Lemma ReadItSample_shape_witness :
  let header := ItSampleHeader.mk IMPS [] 64 2 64 [] 0 32 2 0 0 8363 0 0 1 0 0 0 0 in
  0 <= ItSampleHeader.Length header < 2 ^ 32 /\
  exists res,
    ReadItSample true [x00; x00; x00; xff; xff] header false = Some res /\
    match res with
    | inl its =>
        ItSample.Header its = header /\
        ItSample.Channels its = 1 /\
        ItSample.Bits its = 16 /\
        Z.of_nat (length (ItSample.Data its)) = ItSample.Channels its /\
        Forall (sampleChannel (ItSample.Bits its) 2) (ItSample.Data its)
    | inr e => sampleError e
    end.
Proof.
  intros header.
  assert (H : 0 <= ItSampleHeader.Length header < 2 ^ 32) by (vm_compute; split; discriminate || reflexivity).
  split; [exact H|].
  exact (ReadItSample_shape true [x00; x00; x00; xff; xff] header false H).
Defined.

Lemma readChannels_length (count : nat) (compressed bits16 it215 : bool)
    (len offset : Z) :
  forall (r : list byte) (data data' : list (list Z)),
    readChannels count compressed bits16 it215 len offset r data = Some (Ok data') ->
    length data' = (length data + count)%nat.
Proof.
  induction count as [|count IH]; intros r data data'; cbn [readChannels].
  - intros [= <-]. lia.
  - destruct (negb compressed).
    + destruct (readPcm _ r _ _) as [[d r']|e]; [|discriminate].
      intros H. apply IH in H. rewrite length_app in H. cbn [length] in H. lia.
    + destruct (DecodeReader _ r _) as [[[d r']|e]|]; try discriminate.
      intros H. apply IH in H. rewrite length_app in H. cbn [length] in H. lia.
Qed.

(** X19: a sample that ReadItSample has read goes through
    ItSample.ToCommon unchanged in shape: the channel count and the bit
    depth that ToCommon works out again from the flags are the ones
    ReadItSample stored, the stereo and 16-bit marks say the same, and the
    data is the same slice per channel, one for each channel counted. *)
Theorem ReadItSample_ToCommon (strict : bool) (file : list byte)
    (header : ItSampleHeader.t) (it215 : bool) (its : ItSample.t) :
  ReadItSample strict file header it215 = Some (inl its) ->
  let s := ItSample_ToCommon its in
  common_Sample.Channels (common_Sample.SData s) = ItSample.Channels its /\
  common_Sample.Bits (common_Sample.SData s) = ItSample.Bits its /\
  common_Sample.Data (common_Sample.SData s) = ItSample.Data its /\
  common_Sample.Stereo s = (ItSample.Channels its =? 2) /\
  common_Sample.S16 s = (ItSample.Bits its =? 16) /\
  Z.of_nat (length (common_Sample.Data (common_Sample.SData s)))
  = common_Sample.Channels (common_Sample.SData s).
Proof.
  unfold ReadItSample.
  destruct (negb (bytesEqb _ _) && strict); [discriminate|].
  destruct (negb (Z.land (ItSampleHeader.Convert header) SampConvDelta =? 0));
    [discriminate|].
  match goal with
  | |- context [readChannels ?n ?c ?b ?i ?l ?o ?r ?d] =>
      pose proof (readChannels_length n c b i l o r d) as Hch;
      destruct (readChannels n c b i l o r d) as [[data|e]|] eqn:Hres;
        try discriminate
  end.
  intros [= <-]. specialize (Hch data eq_refl). cbn [length Nat.add] in Hch.
  unfold ItSample_ToCommon;
    cbn [common_Sample.SData common_Sample.Channels common_Sample.Bits
         common_Sample.Data common_Sample.Stereo common_Sample.S16
         ItSample.Header ItSample.Channels ItSample.Bits ItSample.Data].
  rewrite Hch. unfold iif.
  destruct (negb (Z.land (ItSampleHeader.Flags header) SampFlagStereo =? 0));
    destruct (negb (Z.land (ItSampleHeader.Flags header) SampFlag16bit =? 0));
    repeat split; reflexivity.
Qed.

Lemma ReadItSample_ToCommon_witness :
  let header := ItSampleHeader.mk IMPS [] 64 4 64 [] 1 32 2 0 0 8363 0 0 0 0 0 0 0 in
  let its := ItSample.mk header 2 8 [[1; -1]; [2; -2]] in
  ReadItSample true [x01; xff; x02; xfe] header false = Some (inl its) /\
  common_Sample.Data (common_Sample.SData (ItSample_ToCommon its)) = [[1; -1]; [2; -2]] /\
  common_Sample.Stereo (ItSample_ToCommon its) = true.
Proof.
  intros header its.
  assert (H : ReadItSample true [x01; xff; x02; xfe] header false = Some (inl its))
    by (vm_compute; reflexivity).
  split; [exact H|].
  destruct (ReadItSample_ToCommon true _ header false its H)
    as (_ & _ & Hd & Hs & _).
  split; [exact Hd|exact Hs].
Defined.

Lemma readChannels_compressed_offset (count : nat) (bits16 it215 : bool)
    (len offset1 offset2 : Z) :
  forall (r : list byte) (data : list (list Z)),
    readChannels count true bits16 it215 len offset1 r data
    = readChannels count true bits16 it215 len offset2 r data.
Proof.
  induction count as [|count IH]; intros r data; cbn [readChannels negb];
    [reflexivity|].
  destruct (DecodeReader _ r len) as [[[d r']|e]|]; try reflexivity.
  apply IH.
Qed.

(** X20: for a compressed sample (bit 3 of Flags) the signed bit of the
    Convert byte changes nothing: the offset that ReadItSample works out
    for unsigned data is given to readPcm only, and the decoded values of a
    compressed sample are stored as they come.  Two headers that differ in
    their Convert bytes only, these agreeing on the delta bit, give the
    same data or the same error. *)
Theorem ReadItSample_compressed_signedness (strict : bool) (file : list byte)
    (header : ItSampleHeader.t) (it215 : bool) (c1 c2 : Z) :
  Z.testbit (ItSampleHeader.Flags header) 3 = true ->
  Z.testbit c1 2 = Z.testbit c2 2 ->
  dataOf (ReadItSample strict file (withConvert c1 header) it215)
  = dataOf (ReadItSample strict file (withConvert c2 header) it215).
Proof.
  intros Hc Hd. unfold ReadItSample.
  cbn [withConvert ItSampleHeader.FileCode ItSampleHeader.Convert
       ItSampleHeader.Flags ItSampleHeader.SamplePointer ItSampleHeader.Length].
  destruct (negb (bytesEqb _ _) && strict); [reflexivity|].
  change SampConvDelta with (2 ^ 2). change SampFlagCompressed with (2 ^ 3).
  rewrite !land_bit, !negb_involutive, Hc, Hd by lia.
  destruct (Z.testbit c2 2); [reflexivity|].
  match goal with
  | |- context [readChannels ?n true ?b ?i ?l ?o ?r ?d] =>
      rewrite (readChannels_compressed_offset n b i l o 0 r d)
  end.
  match goal with
  | |- _ = dataOf (match readChannels ?n true ?b ?i ?l ?o ?r ?d with _ => _ end) =>
      rewrite (readChannels_compressed_offset n b i l o 0 r d)
  end.
  match goal with
  | |- context [readChannels ?n true ?b ?i ?l ?o ?r ?d] =>
      destruct (readChannels n true b i l o r d) as [[data|e]|]; reflexivity
  end.
Qed.

Lemma ReadItSample_compressed_signedness_witness :
  let header := ItSampleHeader.mk IMPS [] 64 8 64 [] 0 32 2 0 0 8363 0 0 0 0 0 0 0 in
  Z.testbit (ItSampleHeader.Flags header) 3 = true /\
  Z.testbit 0 2 = Z.testbit 1 2 /\
  dataOf (ReadItSample true (frame [xc8; x90; x01]) (withConvert 0 header) false)
  = dataOf (ReadItSample true (frame [xc8; x90; x01]) (withConvert 1 header) false).
Proof.
  intros header. split; [reflexivity|]. split; [reflexivity|].
  exact (ReadItSample_compressed_signedness true (frame [xc8; x90; x01]) header
           false 0 1 eq_refl eq_refl).
Defined.

(* The loop over the channels of uncompressed data that the reader holds:
   one channel after the other. *)
Lemma readChannels_uncompressed (bits16 signed it215 : bool) (len : Z) (count : nat) :
  forall (r : list byte) (data : list (list Z)),
    (count * pcmBytes bits16 len <= length r)%nat ->
    readChannels count false bits16 it215 len (pcmOffset bits16 signed) r data
    = Some (Ok (data ++
                map (fun ch =>
                       map (pcmValue bits16 signed)
                           (unsignedPcm bits16
                              (take (pcmBytes bits16 len)
                                    (drop (ch * pcmBytes bits16 len) r))))
                    (seq 0 count))).
Proof.
  induction count as [|count IH]; intros r data Hr; cbn [readChannels negb].
  - cbn [seq map]. rewrite app_nil_r. reflexivity.
  - rewrite readPcm_enough by lia.
    rewrite IH by (rewrite length_drop; lia).
    rewrite <- app_assoc. do 3 f_equal.
    rewrite <- cons_seq, <- seq_shift. cbn [map app Nat.mul].
    f_equal. rewrite map_map. apply map_ext. intros ch.
    rewrite drop_drop. reflexivity.
Qed.

(** X21: ReadItSample on an uncompressed sample whose data the file holds
    from SamplePointer on.  The channels are stored one after the other,
    not interleaved: channel ch is made of the Length samples that start
    ch times the size of a channel after SamplePointer, one byte per sample
    or two (little-endian), read as two's complement when bit 0 of Convert
    says signed and as the stored number minus 128 or 32768 when it does
    not. *)
Theorem ReadItSample_uncompressed (strict : bool) (file : list byte)
    (header : ItSampleHeader.t) (it215 : bool) :
  0 <= ItSampleHeader.Length header < 2 ^ 32 ->
  strict = false \/ ItSampleHeader.FileCode header = IMPS ->
  Z.testbit (ItSampleHeader.Flags header) 3 = false ->
  Z.testbit (ItSampleHeader.Convert header) 2 = false ->
  let bits16 := Z.testbit (ItSampleHeader.Flags header) 1 in
  let signed := Z.testbit (ItSampleHeader.Convert header) 0 in
  let channels := if Z.testbit (ItSampleHeader.Flags header) 2 then 2%nat else 1%nat in
  let n := pcmBytes bits16 (ItSampleHeader.Length header) in
  let r := drop (Z.to_nat (ItSampleHeader.SamplePointer header)) file in
  (channels * n <= length r)%nat ->
  ReadItSample strict file header it215
  = Some (inl {| ItSample.Header := header;
                 ItSample.Channels := Z.of_nat channels;
                 ItSample.Bits := if bits16 then 16 else 8;
                 ItSample.Data :=
                   map (fun ch =>
                          map (pcmValue bits16 signed)
                              (unsignedPcm bits16 (take n (drop (ch * n) r))))
                       (seq 0 channels) |}).
Proof.
  intros Hlen Hcode Hcomp Hdelta bits16 signed channels n r Hr.
  unfold ReadItSample.
  assert (Hc : negb (bytesEqb (ItSampleHeader.FileCode header) [x49; x4d; x50; x53])
               && strict = false).
  { destruct Hcode as [->| ->]; [apply andb_false_r|reflexivity]. }
  rewrite Hc.
  change SampConvDelta with (2 ^ 2). change SampFlagCompressed with (2 ^ 3).
  change SampFlag16bit with (2 ^ 1). change SampFlagStereo with (2 ^ 2).
  change SampConvSigned with (2 ^ 0).
  rewrite !land_bit, !negb_involutive, Hcomp, Hdelta by lia.
  rewrite int_small by (change (2 ^ 63) with 9223372036854775808;
                        change (2 ^ 32) with 4294967296 in Hlen; lia).
  fold bits16 signed r.
  replace (if negb signed then if bits16 then -32768 else -128 else 0)
    with (pcmOffset bits16 signed) by (destruct bits16, signed; reflexivity).
  replace (Z.to_nat (if Z.testbit (ItSampleHeader.Flags header) 2 then 2 else 1))
    with channels
    by (unfold channels; destruct (Z.testbit (ItSampleHeader.Flags header) 2);
        reflexivity).
  rewrite readChannels_uncompressed by exact Hr.
  cbn [app]. do 3 f_equal.
  unfold channels. destruct (Z.testbit (ItSampleHeader.Flags header) 2); reflexivity.
Qed.

Lemma ReadItSample_uncompressed_witness :
  let header := ItSampleHeader.mk IMPS [] 64 4 64 [] 0 32 2 0 0 8363 0 0 1 0 0 0 0 in
  ReadItSample true [x00; x00; x80; xff; x7f] header false
  = Some (inl (ItSample.mk header 2 8 [[-128; 0]; [127; -1]])).
Proof.
  intros header.
  exact (ReadItSample_uncompressed true [x00; x00; x80; xff; x7f] header false
           ltac:(vm_compute; split; discriminate || reflexivity)
           (or_intror eq_refl) eq_refl eq_refl ltac:(vm_compute; lia)).
Defined.

(** X22: readItPattern succeeds exactly on a reader that starts with the
    eight bytes of a header, DataLength and Rows as little-endian 16-bit
    numbers and four reserved bytes that are not looked at, followed by at
    least DataLength bytes; the data of the pattern is then exactly the
    first DataLength of these, and what follows them is not looked at. *)
Theorem readItPattern_exact (r : list byte) (itp : ItPattern) :
  readItPattern r = Ok itp <->
  exists d0 d1 r0 r1 reserved rest,
    r = [d0; d1; r0; r1] ++ reserved ++ Data itp ++ rest /\
    length reserved = 4%nat /\
    Header itp = {| DataLength := le16 d0 d1; Rows := le16 r0 r1 |} /\
    length (Data itp) = Z.to_nat (le16 d0 d1).
Proof.
  split.
  - unfold readItPattern.
    destruct r as [|d0 [|d1 [|r0 [|r1 [|x4 [|x5 [|x6 [|x7 body]]]]]]]];
      try discriminate.
    cbn [DataLength].
    destruct (readBytes _ body) as [[data r']|e] eqn:Hrb; [|discriminate].
    intros [= <-]. cbn [Header Data].
    exists d0, d1, r0, r1, [x4; x5; x6; x7], r'.
    pose proof (readBytes_length _ _ _ _ Hrb) as [Hl _].
    split; [|split; [reflexivity|split; [reflexivity|exact Hl]]].
    cbn [app]. do 8 f_equal.
    unfold readBytes in Hrb.
    destruct (_ =? 0)%nat; [injection Hrb as <- <-; reflexivity|].
    destruct (length body =? 0)%nat; [discriminate|].
    destruct (length body <? _)%nat; [discriminate|].
    injection Hrb as <- <-. symmetry. apply take_drop.
  - intros (d0 & d1 & r0 & r1 & reserved & rest & -> & Hres & Hh & Hl).
    destruct reserved as [|x4 [|x5 [|x6 [|x7 [|]]]]]; try discriminate.
    cbn [app]. unfold readItPattern. cbn [DataLength].
    rewrite readBytes_enough by (rewrite length_app; lia).
    rewrite <- Hl, take_app_length. rewrite <- Hh.
    destruct itp; reflexivity.
Qed.

(** X23: the errors of readItPattern are those of io.ReadFull, first on
    the header and then on the data: io.EOF when nothing at all could be
    read (an empty reader, or a reader that ends with the header of a
    pattern that has data) and io.ErrUnexpectedEOF when something but not
    everything could; a pattern with a DataLength of 0 needs nothing after
    its header. *)
Theorem readItPattern_errors (r : list byte) (e : error) :
  readItPattern r = Err e <->
  ((length r < 8)%nat /\
   e = (if (length r =? 0)%nat then EOF else ErrUnexpectedEOF)) \/
  (exists d0 d1 reserved body,
      r = d0 :: d1 :: reserved ++ body /\ length reserved = 6%nat /\
      (length body < Z.to_nat (le16 d0 d1))%nat /\
      e = (if (length body =? 0)%nat then EOF else ErrUnexpectedEOF)).
Proof.
  split.
  - unfold readItPattern.
    destruct r as [|d0 [|d1 [|r0 [|r1 [|x4 [|x5 [|x6 [|x7 body]]]]]]]];
      try (intros [= <-]; left; split; [cbn [length]; lia|reflexivity]).
    cbn [DataLength].
    destruct (readBytes _ body) as [[data r']|e'] eqn:Hrb; [discriminate|].
    intros [= ->]. right.
    exists d0, d1, [r0; r1; x4; x5; x6; x7], body.
    split; [reflexivity|]. split; [reflexivity|].
    unfold readBytes in Hrb.
    destruct (_ =? 0)%nat eqn:H0; [discriminate|]. apply Nat.eqb_neq in H0.
    destruct (length body =? 0)%nat eqn:Hb.
    + apply Nat.eqb_eq in Hb. injection Hrb as <-. split; [lia|reflexivity].
    + destruct (length body <? _)%nat eqn:Hlt; [|discriminate].
      apply Nat.ltb_lt in Hlt. injection Hrb as <-. split; [exact Hlt|reflexivity].
  - intros [[Hlen ->]|(d0 & d1 & reserved & body & -> & Hres & Hlt & ->)].
    + unfold readItPattern.
      destruct r as [|d0 [|d1 [|r0 [|r1 [|x4 [|x5 [|x6 [|x7 body]]]]]]]];
        try reflexivity.
      cbn [length] in Hlen. lia.
    + destruct reserved as [|r0 [|r1 [|x4 [|x5 [|x6 [|x7 [|]]]]]]]; try discriminate.
      cbn [app]. unfold readItPattern. cbn [DataLength].
      rewrite readBytes_short by exact Hlt. reflexivity.
Qed.

(** ** The earlier pattern loader *)

Lemma nextByteF_flag (data : list byte) (s : unpacker * bool) :
  snd (snd (nextByteF data s)) = false -> snd s = false.
Proof.
  unfold nextByteF. destruct (data !! dataRead (fst s)); cbn [snd]; [tauto|discriminate].
Qed.

Lemma nextByteF_cursor (data : list byte) (s : unpacker * bool) :
  (dataRead (fst s) <= dataRead (fst (snd (nextByteF data s))))%nat /\
  (byteZ (fst (nextByteF data s)) <> 0 ->
   (dataRead (fst s) < dataRead (fst (snd (nextByteF data s))))%nat).
Proof.
  unfold nextByteF. destruct (data !! dataRead (fst s)); proj_simpl.
  - split; [lia|intros _; lia].
  - split; [lia|]. intros H. exfalso. apply H. reflexivity.
Qed.

(* A byte that loadPattern reads without raising its flag is a byte that
   ToCommon reads from the data, and would read from any longer data. *)
Lemma nextByteF_inside (data extra : list byte) (s : unpacker * bool) (u : unpacker) :
  sameCursor (fst s) u ->
  snd (snd (nextByteF data s)) = false ->
  nextByte (data ++ extra) u = nextByte data u /\
  fst (nextByte data u) = fst (nextByteF data s) /\
  sameCursor (fst (snd (nextByteF data s))) (snd (nextByte data u)).
Proof.
  intros Hs. assert (Hd : dataRead (fst s) = dataRead u) by apply Hs.
  unfold nextByteF, nextByte. rewrite Hd.
  destruct (data !! dataRead u) as [b|] eqn:Hl; cbn [fst snd]; [|discriminate].
  intros _. rewrite (lookup_app_l_Some _ _ _ _ Hl).
  split; [reflexivity|]. split; [reflexivity|].
  destruct Hs as (? & ? & ? & ? & ? & ? & ?).
  unfold sameCursor; proj_simpl. repeat split; congruence.
Qed.

Section Arrays.

(* One of the six arrays of the unpacker. *)
Variable get : unpacker -> list byte.
Variable set : list byte -> unpacker -> unpacker.
Hypothesis get_same : forall u v, sameCursor u v -> get u = get v.
Hypothesis set_same : forall a u v, sameCursor u v -> sameCursor (set a u) (set a v).
Hypothesis set_cursor : forall a u, dataRead (set a u) = dataRead u.

Lemma storeNext_flag (data : list byte) (cond : bool) (channel : Z)
    (s : unpacker * bool) :
  snd (storeNext data cond get set channel s) = false -> snd s = false.
Proof using Type.
  unfold storeNext. destruct cond; [|tauto].
  pose proof (nextByteF_flag data s) as Hf.
  destruct (nextByteF data s) as [b s1]. cbn [snd] in *. exact Hf.
Qed.

Lemma storeNext_cursor (data : list byte) (cond : bool) (channel : Z)
    (s : unpacker * bool) :
  (dataRead (fst s) <= dataRead (fst (storeNext data cond get set channel s)))%nat.
Proof using set_cursor.
  unfold storeNext. destruct cond; [|lia].
  pose proof (nextByteF_cursor data s) as [Hc _].
  destruct (nextByteF data s) as [b s1]. cbn [fst snd] in *.
  rewrite set_cursor. exact Hc.
Qed.

Lemma storeNext_inside (data extra : list byte) (cond : bool) (channel : Z)
    (s : unpacker * bool) (u : unpacker) :
  sameCursor (fst s) u ->
  snd (storeNext data cond get set channel s) = false ->
  readInto get set (data ++ extra) cond channel u
  = readInto get set data cond channel u /\
  sameCursor (fst (storeNext data cond get set channel s))
             (readInto get set data cond channel u).
Proof using get_same set_same.
  intros Hs. unfold storeNext, readInto. destruct cond; [|intros _; split; [reflexivity|exact Hs]].
  pose proof (nextByteF_inside data extra s u Hs) as Hin.
  destruct (nextByteF data s) as [b s1]. cbn [fst snd] in *.
  intros Hf. destruct (Hin Hf) as (He & Hb & Hc). rewrite He.
  destruct (nextByte data u) as [b' u1]. cbn [fst snd] in *. subst b'.
  split; [reflexivity|]. rewrite (get_same _ _ Hc). apply set_same, Hc.
Qed.

End Arrays.

Ltac same_cursor :=
  intros; unfold sameCursor in *; proj_simpl;
  repeat match goal with H : _ /\ _ |- _ => destruct H end;
  repeat split; congruence.

Lemma trackChannel_sameCursor (channel : Z) (u v : unpacker) :
  sameCursor u v -> sameCursor u (trackChannel channel v).
Proof.
  unfold trackChannel. destruct (channel >=? channels v); same_cursor.
Qed.

Lemma readEffect_readInto (data : list byte) (mask channel : Z) (u : unpacker) :
  readEffect data mask channel u
  = readInto lastEffectParam setLastEffectParam data
      (negb (Z.land mask PmaskEffect =? 0)) channel
      (readInto lastEffect setLastEffect data
         (negb (Z.land mask PmaskEffect =? 0)) channel u).
Proof.
  unfold readEffect, readInto.
  destruct (negb (Z.land mask PmaskEffect =? 0)); [|reflexivity].
  destruct (nextByte data u) as [b u1]. reflexivity.
Qed.

Lemma loadEntry_flag (data : list byte) (cs : byte) (s : unpacker * bool) :
  snd (loadEntry data cs s) = false -> snd s = false.
Proof.
  unfold loadEntry. intros H.
  repeat match type of H with
         | snd (storeNext _ _ _ _ _ _) = false => apply storeNext_flag in H
         end.
  exact H.
Qed.

Lemma loadEntry_cursor (data : list byte) (cs : byte) (s : unpacker * bool) :
  (dataRead (fst s) <= dataRead (fst (loadEntry data cs s)))%nat.
Proof.
  unfold loadEntry.
  repeat match goal with
         | |- (_ <= dataRead (fst (storeNext ?d ?c ?g ?st ?ch ?s0)))%nat =>
             etransitivity; [|apply (storeNext_cursor g st); intros; reflexivity]
         end.
  lia.
Qed.

(* An entry that loadPattern takes without raising its flag is an entry
   that ToCommon takes from the data alone. *)
Lemma loadEntry_inside (data extra : list byte) (cs : byte)
    (s : unpacker * bool) (u : unpacker) :
  sameCursor (fst s) u ->
  snd (loadEntry data cs s) = false ->
  unpackEntry (data ++ extra) cs u = unpackEntry data cs u /\
  sameCursor (fst (loadEntry data cs s)) (fst (unpackEntry data cs u)).
Proof.
  intros Hs Hf. unfold loadEntry in *.
  set (ch := channelOf cs) in *.
  set (s1 := storeNext data _ lastMask setLastMask ch s) in *.
  set (m := maskOf ch (fst s1)) in *.
  set (s2 := storeNext data _ lastNote setLastNote ch s1) in *.
  set (s3 := storeNext data _ lastIns setLastIns ch s2) in *.
  set (s4 := storeNext data _ lastVol setLastVol ch s3) in *.
  set (s5 := storeNext data _ lastEffect setLastEffect ch s4) in *.
  pose proof Hf as F5. apply storeNext_flag in F5. fold s5 in F5.
  pose proof F5 as F4. apply storeNext_flag in F4. fold s4 in F4.
  pose proof F4 as F3. apply storeNext_flag in F3. fold s3 in F3.
  pose proof F3 as F2. apply storeNext_flag in F2. fold s2 in F2.
  pose proof F2 as F1. apply storeNext_flag in F1. fold s1 in F1.
  pose proof (trackChannel_sameCursor ch _ _ Hs) as H0.
  destruct (storeNext_inside lastMask setLastMask ltac:(same_cursor) ltac:(same_cursor)
              data extra _ ch s _ H0 F1) as [E1 H1].
  fold s1 in H1.
  assert (Hm : maskOf ch (readInto lastMask setLastMask data
                            (negb (Z.land (byteZ cs) 128 =? 0)) ch
                            (trackChannel ch u)) = m).
  { unfold m, maskOf. f_equal. f_equal. symmetry. apply H1. }
  destruct (storeNext_inside lastNote setLastNote ltac:(same_cursor) ltac:(same_cursor)
              data extra _ ch s1 _ H1 F2) as [E2 H2].
  fold s2 in H2.
  destruct (storeNext_inside lastIns setLastIns ltac:(same_cursor) ltac:(same_cursor)
              data extra _ ch s2 _ H2 F3) as [E3 H3].
  fold s3 in H3.
  destruct (storeNext_inside lastVol setLastVol ltac:(same_cursor) ltac:(same_cursor)
              data extra _ ch s3 _ H3 F4) as [E4 H4].
  fold s4 in H4.
  destruct (storeNext_inside lastEffect setLastEffect ltac:(same_cursor)
              ltac:(same_cursor) data extra _ ch s4 _ H4 F5) as [E5 H5].
  fold s5 in H5.
  destruct (storeNext_inside lastEffectParam setLastEffectParam ltac:(same_cursor)
              ltac:(same_cursor) data extra _ ch s5 _ H5 Hf) as [E6 H6].
  unfold unpackEntry. fold ch. cbv zeta.
  rewrite !readEffect_readInto.
  change (readMask ?d cs ch ?v)
    with (readInto lastMask setLastMask d (negb (Z.land (byteZ cs) 128 =? 0)) ch v).
  rewrite E1, Hm.
  change (readNote ?d m ch ?v)
    with (readInto lastNote setLastNote d (negb (Z.land m PmaskNote =? 0)) ch v).
  rewrite E2.
  change (readIns ?d m ch ?v)
    with (readInto lastIns setLastIns d (negb (Z.land m PmaskIns =? 0)) ch v).
  rewrite E3.
  change (readVol ?d m ch ?v)
    with (readInto lastVol setLastVol d (negb (Z.land m PmaskVol =? 0)) ch v).
  rewrite E4, E5, E6.
  split; [reflexivity|]. cbn [fst]. exact H6.
Qed.

Lemma loadRow_flag (data : list byte) (fuel : nat) :
  forall s s', loadRow fuel data s = Some s' -> snd s' = false -> snd s = false.
Proof.
  induction fuel as [|fuel IH]; intros s s'; cbn [loadRow]; [discriminate|].
  pose proof (nextByteF_flag data s) as Hn.
  destruct (nextByteF data s) as [cs s1]. cbn [snd] in Hn.
  destruct (byteZ cs =? 0).
  - intros [= <-]. exact Hn.
  - intros Hl Hf. apply Hn. eapply loadEntry_flag, IH; eassumption.
Qed.

(* The inner loop of loadPattern ends within the fuel the data gives it. *)
Lemma loadRow_fuel (data : list byte) (fuel : nat) :
  forall s, (length data - dataRead (fst s) < fuel)%nat ->
            exists s', loadRow fuel data s = Some s'.
Proof.
  induction fuel as [|fuel IH]; intros s Hfuel; [lia|]. cbn [loadRow].
  pose proof (nextByteF_cursor data s) as [_ Hc].
  assert (Hin : (dataRead (fst (snd (nextByteF data s))) <= length data)%nat
                \/ byteZ (fst (nextByteF data s)) = 0).
  { unfold nextByteF. destruct (data !! dataRead (fst s)) eqn:Hl; proj_simpl.
    - left. apply lookup_lt_Some in Hl. lia.
    - right. reflexivity. }
  destruct (nextByteF data s) as [cs s1]. cbn [fst snd] in Hc, Hin.
  destruct (Z.eqb_spec (byteZ cs) 0) as [H0|Hn0]; [eexists; reflexivity|].
  apply IH. pose proof (loadEntry_cursor data cs s1). specialize (Hc Hn0).
  destruct Hin as [Hin|Hin]; [lia|contradiction].
Qed.

Lemma loadRows_result (data : list byte) (rows : nat) :
  forall s, exists res,
    loadRows rows data s = Some res /\
    (res = Err ErrInvalidSource \/
     res = Ok {| common.Channels := 0; common.Rows := [] |}).
Proof.
  induction rows as [|rows IH]; intros s; cbn [loadRows].
  - eexists; split; [reflexivity|right; reflexivity].
  - destruct (loadRow_fuel data (S (length data)) s ltac:(lia)) as (s' & Hs).
    rewrite Hs. destruct (snd s'); [|apply IH].
    eexists; split; [reflexivity|left; reflexivity].
Qed.


(* A row that loadPattern takes without raising its flag is a row that
   ToCommon takes from the data alone. *)
Lemma loadRow_inside (data extra : list byte) (fuel : nat) :
  forall (fuel1 fuel2 : nat) (s s' : unpacker * bool) (u : unpacker)
         (es : list common.PatternEntry),
    sameCursor (fst s) u ->
    loadRow fuel data s = Some s' -> snd s' = false ->
    (length data - dataRead u < fuel1)%nat ->
    (length (data ++ extra) - dataRead u < fuel2)%nat ->
    exists v es',
      unpackRow fuel1 data u es = Some (v, es') /\
      unpackRow fuel2 (data ++ extra) u es = Some (v, es') /\
      sameCursor (fst s') v.
Proof.
  induction fuel as [|fuel IH]; intros fuel1 fuel2 s s' u es Hs Hl Hf H1 H2;
    [discriminate|].
  destruct fuel1 as [|fuel1]; [lia|]. destruct fuel2 as [|fuel2]; [lia|].
  cbn [loadRow] in Hl. cbn [unpackRow].
  pose proof (nextByteF_inside data extra s u Hs) as Hin.
  pose proof (nextByte_cursor data u) as Hc.
  assert (Hz : (length data <= dataRead u)%nat -> byteZ (fst (nextByte data u)) = 0)
    by (intros Hge; rewrite (nextByte_end data u Hge); reflexivity).
  destruct (nextByteF data s) as [cs s1]. cbn [fst snd] in Hin.
  destruct (Z.eqb_spec (byteZ cs) 0) as [H0|Hn0].
  - injection Hl as <-. destruct (Hin Hf) as (He & Hb & Hsame).
    rewrite He. destruct (nextByte data u) as [cs' u1]. cbn [fst snd] in *.
    subst cs'. rewrite H0. cbn [Z.eqb].
    exists u1, es. split; [reflexivity|]. split; [reflexivity|exact Hsame].
  - pose proof (loadRow_flag data fuel _ _ Hl Hf) as Fe.
    pose proof (loadEntry_flag data cs s1 Fe) as F1.
    destruct (Hin F1) as (He & Hb & Hsame).
    rewrite He. destruct (nextByte data u) as [cs' u1]. cbn [fst snd] in *.
    subst cs'.
    destruct (Z.eqb_spec (byteZ cs) 0) as [H0|_]; [contradiction|].
    destruct (loadEntry_inside data extra cs s1 u1 Hsame Fe) as [Ee Hsame'].
    rewrite Ee.
    destruct (unpackEntry_spec data cs u1) as (_ & _ & Hd).
    destruct (unpackEntry data cs u1) as [u2 e]. cbn [fst snd] in Hsame', Hd.
    unfold advance in Hc. rewrite length_app in H2.
    apply (IH fuel1 fuel2 _ s' u2 (es ++ [e]) Hsame' Hl Hf).
    + destruct (Nat.le_gt_cases (length data) (dataRead u)) as [Hge|Hlt];
        [specialize (Hz Hge); contradiction|lia].
    + rewrite length_app.
      destruct (Nat.le_gt_cases (length data) (dataRead u)) as [Hge|Hlt];
        [specialize (Hz Hge); contradiction|lia].
Qed.

Lemma loadRows_inside (data extra : list byte) (rows : nat) :
  forall (s : unpacker * bool) (u : unpacker) (acc : list common.PatternRow)
         (p : common.Pattern),
    sameCursor (fst s) u ->
    loadRows rows data s = Some (Ok p) ->
    unpackRows rows (data ++ extra) u acc = unpackRows rows data u acc.
Proof.
  induction rows as [|rows IH]; intros s u acc p Hs; cbn [loadRows unpackRows];
    [reflexivity|].
  destruct (loadRow (S (length data)) data s) as [s1|] eqn:Hl; [|discriminate].
  destruct (snd s1) eqn:Hf; [discriminate|].
  intros Hrest.
  destruct (loadRow_inside data extra _ (S (length data)) (S (length (data ++ extra)))
              s s1 u [] Hs Hl Hf ltac:(lia) ltac:(lia))
    as (v & es' & Hr1 & Hr2 & Hsame).
  rewrite Hr1, Hr2. apply (IH s1 v _ p Hsame Hrest).
Qed.


